(** * The gallery's scene coordinator (App.tsx), embedded in Rocq

    The development follows the first variant of [App.tsx]: the asset
    registry ([registerAsset], [updateLoadingOverlay]), the slot manager
    ([createOrUpdateEntry], [hideEntry]), the content fetcher ([loadPhotos])
    and the page transition controller ([pageSlide], [slideQueue]).

    JavaScript numbers that carry fractions (aspect ratios, depths, the
    progress quotient) are binary64 floats, modelled by the primitive floats
    of the kernel.  Counters and millisecond time stamps only ever hold
    integers far below 2^53, where binary64 arithmetic is exact; they are
    integers here.  The page offset and the total count are integers in the
    state machine as well; the total count comes from the content API, and
    the integers stand for the numbers of the program as long as it is an
    integer of at most 2^52: [Slide.nextOffset64] is the offset computation
    in binary64, [Binary64Props.nextOffset64_exact] shows that it computes
    [Slide.nextOffset] in that range, and beyond it the two differ.  The
    asynchronous parts of the program (promises,
    callbacks of the engine, the network) are a labelled transition system:
    one event per callback the browser can deliver. *)

From Stdlib Require Import ZArith Floats Lia.
From stdpp Require Import base option list strings gmap pretty.

#[local] Set Warnings "-inexact-float".
#[local] Open Scope Z_scope.

(** ** JavaScript numbers *)

Module JS.

(** The binary64 value of an integer ([Number] of an integer literal or
    counter). *)
Definition num (z : Z) : float :=
  SF2Prim (binary_normalize 53 1024 z 0 false).

(** [Math.round]: the integer [floor (x + 1/2)], computed exactly on the
    mantissa and exponent of [x] (ties go up).  Infinities and NaN are not
    integers; they cannot arise from the quotients below and read 0. *)
Definition Math_round (x : float) : Z :=
  match Prim2SF x with
  | S754_finite s m e =>
      let n := if s then Z.neg m else Z.pos m in
      if 0 <=? e then n * 2 ^ e
      else (2 * n + 2 ^ (- e)) / (2 * 2 ^ (- e))
  | _ => 0
  end.

(** Truthiness of a number: [0], [-0] and [NaN] are falsy. *)
Definition truthy (x : float) : bool :=
  negb (PrimFloat.eqb x 0%float) && negb (PrimFloat.is_nan x).

(** [x || d] on an optional number ([undefined] is falsy). *)
Definition num_or (x : option float) (d : float) : float :=
  match x with
  | Some v => if truthy v then v else d
  | None => d
  end.

(** [s || d] on an optional string (the empty string is falsy). *)
Definition str_or (s : option string) (d : string) : string :=
  match s with
  | Some v => if String.eqb v "" then d else v
  | None => d
  end.

(** [a[i] = x] on an array: a write past the end extends the array, the
    slots in between reading as [undefined]. *)
Definition array_set {A} (a : list (option A)) (i : nat) (x : option A)
  : list (option A) :=
  if (i <? length a)%nat then <[i := x]> a
  else a ++ replicate (i - length a) None ++ [x].

(** [a[i]], with holes, [null] and out-of-range reads all falsy. *)
Definition array_get {A} (a : list (option A)) (i : nat) : option A :=
  mjoin (a !! i).

(** [Math.floor]: the zeros, the infinities and NaN are their own floor; a
    number without fraction bits is its own floor; otherwise the mantissa is
    divided rounding down, and the quotient is an integer that binary64
    holds. *)
Definition Math_floor (x : float) : float :=
  match Prim2SF x with
  | S754_finite s m e =>
      if 0 <=? e then x
      else num ((if s then Z.neg m else Z.pos m) / 2 ^ (- e))
  | _ => x
  end.

(** The integer a number is, if it is one. *)
Definition integer (x : float) : option Z :=
  match Prim2SF x with
  | S754_zero _ => Some 0
  | S754_finite s m e =>
      let n := if s then Z.neg m else Z.pos m in
      if 0 <=? e then Some (n * 2 ^ e)
      else if n mod 2 ^ (- e) =? 0 then Some (n / 2 ^ (- e)) else None
  | _ => None
  end.

End JS.

(** ** Integers in binary64 *)

Module Binary64.

(** The binary64 datum of an integer: what [JS.num] converts. *)
Definition datum (z : Z) : spec_float := binary_normalize 53 1024 z 0 false.

(** A mantissa and exponent as binary64 stores them. *)
Definition canonical (w : positive) (c : Z) : Prop :=
  fexp 53 1024 (Z.pos (digits2_pos w) + c) = c ∧ c ≤ 971.

(** Exponent and mantissa of the datum of a positive integer below 2^53. *)
Definition expo (p : positive) : Z := Z.pos (digits2_pos p) - 53.

Definition mant (p : positive) : positive := Z.to_pos (Z.pos p * 2 ^ (- expo p)).

(** An integer from its sign and magnitude. *)
Definition signed (s : bool) (p : positive) : Z := if s then Z.neg p else Z.pos p.

(** Integers below 2^53 in magnitude. *)
Definition exact (v : Z) : Prop := - 2 ^ 53 < v < 2 ^ 53.

(** The second half of [binary_round_aux]: the rounded mantissa is brought
    back to 53 digits. *)
Definition finish (s : bool) (m e : Z) : spec_float :=
  let '(mrs, e') := shr_fexp 53 1024 m e loc_Exact in
  match shr_m mrs with
  | Z0 => S754_zero s
  | Z.pos m => if e' <=? 1024 - 53 then S754_finite s m e' else S754_infinity s
  | _ => S754_nan
  end.

End Binary64.

(** ** Asset registry and loading overlay *)

Module Registry.

(** The overlay's DOM: [loadingTextDiv.textContent] and
    [loadingBarInner.style.width].  [loadingOverlay], [loadingTextDiv] and
    [loadingBarInner] are created and cleared together. *)
Record Overlay := mkOverlay {
  textContent : string;
  barWidth : string;
}.

Record t := mk {
  totalAssets : nat;
  loadedAssets : nat;
  loadingOverlay : option Overlay;
  loadingOverlayShownAt : Z;
  registeredAssetKeys : gset string;
  registeredAssetDone : gset string;
  lastLoadedAssets : nat;
  lastLoadedUpdateAt : Z;
  (** due times of the pending [setTimeout(hideNow, ...)] calls *)
  hideTimers : list Z;
}.

Definition loadingOverlayMinMs : Z := 300.

Definition empty : t :=
  mk 0 0 None 0 ∅ ∅ 0 0 [].

Definition set_overlay (o : option Overlay) (shown : Z) (r : t) : t :=
  mk (totalAssets r) (loadedAssets r) o shown
     (registeredAssetKeys r) (registeredAssetDone r)
     (lastLoadedAssets r) (lastLoadedUpdateAt r) (hideTimers r).

Definition createLoadingOverlay (now : Z) (r : t) : t :=
  match loadingOverlay r with
  | Some _ => r
  | None => set_overlay (Some (mkOverlay "あと 100%" "0%")) now r
  end.

(** [percent] of [updateLoadingOverlay]:
    [totalAssets === 0 ? 0 : Math.round((loadedAssets / totalAssets) * 100)]. *)
Definition percent (loaded total : nat) : Z :=
  match total with
  | O => 0
  | _ =>
      JS.Math_round
        (PrimFloat.mul
           (PrimFloat.div (JS.num (Z.of_nat loaded)) (JS.num (Z.of_nat total)))
           (JS.num 100))
  end.

(** The stuck-progress watchdog of [updateLoadingOverlay]; its console
    warning is not part of the state. *)
Definition watchdog (now : Z) (r : t) : nat * Z :=
  if (0 <? totalAssets r)%nat && (loadedAssets r <? totalAssets r)%nat then
    if negb (loadedAssets r =? lastLoadedAssets r)%nat then (loadedAssets r, now)
    else if 3000 <? now - lastLoadedUpdateAt r then (lastLoadedAssets r, now)
    else (lastLoadedAssets r, lastLoadedUpdateAt r)
  else (lastLoadedAssets r, lastLoadedUpdateAt r).

(** The session is complete: [totalAssets > 0 && loadedAssets >= totalAssets]. *)
Definition complete (r : t) : bool :=
  (0 <? totalAssets r)%nat && (totalAssets r <=? loadedAssets r)%nat.

(** The delay handed to [setTimeout(hideNow, waitMs + 220)]. *)
Definition hideDelay (now : Z) (r : t) : Z :=
  let elapsed := now - loadingOverlayShownAt r in
  let waitMs := Z.max 0 (loadingOverlayMinMs - elapsed) in
  waitMs + 220.

Definition updateLoadingOverlay (now : Z) (r : t) : t :=
  match loadingOverlay r with
  | None => r
  | Some _ =>
      let p := percent (loadedAssets r) (totalAssets r) in
      let remaining := 100 - p in
      let o := mkOverlay ("あと " +:+ pretty remaining +:+ "%") (pretty p +:+ "%") in
      let '(lla, llu) := watchdog now r in
      mk (totalAssets r) (loadedAssets r) (Some o) (loadingOverlayShownAt r)
         (registeredAssetKeys r) (registeredAssetDone r) lla llu
         (if complete r then hideTimers r ++ [now + hideDelay now r]
          else hideTimers r)
  end.

(** [hideNow], the callback of the dismissal timeout. *)
Definition hideNow (r : t) : t := set_overlay None 0 r.

(** The [i]-th pending dismissal timeout fires; a timeout never fires before
    it is due. *)
Definition fireTimer (i : nat) (now : Z) (r : t) : option t :=
  match hideTimers r !! i with
  | Some due =>
      if due <=? now then
        let r' := hideNow r in
        Some (mk (totalAssets r') (loadedAssets r') (loadingOverlay r')
                 (loadingOverlayShownAt r') (registeredAssetKeys r')
                 (registeredAssetDone r') (lastLoadedAssets r')
                 (lastLoadedUpdateAt r') (delete i (hideTimers r')))
      else None
  | None => None
  end.

(** What [registerAsset] returns: the inert [() => {}] or the closure that
    counts the asset [k] as loaded. *)
Inductive handle :=
| Noop
| Done (k : string).

(** [registerAsset(key)]; [rnd] is [Math.random().toString(36).slice(2)]. *)
Definition registerAsset (key : option string) (rnd : string) (now : Z) (r : t)
  : handle * t :=
  let isNewSession := negb (bool_decide (is_Some (loadingOverlay r))) in
  let r1 :=
    if isNewSession then
      mk 0 0 (loadingOverlay r) (loadingOverlayShownAt r) ∅
         (registeredAssetDone r) (lastLoadedAssets r) (lastLoadedUpdateAt r)
         (hideTimers r)
    else r in
  let k := JS.str_or key ("asset:" +:+ rnd) in
  if bool_decide (k ∈ registeredAssetKeys r1) then
    (Noop, updateLoadingOverlay now (createLoadingOverlay now r1))
  else
    let r2 :=
      mk (S (totalAssets r1)) (loadedAssets r1) (loadingOverlay r1)
         (loadingOverlayShownAt r1) ({[k]} ∪ registeredAssetKeys r1)
         (registeredAssetDone r1) (lastLoadedAssets r1)
         (lastLoadedUpdateAt r1) (hideTimers r1) in
    (Done k, updateLoadingOverlay now (createLoadingOverlay now r2)).

(** Calling a completion handle. *)
Definition invoke (h : handle) (now : Z) (r : t) : t :=
  match h with
  | Noop => r
  | Done k =>
      let r1 :=
        mk (totalAssets r) (S (loadedAssets r)) (loadingOverlay r)
           (loadingOverlayShownAt r) (registeredAssetKeys r)
           ({[k]} ∪ registeredAssetDone r) (S (loadedAssets r)) now
           (hideTimers r) in
      updateLoadingOverlay now r1
  end.

(** [registerTexture(tex, key)] up to the subscription: the key falls back
    to the texture's name and url (both the url the texture was built
    from), then to a random one. *)
Definition registerTexture (texUrl : string) (key : option string)
    (rnd : string) (now : Z) (r : t) : handle * t :=
  let k := JS.str_or key (JS.str_or (Some texUrl)
             (JS.str_or (Some texUrl) ("tex:" +:+ rnd))) in
  registerAsset (Some k) rnd now r.

End Registry.

(** ** Content items and the entities of a slot *)

Module Work.

(** [MicroCMSImage] and [WorkItem] as they arrive in the JSON of the
    content API: every field the code guards with [?.] or [||] may be
    missing. *)
Record MicroCMSImage := mkImage {
  url : string;
  height : option float;
  width : option float;
}.

Record WorkItem := mkWork {
  id : string;
  title : option string;
  body : option string;
  shootingdate : option string;
  photo : option MicroCMSImage;
}.

Record MicroCMSResponse := mkResponse {
  contents : option (list (option WorkItem));
  totalCount : option Z;
}.

End Work.

Module Scene.

Record Vector3 := vec { x : float; y : float; z : float }.

(** A plane mesh: its name, the size it was built with, where it stands
    and whether it is enabled. *)
Record Mesh := mkMesh {
  name : string;
  meshWidth : float;
  meshHeight : float;
  position : Vector3;
  rotationY : float;
  enabled : bool;
}.

Definition setEnabled (b : bool) (m : Mesh) : Mesh :=
  mkMesh (name m) (meshWidth m) (meshHeight m) (position m) (rotationY m) b.

Definition setZ (v : float) (m : Mesh) : Mesh :=
  mkMesh (name m) (meshWidth m) (meshHeight m)
         (vec (x (position m)) (y (position m)) v) (rotationY m) (enabled m).

(** What [drawTextOnTexture] is handed: title, raw body HTML and the
    formatted date. *)
Record Caption := mkCaption {
  titleText : string;
  rawBodyHtml : string;
  fDate : string;
}.

(** [PhotoEntry]; [mat] is the photo material, known by the url of its
    texture, [textTexture] by the caption painted on it.  [serial] stands
    for the identity of the object: two entries created at different times
    are different objects even when they look the same. *)
Record PhotoEntry := mkEntry {
  serial : nat;
  photoPlane : Mesh;
  mat : string;
  whiteFramePlane : Mesh;
  blackFramePlane : Mesh;
  textPlane : Mesh;
  textTexture : Caption;
  originalZ : float;
}.

Definition Math_PI : float := 3.141592653589793%float.

End Scene.

(** ** The application state: slots, pagination, registry *)

Module Gallery.

Import Work Scene.

(** The variables of [App]'s effect that the slot manager and the fetcher
    touch.  [pendingTextures] are the [onLoadObservable.addOnce(() => done())]
    subscriptions still waiting for their texture; [draws] counts the calls of
    [Math.random] and [created] the entries built so far. *)
Record App := mkApp {
  sceneDisposed : bool;
  photoEntries : list (option PhotoEntry);
  pageOffset : Z;
  totalCount : Z;
  registry : Registry.t;
  pendingTextures : list Registry.handle;
  draws : nat;
  created : nat;
}.

Definition set_entries (es : list (option PhotoEntry)) (a : App) : App :=
  mkApp (sceneDisposed a) es (pageOffset a) (totalCount a) (registry a)
        (pendingTextures a) (draws a) (created a).

Definition set_registry (r : Registry.t) (a : App) : App :=
  mkApp (sceneDisposed a) (photoEntries a) (pageOffset a) (totalCount a) r
        (pendingTextures a) (draws a) (created a).

Definition set_page (off total : Z) (a : App) : App :=
  mkApp (sceneDisposed a) (photoEntries a) off total (registry a)
        (pendingTextures a) (draws a) (created a).

(** How a call ends: it returns, or an exception leaves it. *)
Inductive completion :=
| Returned
| Thrown.

(** [planeW] and [planeH] of [createOrUpdateEntry], after the halving. *)
Definition planeSize (work : WorkItem) : float * float :=
  let imgW := JS.num_or (photo work ≫= width) 1%float in
  let imgH := JS.num_or (photo work ≫= height) 1%float in
  let aspect := (imgW / imgH)%float in
  let '(planeW, planeH) :=
    if (aspect <? 1)%float then (1, 1 / aspect)%float
    else (1 * aspect, 1)%float in
  (planeW * 0.5, planeH * 0.5)%float.

Section WithEnvironment.

(** [Math.random().toString(36).slice(2)] at its [n]-th call. *)
Variable Math_random : nat → string.
(** The caption's date: [new Date(s)] printed as year, month and day. *)
Variable formatDate : string → string.
(** [import.meta.env.VITE_MICROCMS_API_KEY] and [import.meta.env.DEV]. *)
Variable VITE_MICROCMS_API_KEY : option string.
Variable DEV : bool.

(** The entity set [createOrUpdateEntry] builds for [work] at [index]. *)
Definition buildEntry (work : WorkItem) (img : MicroCMSImage) (index : nat)
    (serial : nat) : PhotoEntry :=
  let '(planeW, planeH) := planeSize work in
  let baseBottom := 1.5%float in
  let centerY := (baseBottom + planeH / 2)%float in
  let spacing := 1.25%float in
  let wallFrontZ := 0.89%float in
  let first2 := (index <? 2)%nat in
  let xOffset :=
    if first2 then ((JS.num (Z.of_nat index) - 0.5) * spacing)%float
    else 0.5%float in
  let zPos := if first2 then (-0.89)%float else wallFrontZ in
  let rotY := if first2 then Math_PI else 0%float in
  let photoPlane :=
    mkMesh ("photo" +:+ pretty index) planeW planeH
           (vec xOffset centerY zPos) rotY true in
  let frameThickness := 0.08%float in
  let zDir := if first2 then (-1)%float else 1%float in
  let whitezPos := (zPos + 0.004 * zDir)%float in
  let whiteFramePlane :=
    mkMesh ("frame_white" +:+ pretty index)
           (planeW + frameThickness * 2)%float (planeH + frameThickness * 2)%float
           (vec xOffset centerY whitezPos) rotY true in
  let blackFrameThickness := 0.04%float in
  let blackzPos := (zPos + 0.002 * zDir)%float in
  let blackFramePlane :=
    mkMesh ("frame_black" +:+ pretty index)
           (planeW + blackFrameThickness * 2)%float
           (planeH + blackFrameThickness * 2)%float
           (vec xOffset centerY blackzPos) rotY true in
  let textW := 1.5%float in
  let textH := 0.6%float in
  let gap := 0.02%float in
  let textY := (centerY - planeH / 2 - gap - textH / 2)%float in
  let textOffset := 0.005%float in
  let textzPos := (zPos - textOffset * (if first2 then -1 else 1))%float in
  let textPlane :=
    mkMesh ("text" +:+ pretty index) textW textH
           (vec xOffset textY textzPos) rotY true in
  let caption :=
    mkCaption (JS.str_or (title work) "") (JS.str_or (body work) "")
              (match shootingdate work with
               | Some d => if String.eqb d "" then "" else formatDate d
               | None => ""
               end) in
  mkEntry serial photoPlane (url img) whiteFramePlane blackFramePlane
          textPlane caption zPos.

(** [createOrUpdateEntry(work, index)].  The only statement that can throw is
    [new Texture(work.photo.url, scene)], on an item without a photo; by then
    the old entry is disposed and the slot holds [null]. *)
Definition createOrUpdateEntry (work : WorkItem) (index : nat) (now : Z)
    (a : App) : completion * App :=
  if sceneDisposed a then (Returned, a)
  else
    let a1 :=
      match JS.array_get (photoEntries a) index with
      | Some _old => set_entries (JS.array_set (photoEntries a) index None) a
      | None => a
      end in
    match JS.array_get (photoEntries a1) index with
    | Some _ => (Returned, a1)
    | None =>
        match photo work with
        | None => (Thrown, a1)
        | Some img =>
            let '(done, reg) :=
              Registry.registerTexture (url img) (Some (url img))
                (Math_random (draws a1)) now (registry a1) in
            let e := buildEntry work img index (created a1) in
            (Returned,
             mkApp (sceneDisposed a1)
                   (JS.array_set (photoEntries a1) index (Some e))
                   (pageOffset a1) (totalCount a1) reg
                   (pendingTextures a1 ++ [done])
                   (if String.eqb (url img) "" then S (draws a1) else draws a1)
                   (S (created a1)))
        end
    end.

Definition hideEntry (index : nat) (a : App) : App :=
  match JS.array_get (photoEntries a) index with
  | Some entry =>
      let entry' :=
        mkEntry (serial entry) (setEnabled false (photoPlane entry)) (mat entry)
                (setEnabled false (whiteFramePlane entry))
                (setEnabled false (blackFramePlane entry))
                (setEnabled false (textPlane entry))
                (textTexture entry) (originalZ entry) in
      set_entries (<[index := Some entry']> (photoEntries a)) a
  | None => a
  end.

(** *** [loadPhotos] *)

(** Where a call of [loadPhotos] is suspended: at [await fetch(...)], at
    [await res.text()] of a response that is not ok, or at
    [await res.json()].  [fetchDone] is the handle [registerAsset(url)]
    returned. *)
Inductive loader :=
| AwaitFetch (offset : Z) (fetchDone : Registry.handle)
| AwaitText (fetchDone : Registry.handle)
| AwaitJson (offset : Z) (fetchDone : Registry.handle).

(** How [fetch] settles: rejected by the abort of the 10 second timeout,
    rejected by the network, or fulfilled with a response whose [ok] is
    given. *)
Inductive fetch_result :=
| Aborted
| NetworkError
| Response (ok : bool).

(** How reading the body settles: [res.json()] rejects (the body is not
    JSON, or the request was aborted meanwhile) or yields the parsed
    data. *)
Inductive body_result :=
| ParseError
| Json (data : MicroCMSResponse).

(** The url of [loadPhotos].  The template literal prints an integer below
    10^21 in magnitude with all its digits, which is what [pretty] does; the
    offsets of the state machine stay far below while the total counts
    are within range ([Range.countWithin]). *)
Definition endpoint (offset : Z) : string :=
  if DEV
  then "https://liangworks.microcms.io/api/v1/taiwanphoto?limit=3&offset=" +:+ pretty offset
  else "/.netlify/functions/microcms?limit=3&offset=" +:+ pretty offset.

(** [if (_fetchDone) { try { _fetchDone(); } ... }]. *)
Definition fetchDone_call (h : Registry.handle) (now : Z) (a : App) : App :=
  set_registry (Registry.invoke h now (registry a)) a.

(** [loadPhotos(offset)] up to its first suspension; [None] when it has
    already returned (no API key). *)
Definition loadPhotos (offset : Z) (now : Z) (a : App) : option loader * App :=
  match VITE_MICROCMS_API_KEY with
  | None => (None, a)
  | Some key =>
      if String.eqb key "" then (None, a)
      else
        let '(h, reg) :=
          Registry.registerAsset (Some (endpoint offset))
            (Math_random (draws a)) now (registry a) in
        (Some (AwaitFetch offset h), set_registry reg a)
  end.

(** The loop [for (let i = 0; i < 3; i++)] over [items], from [i] on, with
    [n] rounds to go; an exception of [createOrUpdateEntry] ends it. *)
Fixpoint bindItems (items : list (option WorkItem)) (i n : nat) (now : Z)
    (a : App) : completion * App :=
  match n with
  | O => (Returned, a)
  | S n' =>
      match JS.array_get items i with
      | Some work =>
          match createOrUpdateEntry work i now a with
          | (Returned, a') => bindItems items (S i) n' now a'
          | (Thrown, a') => (Thrown, a')
          end
      | None => bindItems items (S i) n' now (hideEntry i a)
      end
  end.

(** What follows [const data = await res.json()]. *)
Definition loadPhotos_bind (offset : Z) (h : Registry.handle)
    (data : MicroCMSResponse) (now : Z) (a : App) : App :=
  let a1 := set_page offset (default 0 (Work.totalCount data)) a in
  match contents data with
  | None => fetchDone_call h now a1
  | Some items =>
      let '(_, a2) := bindItems items 0 3 now a1 in
      fetchDone_call h now a2
  end.

Inductive settle :=
| FetchSettled (r : fetch_result)
| BodySettled (b : body_result)
| TextSettled.

(** One resumption of a suspended [loadPhotos]; [None] when the event is not
    the one the call is waiting for. *)
Definition loadPhotos_resume (l : loader) (ev : settle) (now : Z) (a : App)
    : option (option loader * App) :=
  match l, ev with
  | AwaitFetch offset h, FetchSettled Aborted
  | AwaitFetch offset h, FetchSettled NetworkError =>
      Some (None, fetchDone_call h now a)
  | AwaitFetch offset h, FetchSettled (Response false) =>
      Some (Some (AwaitText h), a)
  | AwaitFetch offset h, FetchSettled (Response true) =>
      if sceneDisposed a then Some (None, fetchDone_call h now a)
      else Some (Some (AwaitJson offset h), a)
  | AwaitText h, TextSettled =>
      Some (None, fetchDone_call h now a)
  | AwaitJson offset h, BodySettled ParseError =>
      Some (None, fetchDone_call h now a)
  | AwaitJson offset h, BodySettled (Json data) =>
      Some (None, loadPhotos_bind offset h data now a)
  | _, _ => None
  end.

End WithEnvironment.

End Gallery.

(** ** Page transitions: [animateMeshZ], [pageSlide] and the [slideQueue] *)

Module Slide.

Import Work Scene Gallery.

(** [direction: 1 | -1]. *)
Inductive direction :=
| Forward
| Backward.

Definition dirZ (d : direction) : Z :=
  match d with
  | Forward => 1
  | Backward => -1
  end.

(** Step 2 of [pageSlide], the offset handed to [loadPhotos], over the
    integers: [Math.floor] of the quotient is the division of [Z]. *)
Definition nextOffset (pageOffset totalCount : Z) (direction : direction) : Z :=
  let nextOffset := pageOffset + 3 * dirZ direction in
  if nextOffset <? 0 then
    let maxPageStart := (totalCount - 1) / 3 * 3 in
    maxPageStart
  else if totalCount <=? nextOffset then 0
  else nextOffset.

(** Step 2 of [pageSlide] as the program computes it, on binary64 numbers:
    [pageOffset + 3 * direction], [nextOffset < 0],
    [Math.floor((totalCount - 1) / 3) * 3] and [nextOffset >= totalCount]
    with the operations of the floats. *)
Definition nextOffset64 (pageOffset totalCount : float) (direction : direction)
    : float :=
  let nextOffset := (pageOffset + JS.num 3 * JS.num (dirZ direction))%float in
  if (nextOffset <? JS.num 0)%float then
    let maxPageStart :=
      (JS.Math_floor ((totalCount - JS.num 1) / JS.num 3) * JS.num 3)%float in
    maxPageStart
  else if (totalCount <=? nextOffset)%float then JS.num 0
  else nextOffset.

(** *** Animations *)

Inductive part :=
| PhotoPlane
| WhiteFramePlane
| BlackFramePlane
| TextPlane.

Definition partOf (p : part) (e : PhotoEntry) : Mesh :=
  match p with
  | PhotoPlane => photoPlane e
  | WhiteFramePlane => whiteFramePlane e
  | BlackFramePlane => blackFramePlane e
  | TextPlane => textPlane e
  end.

Definition setPartZ (p : part) (v : float) (e : PhotoEntry) : PhotoEntry :=
  match p with
  | PhotoPlane =>
      mkEntry (serial e) (setZ v (photoPlane e)) (mat e) (whiteFramePlane e)
              (blackFramePlane e) (textPlane e) (textTexture e) (originalZ e)
  | WhiteFramePlane =>
      mkEntry (serial e) (photoPlane e) (mat e) (setZ v (whiteFramePlane e))
              (blackFramePlane e) (textPlane e) (textTexture e) (originalZ e)
  | BlackFramePlane =>
      mkEntry (serial e) (photoPlane e) (mat e) (whiteFramePlane e)
              (setZ v (blackFramePlane e)) (textPlane e) (textTexture e) (originalZ e)
  | TextPlane =>
      mkEntry (serial e) (photoPlane e) (mat e) (whiteFramePlane e)
              (blackFramePlane e) (setZ v (textPlane e)) (textTexture e) (originalZ e)
  end.

(** A running [animateMeshZ(mesh, from, to)]: the mesh is the [part] of the
    entry [owner] bound to [slot] when the animation began; the promise
    resolves when the engine reports the end of the animation. *)
Record animation := mkAnimation {
  slot : nat;
  owner : nat;
  target : part;
  to : float;
}.

(** The four animations of one enabled entry, given the depth each part is
    sent to. *)
Definition animateEntry (i : nat) (e : PhotoEntry) (zs : part → float)
    : list animation :=
  [ mkAnimation i (serial e) PhotoPlane (zs PhotoPlane);
    mkAnimation i (serial e) WhiteFramePlane (zs WhiteFramePlane);
    mkAnimation i (serial e) BlackFramePlane (zs BlackFramePlane);
    mkAnimation i (serial e) TextPlane (zs TextPlane) ].

(** Step 1, animate out: where each part of entry [e] at slot [i] goes. *)
Definition outDepths (i : nat) (e : PhotoEntry) (p : part) : float :=
  let targetZ := if (i <? 2)%nat then (-1.5)%float else 1.5%float in
  let delta := (targetZ - originalZ e)%float in
  match p with
  | PhotoPlane => targetZ
  | _ => (z (position (partOf p e)) + delta)%float
  end.

(** Step 3, animate in. *)
Definition inDepths (i : nat) (e : PhotoEntry) (p : part) : float :=
  let zDir := if (i <? 2)%nat then (-1)%float else 1%float in
  match p with
  | PhotoPlane => originalZ e
  | WhiteFramePlane => (originalZ e + 0.002 * zDir)%float
  | BlackFramePlane => (originalZ e + 0.001 * zDir)%float
  | TextPlane => (originalZ e - 0.01 * zDir)%float
  end.

(** [photoEntries.forEach((e, i) => { if (!e || !e.photoPlane.isEnabled())
    return; ... })]: the animations that are started and have to end before
    [Promise.all] resolves.  On a disposed scene [animateMeshZ] resolves at
    once and starts nothing. *)
Definition animations (depths : nat → PhotoEntry → part → float) (a : App)
    : list animation :=
  if sceneDisposed a then []
  else
    concat (imap (λ i oe,
                    match oe with
                    | Some e =>
                        if enabled (photoPlane e)
                        then animateEntry i e (depths i e)
                        else []
                    | None => []
                    end) (photoEntries a)).

(** The end of an animation leaves the mesh at [to], if the mesh is still
    the one the slot holds. *)
Definition animationEnd (an : animation) (a : App) : App :=
  match JS.array_get (photoEntries a) (slot an) with
  | Some e =>
      if (serial e =? owner an)%nat
      then set_entries
             (<[slot an := Some (setPartZ (target an) (to an) e)]> (photoEntries a)) a
      else a
  | None => a
  end.

(** *** Promises *)

(** A promise of the [slideQueue] chain: pending with the reactions [then]
    registered on it (each the queued work of a [pageSlide] call), or
    fulfilled. *)
Inductive promise :=
| Pending (reactions : list nat)
| Fulfilled.

(** How far the work of one [pageSlide] call has come. *)
Inductive phase :=
| Queued
| AnimatingOut (running : list animation)
| Loading (l : loader)
| AnimatingIn (running : list animation)
| Resolved.

(** One [pageSlide] call: its argument, its progress and the promise
    [slideQueue.then(...)] returned for it. *)
Record call := mkCall {
  direction_of : direction;
  phase_of : phase;
  promise_of : nat;
}.

Inductive who :=
| InitialLoad
| SlideOf (k : nat).

(** What the browser can deliver: time passing, a pointer-down on one of the
    two arrows, the run of the next promise reaction job, the end of a
    running animation of a call, the settlement of a fetch or of the reading
    of its body (for the initial load or for the load of a call), the load of
    a texture, and a dismissal timeout.  Events may come in any order; an
    event that nothing is waiting for is not enabled.  The teardown of the
    scene is not an event of the model. *)
Inductive event :=
| Tick (ms : Z)
| PointerDown (d : direction)
| Job
| AnimationEnd (k i : nat)
| Settle (w : who) (ev : settle)
| TextureLoaded (i : nat)
| HideTimeout (i : nat).

Record State := mkState {
  app : App;
  clock : Z;
  promises : list promise;
  slideQueue : nat;
  calls : list call;
  (** promise reaction jobs waiting in the microtask queue *)
  jobs : list nat;
  (** the [loadPhotos()] of the initial load, while it is suspended *)
  initialLoad : option loader;
  (** every offset [loadPhotos] was called with, oldest first *)
  requested : list Z;
}.

Definition set_app (a : App) (s : State) : State :=
  mkState a (clock s) (promises s) (slideQueue s) (calls s) (jobs s)
          (initialLoad s) (requested s).

Definition set_phase (k : nat) (ph : phase) (s : State) : State :=
  mkState (app s) (clock s) (promises s) (slideQueue s)
          (alter (λ c, mkCall (direction_of c) ph (promise_of c)) k (calls s))
          (jobs s) (initialLoad s) (requested s).

Definition reactions_of (p : option promise) : list nat :=
  match p with
  | Some (Pending rs) => rs
  | _ => []
  end.

Definition promise_at (k : nat) (s : State) : nat :=
  from_option promise_of 0%nat (calls s !! k).

(** [resolve()] of the promise the queued work returned: the promise of call
    [k] is fulfilled and its reactions become jobs. *)
Definition resolve (k : nat) (s : State) : State :=
  let p := promise_at k s in
  let s1 := set_phase k Resolved s in
  mkState (app s1) (clock s1) (<[p := Fulfilled]> (promises s1)) (slideQueue s1)
          (calls s1) (jobs s1 ++ reactions_of (promises s1 !! p))
          (initialLoad s1) (requested s1).

Section WithEnvironment.

Variable Math_random : nat → string.
Variable formatDate : string → string.
Variable VITE_MICROCMS_API_KEY : option string.
Variable DEV : bool.

#[local] Abbreviation loadPhotos := (loadPhotos Math_random VITE_MICROCMS_API_KEY DEV).
#[local] Abbreviation loadPhotos_resume := (loadPhotos_resume Math_random formatDate).

(** Step 3 of the queued work: animate in, then [resolve()]. *)
Definition animateIn (k : nat) (s : State) : State :=
  match animations inDepths (app s) with
  | [] => resolve k s
  | running => set_phase k (AnimatingIn running) s
  end.

(** Step 2: compute the next offset and [await loadPhotos(nextOffset)]. *)
Definition fetchNext (k : nat) (d : direction) (s : State) : State :=
  let nxt := nextOffset (pageOffset (app s)) (totalCount (app s)) d in
  let '(l, a) := loadPhotos nxt (clock s) (app s) in
  let s1 :=
    mkState a (clock s) (promises s) (slideQueue s) (calls s) (jobs s)
            (initialLoad s) (requested s ++ [nxt]) in
  match l with
  | Some l => set_phase k (Loading l) s1
  | None => animateIn k s1
  end.

(** Step 1: animate out and [await Promise.all(outPromises)]. *)
Definition animateOut (k : nat) (d : direction) (s : State) : State :=
  match animations outDepths (app s) with
  | [] => fetchNext k d s
  | running => set_phase k (AnimatingOut running) s
  end.

(** [pageSlide(direction)]: [slideQueue = slideQueue.then(work)].  [then] on
    a fulfilled promise queues the job, on a pending one it registers the
    reaction.  [None] if [slideQueue] were no promise. *)
Definition pageSlide (d : direction) (s : State) : option State :=
  let k := length (calls s) in
  let p := length (promises s) in
  match promises s !! slideQueue s with
  | Some Fulfilled =>
      Some (mkState (app s) (clock s) (promises s ++ [Pending []]) p
                    (calls s ++ [mkCall d Queued p]) (jobs s ++ [k])
                    (initialLoad s) (requested s))
  | Some (Pending rs) =>
      Some (mkState (app s) (clock s)
                    (<[slideQueue s := Pending (rs ++ [k])]> (promises s) ++ [Pending []])
                    p (calls s ++ [mkCall d Queued p]) (jobs s)
                    (initialLoad s) (requested s))
  | None => None
  end.

Definition step (e : event) (s : State) : option State :=
  match e with
  | Tick ms =>
      if 0 <=? ms
      then Some (mkState (app s) (clock s + ms) (promises s) (slideQueue s)
                         (calls s) (jobs s) (initialLoad s) (requested s))
      else None
  | PointerDown d => pageSlide d s
  | Job =>
      match jobs s with
      | k :: rest =>
          match calls s !! k with
          | Some (mkCall d Queued _) =>
              Some (animateOut k d
                      (mkState (app s) (clock s) (promises s) (slideQueue s)
                               (calls s) rest (initialLoad s) (requested s)))
          | _ => None
          end
      | [] => None
      end
  | AnimationEnd k i =>
      match calls s !! k with
      | Some (mkCall d (AnimatingOut running) _) =>
          match running !! i with
          | Some an =>
              let s1 := set_app (animationEnd an (app s)) s in
              match delete i running with
              | [] => Some (fetchNext k d s1)
              | rest => Some (set_phase k (AnimatingOut rest) s1)
              end
          | None => None
          end
      | Some (mkCall d (AnimatingIn running) _) =>
          match running !! i with
          | Some an =>
              let s1 := set_app (animationEnd an (app s)) s in
              match delete i running with
              | [] => Some (resolve k s1)
              | rest => Some (set_phase k (AnimatingIn rest) s1)
              end
          | None => None
          end
      | _ => None
      end
  | Settle InitialLoad ev =>
      l ← initialLoad s;
      '(l', a) ← loadPhotos_resume l ev (clock s) (app s);
      Some (mkState a (clock s) (promises s) (slideQueue s) (calls s) (jobs s)
                    l' (requested s))
  | Settle (SlideOf k) ev =>
      match calls s !! k with
      | Some (mkCall d (Loading l) _) =>
          '(l', a) ← loadPhotos_resume l ev (clock s) (app s);
          match l' with
          | Some l' => Some (set_phase k (Loading l') (set_app a s))
          | None => Some (animateIn k (set_app a s))
          end
      | _ => None
      end
  | TextureLoaded i =>
      h ← pendingTextures (app s) !! i;
      let a := app s in
      Some (set_app
              (mkApp (sceneDisposed a) (photoEntries a) (pageOffset a)
                     (totalCount a) (Registry.invoke h (clock s) (registry a))
                     (delete i (pendingTextures a)) (draws a) (created a)) s)
  | HideTimeout i =>
      r ← Registry.fireTimer i (clock s) (registry (app s));
      Some (set_app (set_registry r (app s)) s)
  end.

Fixpoint run (es : list event) (s : State) : option State :=
  match es with
  | [] => Some s
  | e :: es => s' ← step e s; run es s'
  end.

(** The state once the effect has run [loadPhotos()] for the initial load,
    at time [t0] with the registry [r0] the static textures left behind. *)
Definition boot (r0 : Registry.t) (t0 : Z) : State :=
  let a0 := mkApp false [None; None; None] 0 0 r0 [] 0 0 in
  let '(l, a) := loadPhotos 0 t0 a0 in
  mkState a t0 [Fulfilled] 0 [] [] l [0].

End WithEnvironment.

End Slide.

(** ** Caption layout: [drawTextOnTexture] *)

Module CaptionText.

Definition TEXT_SCALE : Z := 2.
Definition baseWidth : Z := 1024.
Definition CONTENT_Y_OFFSET_PX : Z := -18.
Definition maxLineWidth : Z := 900 * TEXT_SCALE.
Definition lineHeight : Z := 30 * TEXT_SCALE.
(** [320 * TEXT_SCALE], the lowest a body line may start. *)
Definition bottom : Z := 320 * TEXT_SCALE.
(** Where the body starts: [(150 + CONTENT_Y_OFFSET_PX) * TEXT_SCALE]. *)
Definition bodyTop : Z := (150 + CONTENT_Y_OFFSET_PX) * TEXT_SCALE.
(** [Math.round(width / 2)], the x of every text (centered). *)
Definition centerX : Z := baseWidth * TEXT_SCALE / 2.

Section WithCanvas.

(** The UTF-16 code units [para.split('')] yields, and the width
    [ctx.measureText(s).width] of a run of them in the body font. *)
Variable codeUnit : Type.
Variable measureText : list codeUnit → float.

(** One [ctx.fillText(text, x, y)] with the font and fill style in force. *)
Record fillText := mkFillText {
  font : string;
  fillStyle : string;
  text : list codeUnit;
  x : Z;
  y : Z;
}.

Definition bodyFont : string := "20px 'Noto Sans JP', sans-serif".
Definition titleFont : string := "bold 32px 'Noto Sans JP', sans-serif".

Definition bodyLine (line : list codeUnit) (y : Z) : fillText :=
  mkFillText bodyFont "white" line centerX y.

(** [testWidth > maxLineWidth]. *)
Definition tooWide (testLine : list codeUnit) : bool :=
  (JS.num maxLineWidth <? measureText testLine)%float.

(** How the loop over the characters of a paragraph ends: what it drew, the
    line it holds, the [y] it reached and whether it left by
    [break paragraphLoop]. *)
Record wrapped := mkWrapped {
  drawn : list fillText;
  held : list codeUnit;
  reached : Z;
  broke : bool;
}.

(** [for (let n = 0; n < chars.length; n++)] from index [n] on, the
    characters still to come being [chars]. *)
Fixpoint wrapChars (chars : list codeUnit) (n : nat) (line : list codeUnit)
    (y : Z) : wrapped :=
  match chars with
  | [] => mkWrapped [] line y false
  | c :: rest =>
      let testLine := line ++ [c] in
      if tooWide testLine && (0 <? n)%nat then
        let y' := y + lineHeight in
        if bottom <? y' then mkWrapped [bodyLine line y] [c] y' true
        else
          let w := wrapChars rest (S n) [c] y' in
          mkWrapped (bodyLine line y :: drawn w) (held w) (reached w) (broke w)
      else wrapChars rest (S n) testLine y
  end.

(** [paragraphLoop: for (let p = 0; p < paragraphs.length; p++)]: the body
    lines drawn from [y] on. *)
Fixpoint layoutParagraphs (paragraphs : list (list codeUnit)) (y : Z)
    : list fillText :=
  match paragraphs with
  | [] => []
  | para :: more =>
      let w := wrapChars para 0 [] y in
      if broke w then drawn w
      else
        let rest :=
          if reached w <=? bottom then [bodyLine (held w) (reached w)] else [] in
        let y' := reached w + lineHeight in
        if bottom <? y' then drawn w ++ rest
        else drawn w ++ rest ++ layoutParagraphs more y'
  end.

(** The calls of [fillText] that [drawTextOnTexture] makes, in order: the
    title, the body lines, the date.  [paragraphs] are the lines of the text
    the DOM extracts from the body HTML once [<br>] has become a line
    break. *)
Definition drawTextOnTexture (title : list codeUnit)
    (paragraphs : list (list codeUnit)) (date : list codeUnit) : list fillText :=
  [mkFillText titleFont "white" title centerX (80 * TEXT_SCALE)]
  ++ layoutParagraphs paragraphs bodyTop
  ++ [mkFillText bodyFont "#cccccc" date centerX
        ((220 + CONTENT_Y_OFFSET_PX) * TEXT_SCALE)].

End WithCanvas.

End CaptionText.

(** ** The proxy function: [netlify/functions/microcms.ts] *)

Module Proxy.

(** What [fetch(url, { headers })] followed by [response.text()] gives the
    handler: a response with its status, [ok] and body text, or an exception
    with its message. *)
Inductive upstream :=
| Answer (status : Z) (ok : bool) (text : string)
| Failure (message : string).

(** The body of the handler's response: the upstream text as it came, or
    the object handed to [JSON.stringify]. *)
Inductive body :=
| Verbatim (text : string)
| ErrorObject (error : string) (message : option string) (details : option string).

Record response := mkResponse {
  statusCode : Z;
  headers : list (string * string);
  responseBody : body;
}.

Definition corsHeaders : list (string * string) :=
  [ ("Content-Type", "application/json");
    ("Access-Control-Allow-Origin", "*");
    ("Access-Control-Allow-Methods", "GET, POST, OPTIONS");
    ("Access-Control-Allow-Headers", "Content-Type") ].

(** The url the handler fetches for a raw query. *)
Definition upstreamUrl (rawQuery : option string) : string :=
  let query := JS.str_or rawQuery "" in
  "https://liangworks.microcms.io/api/v1/taiwanphoto"
  +:+ (if String.eqb query "" then "" else "?" +:+ query).

(** [handler(event)]: [apiKey] is [process.env.VITE_MICROCMS_API_KEY],
    [rawQuery] is [event.rawQuery], and [fetch url key] is what the request
    to [url] with the header [X-MICROCMS-API-KEY: key] comes to. *)
Definition handler (apiKey : option string) (rawQuery : option string)
    (fetch : string → string → upstream) : response :=
  let key := JS.str_or apiKey "" in
  if String.eqb key "" then
    mkResponse 500 []
      (ErrorObject "VITE_MICROCMS_API_KEY is not configured"
                   (Some "API key not found in environment variables") None)
  else
    match fetch (upstreamUrl rawQuery) key with
    | Answer status ok text => mkResponse status corsHeaders (Verbatim text)
    | Failure message =>
        mkResponse 500 []
          (ErrorObject "Failed to fetch from MicroCMS" None (Some message))
    end.

(** The raw query of a request url: what follows the first [?], as the
    platform hands it to the function. *)
Definition questionMark : Ascii.ascii := Ascii.ascii_of_nat 63.

Fixpoint rawQueryOf (url : string) : option string :=
  match url with
  | EmptyString => None
  | String c rest =>
      if Ascii.eqb c questionMark then Some rest else rawQueryOf rest
  end.

End Proxy.

(** ** Images: [registerImage] *)

Module Images.

(** An image [registerImage] has subscribed to: the handle of its asset and
    whether the [load] and [error] listeners are still attached. *)
Record subscription := mkSubscription {
  done : Registry.handle;
  attached : bool;
}.

(** [registerImage(img, key)]: [src] is [img.src] at the time of the call. *)
Definition registerImage (src : string) (key : option string) (rnd : string)
    (now : Z) (r : Registry.t) : subscription * Registry.t :=
  let k := JS.str_or key (JS.str_or (Some src) ("img:" +:+ rnd)) in
  let '(h, r') := Registry.registerAsset (Some k) rnd now r in
  (mkSubscription h true, r').

(** The image fires [load] or [error]: [onLoad] and [onError] both run
    [done(); cleanup();], and [cleanup] removes both listeners. *)
Definition imageSettled (s : subscription) (now : Z) (r : Registry.t)
    : subscription * Registry.t :=
  if attached s
  then (mkSubscription (done s) false, Registry.invoke (done s) now r)
  else (s, r).

End Images.

(** * Properties *)

(** ** Vocabulary of the statements *)

Module Spec.

Import Work Scene Gallery Slide.

(** [round (100 * loaded / total)] over the rationals, ties going up; 0 when
    nothing is registered. *)
Definition exactPercent (loaded total : nat) : Z :=
  match total with
  | O => 0
  | _ => (200 * Z.of_nat loaded + Z.of_nat total) / (2 * Z.of_nat total)
  end.

(** [percent] agrees with [exactPercent] for every count up to [loaded] out
    of [total]. *)
Definition agreeUpTo (total : nat) : bool :=
  forallb (λ l, Registry.percent l total =? exactPercent l total) (seq 0 (S total)).

(** What may happen to the registry while a loading session is open: more
    registrations, and completions. The dismissal timeout is not among them:
    it ends the session. *)
Inductive sessionOp :=
| OpRegister (key : option string) (rnd : string) (now : Z)
| OpInvoke (h : Registry.handle) (now : Z).

Definition sessionStep (r : Registry.t) (o : sessionOp) : Registry.t :=
  match o with
  | OpRegister key rnd now => (Registry.registerAsset key rnd now r).2
  | OpInvoke h now => Registry.invoke h now r
  end.

Definition session (ops : list sessionOp) (r : Registry.t) : Registry.t :=
  foldl sessionStep r ops.

(** A photo dimension that is zero or missing. *)
Definition zeroOrMissing (d : option float) : Prop :=
  d = None ∨ d = Some 0%float.

(** The slots' bindings and the pagination state are the same in [a'] as in
    [a]. *)
Definition sameGallery (a' a : App) : Prop :=
  photoEntries a' = photoEntries a
  ∧ pageOffset a' = pageOffset a
  ∧ Gallery.totalCount a' = Gallery.totalCount a.

(** The resumption that binds a parsed page; every other one is a step of a
    fetch that has not succeeded (yet). *)
Definition parsed (ev : settle) : bool :=
  match ev with
  | BodySettled (Json _) => true
  | _ => false
  end.

(** Two states differ at most in their slots. *)
Definition sameButEntries (a b : App) : Prop :=
  sceneDisposed a = sceneDisposed b
  ∧ pageOffset a = pageOffset b
  ∧ Gallery.totalCount a = Gallery.totalCount b
  ∧ registry a = registry b
  ∧ pendingTextures a = pendingTextures b
  ∧ draws a = draws b
  ∧ created a = created b.

(** The work of a call has begun. *)
Definition started (c : call) : Prop := phase_of c ≠ Queued.

(** The work of a call is under way: animating out, loading or animating
    in. *)
Definition inFlight (c : call) : Prop :=
  phase_of c ≠ Queued ∧ phase_of c ≠ Resolved.

(** How a fetch comes out, from the request to the parsed body. *)
Inductive outcome :=
| FetchAborted
| FetchNetworkError
| FetchNotOk
| FetchBody (b : body_result).

(** The outcomes that are failures of the fetch. *)
Definition failed (o : outcome) : bool :=
  match o with
  | FetchBody (Json _) => false
  | _ => true
  end.

(** The resumptions that deliver an outcome to a suspended [loadPhotos]. *)
Definition resumptions (o : outcome) : list settle :=
  match o with
  | FetchAborted => [FetchSettled Aborted]
  | FetchNetworkError => [FetchSettled NetworkError]
  | FetchNotOk => [FetchSettled (Response false); TextSettled]
  | FetchBody b => [FetchSettled (Response true); BodySettled b]
  end.

(** The same, as events for the [loadPhotos] of call [k]. *)
Definition deliver (k : nat) (o : outcome) : list event :=
  map (Settle (SlideOf k)) (resumptions o).

Section WithEnvironment.

Variable Math_random : nat → string.
Variable formatDate : string → string.

(** A suspended [loadPhotos] taken through a list of resumptions, with
    nothing else happening in between. *)
Fixpoint settleAll (l : option loader) (evs : list settle) (now : Z) (a : App)
    : option (option loader * App) :=
  match evs with
  | [] => Some (l, a)
  | ev :: evs =>
      l0 ← l;
      '(l', a') ← loadPhotos_resume Math_random formatDate l0 ev now a;
      settleAll l' evs now a'
  end.

End WithEnvironment.

(** *** The promise chain *)

(** The part of the state the [slideQueue] chain lives in. *)
Definition queueView (s : State) : list promise * nat * list call * list nat :=
  (promises s, slideQueue s, calls s, jobs s).

(** A phase in which the work of a call is under way. *)
Definition active (ph : phase) : Prop := ph ≠ Queued ∧ ph ≠ Resolved.

(** The chain with its first [n] calls resolved.  Promise 0 is the initial
    [Promise.resolve()]; promise [k + 1] is the one [then] returned for call
    [k], on which call [k + 1] waits. *)
Definition chained (n : nat) (s : State) : Prop :=
  length (promises s) = S (length (calls s))
  ∧ slideQueue s = length (calls s)
  ∧ (n ≤ length (calls s))%nat
  ∧ (∀ k c, calls s !! k = Some c → promise_of c = S k)
  ∧ (∀ k c, calls s !! k = Some c → (k < n)%nat → phase_of c = Resolved)
  ∧ (∀ k c, calls s !! k = Some c → (n < k)%nat → phase_of c = Queued)
  ∧ (∀ j, (j ≤ n)%nat → promises s !! j = Some Fulfilled)
  ∧ (∀ j, (n < j < length (calls s))%nat → promises s !! j = Some (Pending [j]))
  ∧ ((n < length (calls s))%nat →
     promises s !! length (calls s) = Some (Pending [])).

(** The call at the front of the chain: it is waiting for its job to run, or
    under way with no job pending. *)
Definition front (n : nat) (s : State) : Prop :=
  match calls s !! n with
  | None => jobs s = []
  | Some c =>
      match phase_of c with
      | Queued => jobs s = [n]
      | Resolved => False
      | _ => jobs s = []
      end
  end.

Definition wellQueued (s : State) : Prop := ∃ n, chained n s ∧ front n s.

(** What the front call can do: go on in an active phase, or resolve. *)
Definition advances (k : nat) (s s' : State) : Prop :=
  ∃ s1, queueView s1 = queueView s
        ∧ (s' = resolve k s1 ∨ ∃ ph, active ph ∧ s' = set_phase k ph s1).

(** Every later call whose work has begun finds every earlier call
    resolved. *)
Definition serialized (s : State) : Prop :=
  ∀ i j ci cj,
    (i < j)%nat → calls s !! i = Some ci → calls s !! j = Some cj →
    started cj → phase_of ci = Resolved.

(** At most one call is in flight. *)
Definition singleFlight (s : State) : Prop :=
  ∀ i j ci cj,
    calls s !! i = Some ci → calls s !! j = Some cj →
    inFlight ci → inFlight cj → i = j.

(** Call [k] has resolved and has handed over: the next call, if one was
    made, is waiting with its job at the head of the microtask queue. *)
Definition settled (k : nat) (s : State) : Prop :=
  (∃ c, calls s !! k = Some c ∧ phase_of c = Resolved)
  ∧ (∀ c, calls s !! S k = Some c → phase_of c = Queued ∧ jobs s = [S k]).

(** *** Offsets *)

Definition multipleOf3 (z : Z) : Prop := (3 | z).

(** The offset a loader carries. *)
Definition offsetOf (l : loader) : option Z :=
  match l with
  | AwaitFetch offset _ | AwaitJson offset _ => Some offset
  | AwaitText _ => None
  end.

Definition alignedLoader (l : loader) : Prop :=
  ∀ offset, offsetOf l = Some offset → multipleOf3 offset.

(** What neither binding nor hiding a slot changes. *)
Definition pageView (a : App) : bool * Z * Z :=
  (sceneDisposed a, pageOffset a, Gallery.totalCount a).

(** The stored offset, every requested offset and the offset of every call
    of [loadPhotos] still suspended are multiples of 3; the scene is up. *)
Definition pageAligned (s : State) : Prop :=
  multipleOf3 (pageOffset (app s))
  ∧ Forall multipleOf3 (requested s)
  ∧ (∀ l, initialLoad s = Some l → alignedLoader l)
  ∧ (∀ k c l, calls s !! k = Some c → phase_of c = Loading l → alignedLoader l)
  ∧ sceneDisposed (app s) = false.

End Spec.

(** ** Vocabulary of the amended claims *)

Module Session.

Import Registry Spec.

(** The number of assets and the keys of the loading session that is open
    in [r]: none when no overlay is shown, since the next registration
    starts a session afresh. *)
Definition sessionCount (r : Registry.t) : nat :=
  if bool_decide (is_Some (loadingOverlay r)) then totalAssets r else 0%nat.

Definition sessionKeys (r : Registry.t) : gset string :=
  if bool_decide (is_Some (loadingOverlay r)) then registeredAssetKeys r else ∅.


End Session.

Module Range.

Import Work Scene Gallery Slide Spec.

(** A total count the content API may report for the integers of the state
    machine to stand for the numbers of the program: an integer from 0 to
    2^52. *)
Definition countWithin (n : Z) : Prop := 0 ≤ n ≤ 2 ^ 52.

(** The offsets that arise from such counts: -3 (the backward arrow on an
    empty collection) up to 2^52. *)
Definition offsetWithin (o : Z) : Prop := -3 ≤ o ≤ 2 ^ 52.

(** The event delivers no page, or a page whose total count is within
    range ([data.totalCount || 0]). *)
Definition deliversWithin (e : event) : Prop :=
  match e with
  | Settle _ (BodySettled (Json data)) =>
      countWithin (default 0 (Work.totalCount data))
  | _ => True
  end.

Definition loaderWithin (l : loader) : Prop :=
  ∀ offset, offsetOf l = Some offset → offsetWithin offset.

(** The stored offset and count, every requested offset and the offset of
    every call of [loadPhotos] still suspended are within range. *)
Definition pageWithin (s : State) : Prop :=
  offsetWithin (pageOffset (app s))
  ∧ countWithin (Gallery.totalCount (app s))
  ∧ Forall offsetWithin (requested s)
  ∧ (∀ l, initialLoad s = Some l → loaderWithin l)
  ∧ (∀ k c l, calls s !! k = Some c → phase_of c = Loading l → loaderWithin l).

End Range.

(** ** Sample data *)

Module Samples.

Import Work Scene Gallery Slide Spec.

Definition random (n : nat) : string := "k" +:+ pretty n.

Definition plainDate (s : string) : string := s.

Definition apiKey : option string := Some "secret".

(** A 200 x 100 photo, a 100 x 200 photo, one that lacks its width, one that
    lacks both dimensions, and an item without a photo. *)
Definition landscape : WorkItem :=
  mkWork "w1" (Some "Taipei") (Some "night<br>market") (Some "2024-05-01")
         (Some (mkImage "https://img/1.jpg" (Some 100%float) (Some 200%float))).

Definition portrait : WorkItem :=
  mkWork "w2" (Some "Tainan") None None
         (Some (mkImage "https://img/2.jpg" (Some 200%float) (Some 100%float))).

Definition widthless : WorkItem :=
  mkWork "w3" None None None
         (Some (mkImage "https://img/3.jpg" (Some 2%float) None)).

Definition sizeless : WorkItem :=
  mkWork "w4" None None None (Some (mkImage "https://img/4.jpg" None (Some 0%float))).

Definition photoless : WorkItem :=
  mkWork "w5" (Some "Hualien") None None None.

Definition firstPage : MicroCMSResponse :=
  mkResponse (Some [Some landscape; Some portrait; Some sizeless]) (Some 7).

Definition lastPage : MicroCMSResponse :=
  mkResponse (Some [Some widthless]) (Some 7).

(** The state at mount time, on the production endpoint. *)
Definition mounted : State := boot random apiKey false Registry.empty 0.

(** The initial load succeeds with the first page of seven items. *)
Definition initialLoadDone : list event :=
  [ Settle InitialLoad (FetchSettled (Response true));
    Settle InitialLoad (BodySettled (Json firstPage)) ].

(** Then the forward arrow and the backward arrow are hit in a row, and the
    first transition starts. *)
Definition twoClicks : list event :=
  initialLoadDone ++ [PointerDown Forward; PointerDown Backward; Job].

(** The twelve animations out end and the fetch of the next page is under
    way. *)
Definition midFetch : list event :=
  twoClicks ++ replicate 12 (AnimationEnd 0 0).

(** The bound gallery the samples start from. *)
Definition bound : App :=
  from_option app (app mounted) (run random plainDate apiKey false initialLoadDone mounted).

(** The state the program is in after the events [es], from mount on. *)
Definition reached (es : list event) : State :=
  from_option (λ s, s) mounted (run random plainDate apiKey false es mounted).

(** The call of the forward arrow while it waits for the page at offset 3. *)
Definition forwardCall : call :=
  mkCall Forward
    (Loading (AwaitFetch 3 (Registry.Done "/.netlify/functions/microcms?limit=3&offset=3")))
    1.


End Samples.

(** ** Vocabulary of the carousel, the registry, the slots and the caption *)

Module Carousel.

Import Slide.

(** The start of a page of a collection of [totalCount] items. *)
Definition pageStart (totalCount p : Z) : Prop :=
  0 ≤ p < totalCount ∧ (3 | p).

Definition opposite (d : direction) : direction :=
  match d with Forward => Backward | Backward => Forward end.

(** The number of pages of a collection of [totalCount] items. *)
Definition pagesOf (totalCount : Z) : Z := (totalCount - 1) / 3 + 1.

(** The offset after [n] transitions forward from [p]. *)
Definition forwardClicks (n : nat) (totalCount : Z) (p : Z) : Z :=
  Nat.iter n (λ p, nextOffset p totalCount Forward) p.

(** The directions of the pointer-downs among the events, in order. *)
Definition clicks (es : list event) : list direction :=
  omap (λ e, match e with PointerDown d => Some d | _ => None end) es.

End Carousel.

Module RegistryLog.

Import Registry.

(** What can happen to the registry: a registration, the call of a
    completion handle, a dismissal timeout firing. *)
Inductive registryOp :=
| Register (key : option string) (rnd : string) (now : Z)
| Complete (h : handle) (now : Z)
| TimeoutFires (i : nat) (now : Z).

Definition registryStep (o : registryOp) (r : Registry.t) : option Registry.t :=
  match o with
  | Register key rnd now => Some (registerAsset key rnd now r).2
  | Complete h now => Some (invoke h now r)
  | TimeoutFires i now => fireTimer i now r
  end.

Fixpoint registryRun (ops : list registryOp) (r : Registry.t) : option Registry.t :=
  match ops with
  | [] => Some r
  | o :: ops => r' ← registryStep o r; registryRun ops r'
  end.

(** [totalAssets] is the number of registered keys. *)
Definition counted (r : Registry.t) : Prop :=
  totalAssets r = size (registeredAssetKeys r).

(** The image fires [load] or [error] at each of the [times], in order. *)
Definition imageEvents (times : list Z) (s : Images.subscription) (r : Registry.t)
    : Images.subscription * Registry.t :=
  foldl (λ sr t, Images.imageSettled sr.1 t sr.2) (s, r) times.

End RegistryLog.

Module Slots.

Import Work Scene Gallery Slide.

(** The entry [hideEntry] leaves in a slot: the same entities, disabled. *)
Definition hidden (e : PhotoEntry) : PhotoEntry :=
  mkEntry (serial e) (setEnabled false (photoPlane e)) (mat e)
          (setEnabled false (whiteFramePlane e))
          (setEnabled false (blackFramePlane e))
          (setEnabled false (textPlane e))
          (textTexture e) (originalZ e).

(** What slot [i] holds once a page has been bound, given the item of the
    page for that slot and what the slot held before: a newly built entry
    for the item, or the old entry hidden. *)
Definition slotAfterPage (formatDate : string → string)
    (item : option WorkItem) (i : nat) (old new : option PhotoEntry) : Prop :=
  match item with
  | Some work =>
      ∃ img serial,
        photo work = Some img
        ∧ new = Some (buildEntry formatDate work img i serial)
  | None => new = hidden <$> old
  end.

(** Every animation of a list has ended, in the order given. *)
Definition applyEnds (anims : list animation) (a : App) : App :=
  foldl (λ a an, animationEnd an a) a anims.

(** An entry with its four planes at the depths [zs]. *)
Definition settledEntry (zs : part → float) (e : PhotoEntry) : PhotoEntry :=
  setPartZ TextPlane (zs TextPlane)
    (setPartZ BlackFramePlane (zs BlackFramePlane)
       (setPartZ WhiteFramePlane (zs WhiteFramePlane)
          (setPartZ PhotoPlane (zs PhotoPlane) e))).

(** A slot once the animations of a pass have ended: an enabled entry has
    moved, anything else is as it was. *)
Definition settledSlot (depths : nat → PhotoEntry → part → float) (i : nat)
    (oe : option PhotoEntry) : option PhotoEntry :=
  match oe with
  | Some e =>
      if enabled (photoPlane e) then Some (settledEntry (depths i e) e)
      else Some e
  | None => None
  end.

(** The animations a pass starts for one slot. *)
Definition slotAnimations (depths : nat → PhotoEntry → part → float) (i : nat)
    (oe : option PhotoEntry) : list animation :=
  match oe with
  | Some e =>
      if enabled (photoPlane e) then animateEntry i e (depths i e) else []
  | None => []
  end.

(** [e && e.photoPlane.isEnabled()]. *)
Definition isEnabled (oe : option PhotoEntry) : bool :=
  match oe with
  | Some e => enabled (photoPlane e)
  | None => false
  end.

(** The number of enabled entries. *)
Definition enabledCount (es : list (option PhotoEntry)) : nat :=
  length (List.filter isEnabled es).

(** The gallery once the animations out have ended, and once the animations
    in that follow have ended too. *)
Definition movedOut (a : App) : App := applyEnds (animations outDepths a) a.

Definition movedIn (a : App) : App := applyEnds (animations inDepths a) a.

End Slots.

Module Idle.

Import Work Scene Gallery Slide.

(** A call that is not under way: still queued, or resolved. *)
Definition atRest (c : call) : Prop :=
  phase_of c = Queued ∨ phase_of c = Resolved.

(** The program when nothing was ever loaded: three empty slots, offset and
    total count 0, no load suspended, no texture pending, no call under
    way, and the assets of the registry [r0] it started with. *)
Definition neverLoaded (r0 : Registry.t) (s : State) : Prop :=
  photoEntries (app s) = [None; None; None]
  ∧ pageOffset (app s) = 0
  ∧ Gallery.totalCount (app s) = 0
  ∧ pendingTextures (app s) = []
  ∧ initialLoad s = None
  ∧ Forall atRest (calls s)
  ∧ Forall (λ offset, offset = 0 ∨ offset = -3) (requested s)
  ∧ Registry.totalAssets (registry (app s)) = Registry.totalAssets r0
  ∧ Registry.loadedAssets (registry (app s)) = Registry.loadedAssets r0
  ∧ Registry.registeredAssetKeys (registry (app s)) = Registry.registeredAssetKeys r0.

End Idle.

Module CaptionLayout.

Import CaptionText.

Section WithCanvas.

Variable codeUnit : Type.
Variable measureText : list codeUnit → float.

(** The [k]-th of some lines is [k] line heights below [y0], not below the
    bottom, and centered. *)
Definition stacked (y0 : Z) (ds : list (fillText codeUnit)) : Prop :=
  ∀ k d, ds !! k = Some d →
         y codeUnit d = y0 + lineHeight * Z.of_nat k
         ∧ y codeUnit d ≤ bottom
         ∧ x codeUnit d = centerX.

(** A line the wrapping may hold or draw: at most one code unit, or not
    wider than [maxLineWidth]. *)
Definition fits (line : list codeUnit) : Prop :=
  (length line ≤ 1)%nat ∨ tooWide codeUnit measureText line = false.

(** The lines [ls] are those of the paragraph [para]: at least one line,
    and the lines put end to end are the paragraph. *)
Definition linesOf (para : list codeUnit) (ls : list (fillText codeUnit)) : Prop :=
  ls ≠ [] ∧ concat (text codeUnit <$> ls) = para.

(** The lines [ds] are the lines of the paragraphs, paragraph by
    paragraph. *)
Definition paragraphLines (paragraphs : list (list codeUnit))
    (ds : list (fillText codeUnit)) : Prop :=
  ∃ groups, ds = concat groups ∧ Forall2 linesOf paragraphs groups.

End WithCanvas.

End CaptionLayout.

Module Examples.

Import Work Scene Gallery Slide Samples RegistryLog.

(** One asset loads at time 50, a recompute at 400 schedules a second
    dismissal, and the first dismissal fires at 520. *)
Definition dismissedOnce : list registryOp :=
  [ Register (Some "images/a.jpg") "x" 0;
    Complete (Registry.Done "images/a.jpg") 50;
    Register (Some "images/a.jpg") "y" 400;
    TimeoutFires 0 520 ].

(** Two images, one of them registered twice, and an asset without a key. *)
Definition threeKeys : list registryOp :=
  [ Register (Some "images/a.jpg") "x" 0;
    Register (Some "images/b.jpg") "y" 1;
    Register (Some "images/a.jpg") "z" 2;
    Register None "r4nd0m" 3;
    Complete (Registry.Done "images/b.jpg") 4 ].

(** An upstream that answers every request with the url it was asked for. *)
Definition echo (url key : string) : Proxy.upstream := Proxy.Answer 200 true url.

(** A page whose second item has no photo. *)
Definition gappedPage : MicroCMSResponse :=
  mkResponse (Some [Some landscape; Some photoless; Some portrait]) (Some 7).

(** A canvas on which every code unit is 20 pixels wide, and a paragraph of
    a hundred times the same code unit. *)
Definition monospace (s : list N) : float := JS.num (20 * Z.of_nat (length s)).

Definition longParagraph : list N := replicate 100 26085%N.


(** The initial load is answered with a page that reports 10^17 items. *)
Definition hugeCount : list event :=
  [ Settle InitialLoad (FetchSettled (Response true));
    Settle InitialLoad
      (BodySettled (Json (mkResponse (Some [Some landscape]) (Some (10 ^ 17))))) ].

End Examples.

(** ** Binary64 arithmetic on integers

    The operations of the kernel's floats are specified by [SpecFloat]; on
    integers below 2^53 in magnitude they compute what the integers do. *)

Module Binary64Props.

Import Binary64 Slide.

(** *** Digits and shifts *)

Lemma digits2_size p : digits2_pos p = Pos.size p.
Proof. induction p; simpl; congruence. Qed.

(** [2^(d-1) <= p < 2^d] for [d] the number of digits of [p]. *)
Lemma digits2_bounds p :
  2 ^ (Z.pos (digits2_pos p) - 1) ≤ Z.pos p < 2 ^ Z.pos (digits2_pos p).
Proof.
  rewrite digits2_size. split.
  - pose proof (Pos.size_le p) as H.
    assert (Z.pos (2 ^ Pos.size p) ≤ Z.pos p~0) as H' by exact H.
    rewrite Pos2Z.inj_pow in H'.
    replace (Z.pos (Pos.size p)) with (Z.pos (Pos.size p) - 1 + 1) in H' by lia.
    rewrite Z.pow_add_r in H' by lia. lia.
  - pose proof (Pos.size_gt p) as H.
    assert (Z.pos p < Z.pos (2 ^ Pos.size p)) as H' by exact H.
    rewrite Pos2Z.inj_pow in H'. exact H'.
Qed.

(** The number of digits is determined by the bounds. *)
Lemma digits2_unique p d :
  2 ^ (d - 1) ≤ Z.pos p < 2 ^ d → Z.pos (digits2_pos p) = d.
Proof.
  intros [Hl Hu]. pose proof (digits2_bounds p) as [Hl' Hu'].
  assert (0 < d) as Hd.
  { destruct (Z.ltb_spec 0 d); [assumption |].
    assert (2 ^ d ≤ 2 ^ 0) by (destruct (Z.ltb_spec d 0);
      [rewrite Z.pow_neg_r by assumption; simpl; lia
      | apply Z.pow_le_mono_r; lia]).
    simpl in *. lia. }
  destruct (Z.lt_trichotomy (Z.pos (digits2_pos p)) d) as [H | [H | H]];
    [| assumption |].
  - assert (2 ^ Z.pos (digits2_pos p) ≤ 2 ^ (d - 1)) by (apply Z.pow_le_mono_r; lia).
    lia.
  - assert (2 ^ d ≤ 2 ^ (Z.pos (digits2_pos p) - 1)) by (apply Z.pow_le_mono_r; lia).
    lia.
Qed.

Lemma iter_xO m d : Z.pos (Pos.iter xO m d) = Z.pos m * 2 ^ Z.pos d.
Proof.
  induction d as [| d IH] using Pos.peano_ind.
  - simpl. lia.
  - rewrite Pos.iter_succ, Pos2Z.inj_succ, Z.pow_succ_r by lia.
    rewrite Pos2Z.inj_xO, IH. lia.
Qed.

Lemma iter_pos_iter {A} (f : A → A) p : ∀ x, SpecFloat.iter_pos f p x = Pos.iter f x p.
Proof.
  induction p as [p IH | p IH |]; intros x; simpl.
  - rewrite !IH. rewrite <- !Pos.iter_swap. reflexivity.
  - rewrite !IH. reflexivity.
  - reflexivity.
Qed.

(** Shifting right what was shifted left loses nothing. *)
Lemma shr_iter_xO d : ∀ m,
  SpecFloat.iter_pos shr_1 d (Build_shr_record (Z.pos (Pos.iter xO m d)) false false)
  = Build_shr_record (Z.pos m) false false.
Proof.
  intros m. rewrite iter_pos_iter. revert m.
  induction d as [| d IH] using Pos.peano_ind; intros m.
  - reflexivity.
  - rewrite (Pos.iter_succ d _ xO), (Pos.iter_succ d _ shr_1).
    rewrite <- Pos.iter_swap. simpl. apply IH.
Qed.

Lemma digits2_iter_xO m d :
  Z.pos (digits2_pos (Pos.iter xO m d)) = Z.pos (digits2_pos m) + Z.pos d.
Proof.
  apply digits2_unique. rewrite iter_xO.
  pose proof (digits2_bounds m) as [Hl Hu].
  replace (Z.pos (digits2_pos m) + Z.pos d - 1)
    with (Z.pos (digits2_pos m) - 1 + Z.pos d) by lia.
  rewrite !Z.pow_add_r by lia.
  assert (0 < 2 ^ Z.pos d) by (apply Z.pow_pos_nonneg; lia).
  split; nia.
Qed.

Lemma round_aux_canonical s w c :
  canonical w c →
  binary_round_aux 53 1024 s (Z.pos w) c loc_Exact = S754_finite s w c.
Proof.
  intros [Hc Hle]. unfold binary_round_aux, shr_fexp. simpl Zdigits2.
  rewrite Hc, Z.sub_diag. simpl. rewrite Hc, Z.sub_diag. simpl.
  replace (c <=? 1024 - 53) with true by (symmetry; apply Z.leb_le; lia).
  reflexivity.
Qed.

(** Rounding a datum with a longer mantissa: the shift right is exact. *)
Lemma round_aux_shifted s w c k :
  canonical w c →
  binary_round_aux 53 1024 s (Z.pos (Pos.iter xO w k)) (c - Z.pos k) loc_Exact
  = S754_finite s w c.
Proof.
  intros [Hc Hle]. unfold binary_round_aux, shr_fexp. simpl Zdigits2.
  rewrite digits2_iter_xO.
  replace (Z.pos (digits2_pos w) + Z.pos k + (c - Z.pos k))
    with (Z.pos (digits2_pos w) + c) by lia.
  rewrite Hc. replace (c - (c - Z.pos k)) with (Z.pos k) by lia.
  simpl shr. rewrite shr_iter_xO. simpl.
  replace (c - Z.pos k + Z.pos k) with c by lia.
  rewrite Hc, Z.sub_diag. simpl.
  replace (c <=? 1024 - 53) with true by (symmetry; apply Z.leb_le; lia).
  reflexivity.
Qed.

(** [binary_round] of any mantissa and exponent that stand for the value of
    a canonical datum gives that datum. *)
Lemma binary_round_exact s m e w c :
  canonical w c →
  (c ≤ e → Z.pos m * 2 ^ (e - c) = Z.pos w) →
  (e < c → Z.pos m = Z.pos w * 2 ^ (c - e)) →
  binary_round 53 1024 s m e = S754_finite s w c.
Proof.
  intros Hcan Hl Hr. pose proof Hcan as [Hc Hle]. unfold binary_round.
  destruct (Z.lt_trichotomy e c) as [H | [H | H]].
  - specialize (Hr H).
    destruct (c - e) as [| k | k] eqn:Ek; try lia.
    assert (m = Pos.iter xO w k) as -> by (apply Pos2Z.inj; rewrite iter_xO; exact Hr).
    rewrite digits2_iter_xO.
    replace (Z.pos (digits2_pos w) + Z.pos k + e)
      with (Z.pos (digits2_pos w) + c) by lia.
    rewrite Hc. unfold shl_align. rewrite Ek.
    replace e with (c - Z.pos k) by lia.
    apply round_aux_shifted, Hcan.
  - subst e. specialize (Hl ltac:(lia)). rewrite Z.sub_diag in Hl.
    assert (m = w) as -> by lia.
    rewrite Hc. unfold shl_align. rewrite Z.sub_diag.
    apply round_aux_canonical, Hcan.
  - specialize (Hl ltac:(lia)).
    destruct (e - c) as [| k | k] eqn:Ek; try lia.
    assert (w = Pos.iter xO m k) as Hw by (apply Pos2Z.inj; rewrite iter_xO; lia).
    assert (fexp 53 1024 (Z.pos (digits2_pos m) + e) = c) as ->.
    { rewrite <- Hc, Hw, digits2_iter_xO. f_equal. lia. }
    unfold shl_align. replace (c - e) with (Z.neg k) by lia.
    rewrite <- Hw. apply round_aux_canonical, Hcan.
Qed.

(** *** The datum of an integer *)

Lemma expo_nonpos p : Z.pos p < 2 ^ 53 → -52 ≤ expo p ≤ 0.
Proof.
  intros H. unfold expo. pose proof (digits2_bounds p) as [Hl Hu].
  assert (Z.pos (digits2_pos p) - 1 < 53).
  { apply (Z.pow_lt_mono_r_iff 2); lia. }
  lia.
Qed.

Lemma mant_spec p :
  Z.pos p < 2 ^ 53 → Z.pos (mant p) = Z.pos p * 2 ^ (- expo p).
Proof.
  intros H. unfold mant. pose proof (expo_nonpos p H).
  assert (0 < 2 ^ (- expo p)) by (apply Z.pow_pos_nonneg; lia).
  rewrite Z2Pos.id by nia. reflexivity.
Qed.

Lemma mant_digits p : Z.pos p < 2 ^ 53 → Z.pos (digits2_pos (mant p)) = 53.
Proof.
  intros H. apply digits2_unique. rewrite (mant_spec p H).
  pose proof (expo_nonpos p H) as He. pose proof (digits2_bounds p) as [Hl Hu].
  unfold expo in *.
  set (D := Z.pos (digits2_pos p)) in *.
  assert (2 ^ (53 - 1) = 2 ^ (D - 1) * 2 ^ (- (D - 53))) as E1.
  { rewrite <- Z.pow_add_r by lia. f_equal. lia. }
  assert (2 ^ 53 = 2 ^ D * 2 ^ (- (D - 53))) as E2.
  { rewrite <- Z.pow_add_r by lia. f_equal. lia. }
  assert (0 < 2 ^ (- (D - 53))) as Hp by (apply Z.pow_pos_nonneg; lia).
  rewrite E1, E2. clear E1 E2 H.
  split.
  - apply Z.mul_le_mono_nonneg_r; lia.
  - apply Z.mul_lt_mono_pos_r; lia.
Qed.

Lemma mant_canonical p : Z.pos p < 2 ^ 53 → canonical (mant p) (expo p).
Proof.
  intros H. pose proof (expo_nonpos p H). split; [| lia].
  rewrite (mant_digits p H). unfold fexp, SpecFloat.emin. lia.
Qed.

Lemma normalize_exact s p ez :
  Z.pos p < 2 ^ 53 → ez ≤ 0 →
  binary_normalize 53 1024 (signed s p * 2 ^ (- ez)) ez false
  = S754_finite s (mant p) (expo p).
Proof.
  intros H Hz. pose proof (expo_nonpos p H) as He.
  pose proof (mant_spec p H) as Hm.
  assert (0 < 2 ^ (- ez)) as Hpow by (apply Z.pow_pos_nonneg; lia).
  assert (∀ m, Z.pos m = Z.pos p * 2 ^ (- ez) →
               binary_round 53 1024 s m ez = S754_finite s (mant p) (expo p)) as Hr.
  { intros m Em. apply binary_round_exact.
    - apply mant_canonical, H.
    - intros Hle. rewrite Em, Hm, <- Z.mul_assoc, <- Z.pow_add_r by lia.
      do 2 f_equal. lia.
    - intros Hlt. rewrite Em, Hm, <- Z.mul_assoc, <- Z.pow_add_r by lia.
      do 2 f_equal. lia. }
  destruct s; simpl signed.
  - destruct (Z.neg p * 2 ^ (- ez)) as [| m | m] eqn:E; try nia.
    simpl. apply Hr. nia.
  - destruct (Z.pos p * 2 ^ (- ez)) as [| m | m] eqn:E; try nia.
    simpl. apply Hr. nia.
Qed.

(** The datum of a non-zero integer below 2^53 in magnitude: its sign, its
    mantissa shifted to 53 digits and the exponent that makes up for it. *)
Lemma datum_signed s p :
  Z.pos p < 2 ^ 53 → datum (signed s p) = S754_finite s (mant p) (expo p).
Proof.
  intros H. unfold datum.
  rewrite <- (normalize_exact s p 0 H ltac:(lia)). f_equal. simpl. lia.
Qed.

Lemma signed_cases v :
  v = 0 ∨ ∃ s p, v = signed s p.
Proof.
  destruct v as [| p | p]; [left; reflexivity | right; exists false, p
                           | right; exists true, p]; reflexivity.
Qed.

Lemma signed_exact s p : exact (signed s p) → Z.pos p < 2 ^ 53.
Proof. unfold exact. destruct s; simpl; lia. Qed.

Lemma datum_valid v : exact v → valid_binary (datum v) = true.
Proof.
  intros H. destruct (signed_cases v) as [-> | (s & p & ->)]; [reflexivity |].
  pose proof (signed_exact s p H) as Hp.
  rewrite (datum_signed s p Hp). simpl.
  destruct (mant_canonical p Hp) as [Hc Hle].
  unfold bounded, canonical_mantissa.
  change FloatOps.prec with 53. change FloatOps.emax with 1024.
  rewrite Hc, Z.eqb_refl. simpl. apply Z.leb_le. lia.
Qed.

Lemma Prim2SF_num v : exact v → Prim2SF (JS.num v) = datum v.
Proof. intros H. apply Prim2SF_SF2Prim, datum_valid, H. Qed.

(** *** Addition and subtraction *)

(** The mantissa of an integer, aligned to a smaller exponent. *)
Lemma aligned s p ez :
  Z.pos p < 2 ^ 53 → ez ≤ expo p →
  cond_Zopp s (Z.pos (shl_align (mant p) (expo p) ez).1) = signed s p * 2 ^ (- ez).
Proof.
  intros H Hz. pose proof (expo_nonpos p H) as He.
  pose proof (mant_spec p H) as Hm.
  assert (Z.pos (shl_align (mant p) (expo p) ez).1 = Z.pos p * 2 ^ (- ez)) as E.
  { unfold shl_align. destruct (ez - expo p) as [| d | d] eqn:Ed; try lia; simpl.
    - rewrite Hm. do 2 f_equal. lia.
    - rewrite iter_xO, Hm, <- Z.mul_assoc, <- Z.pow_add_r by lia.
      do 2 f_equal. lia. }
  rewrite E. destruct s; simpl; lia.
Qed.

Lemma normalize_integer v ez :
  exact v → ez ≤ 0 →
  binary_normalize 53 1024 (v * 2 ^ (- ez)) ez false = datum v.
Proof.
  intros H Hz. destruct (signed_cases v) as [-> | (s & p & ->)]; [reflexivity |].
  pose proof (signed_exact s p H) as Hp.
  rewrite (normalize_exact s p ez Hp Hz), (datum_signed s p Hp). reflexivity.
Qed.

Lemma SFadd_exact a b :
  exact a → exact b → exact (a + b) →
  SFadd 53 1024 (datum a) (datum b) = datum (a + b).
Proof.
  intros Ha Hb Hab.
  destruct (signed_cases a) as [-> | (sa & pa & ->)].
  { rewrite Z.add_0_l. change (datum 0) with (S754_zero false).
    destruct (signed_cases b) as [-> | (sb & pb & ->)]; [reflexivity |].
    rewrite (datum_signed sb pb (signed_exact _ _ Hb)). reflexivity. }
  destruct (signed_cases b) as [-> | (sb & pb & ->)].
  { rewrite Z.add_0_r. change (datum 0) with (S754_zero false).
    rewrite (datum_signed sa pa (signed_exact _ _ Ha)). reflexivity. }
  pose proof (signed_exact _ _ Ha) as Hpa. pose proof (signed_exact _ _ Hb) as Hpb.
  rewrite (datum_signed sa pa Hpa), (datum_signed sb pb Hpb). unfold SFadd.
  pose proof (expo_nonpos pa Hpa). pose proof (expo_nonpos pb Hpb).
  cbv zeta.
  rewrite (aligned sa pa (Z.min (expo pa) (expo pb)) Hpa ltac:(lia)),
    (aligned sb pb (Z.min (expo pa) (expo pb)) Hpb ltac:(lia)).
  rewrite <- Z.mul_add_distr_r.
  apply normalize_integer; [exact Hab | lia].
Qed.

Lemma SFsub_exact a b :
  exact a → exact b → exact (a - b) →
  SFsub 53 1024 (datum a) (datum b) = datum (a - b).
Proof.
  intros Ha Hb Hab.
  destruct (signed_cases b) as [-> | (sb & pb & ->)].
  { rewrite Z.sub_0_r. change (datum 0) with (S754_zero false).
    destruct (signed_cases a) as [-> | (sa & pa & ->)]; [reflexivity |].
    rewrite (datum_signed sa pa (signed_exact _ _ Ha)). reflexivity. }
  pose proof (signed_exact _ _ Hb) as Hpb.
  destruct (signed_cases a) as [-> | (sa & pa & ->)].
  { change (datum 0) with (S754_zero false). rewrite Z.sub_0_l.
    replace (- signed sb pb) with (signed (negb sb) pb) by (destruct sb; reflexivity).
    rewrite (datum_signed sb pb Hpb), (datum_signed (negb sb) pb Hpb). reflexivity. }
  pose proof (signed_exact _ _ Ha) as Hpa.
  rewrite (datum_signed sa pa Hpa), (datum_signed sb pb Hpb). unfold SFsub.
  pose proof (expo_nonpos pa Hpa). pose proof (expo_nonpos pb Hpb).
  cbv zeta.
  rewrite (aligned sa pa (Z.min (expo pa) (expo pb)) Hpa ltac:(lia)),
    (aligned sb pb (Z.min (expo pa) (expo pb)) Hpb ltac:(lia)).
  rewrite <- Z.mul_sub_distr_r.
  apply normalize_integer; [exact Hab | lia].
Qed.

(** Addition and subtraction of integers are exact while the operands and
    the result stay below 2^53 in magnitude. *)
Lemma add_exact a b :
  exact a → exact b → exact (a + b) → (JS.num a + JS.num b)%float = JS.num (a + b).
Proof.
  intros Ha Hb Hab. apply Prim2SF_inj.
  rewrite add_spec, !Prim2SF_num by assumption.
  apply SFadd_exact; assumption.
Qed.

Lemma sub_exact a b :
  exact a → exact b → exact (a - b) → (JS.num a - JS.num b)%float = JS.num (a - b).
Proof.
  intros Ha Hb Hab. apply Prim2SF_inj.
  rewrite sub_spec, !Prim2SF_num by assumption.
  apply SFsub_exact; assumption.
Qed.

(** *** Comparison *)

Lemma expo_lt pa pb :
  Z.pos pa < 2 ^ 53 → Z.pos pb < 2 ^ 53 → expo pa < expo pb → Z.pos pa < Z.pos pb.
Proof.
  intros Ha Hb H. unfold expo in H.
  pose proof (digits2_bounds pa) as [_ Hu]. pose proof (digits2_bounds pb) as [Hl _].
  assert (2 ^ Z.pos (digits2_pos pa) ≤ 2 ^ (Z.pos (digits2_pos pb) - 1))
    by (apply Z.pow_le_mono_r; lia).
  lia.
Qed.

Lemma mant_compare pa pb :
  Z.pos pa < 2 ^ 53 → Z.pos pb < 2 ^ 53 → expo pa = expo pb →
  (mant pa ?= mant pb)%positive = (pa ?= pb)%positive.
Proof.
  intros Ha Hb H.
  change ((Z.pos (mant pa) ?= Z.pos (mant pb)) = (Z.pos pa ?= Z.pos pb)).
  rewrite (mant_spec pa Ha), (mant_spec pb Hb), H.
  pose proof (expo_nonpos pb Hb).
  assert (0 < 2 ^ (- expo pb)) by (apply Z.pow_pos_nonneg; lia).
  destruct (Z.compare_spec (Z.pos pa) (Z.pos pb)) as [E | E | E].
  - rewrite E. apply Z.compare_refl.
  - apply Z.compare_lt_iff. nia.
  - apply Z.compare_gt_iff. nia.
Qed.

Lemma compare_pos pa pb :
  Z.pos pa < 2 ^ 53 → Z.pos pb < 2 ^ 53 →
  match expo pa ?= expo pb with
  | Lt => Lt
  | Gt => Gt
  | Eq => Pos.compare_cont Eq (mant pa) (mant pb)
  end = (pa ?= pb)%positive.
Proof.
  intros Ha Hb. destruct (Z.compare_spec (expo pa) (expo pb)) as [E | E | E].
  - apply mant_compare; assumption.
  - symmetry. apply Pos.compare_lt_iff.
    pose proof (expo_lt pa pb Ha Hb E). lia.
  - symmetry. apply Pos.compare_gt_iff.
    pose proof (expo_lt pb pa Hb Ha E). lia.
Qed.

(** Comparison of the data is comparison of the integers. *)
Lemma SFcompare_exact a b :
  exact a → exact b → SFcompare (datum a) (datum b) = Some (a ?= b).
Proof.
  intros Ha Hb.
  destruct (signed_cases a) as [-> | (sa & pa & ->)];
    destruct (signed_cases b) as [-> | (sb & pb & ->)];
    change (datum 0) with (S754_zero false);
    rewrite ?(datum_signed _ _ (signed_exact _ _ Ha)),
      ?(datum_signed _ _ (signed_exact _ _ Hb)).
  - reflexivity.
  - destruct sb; reflexivity.
  - destruct sa; reflexivity.
  - pose proof (signed_exact _ _ Ha) as Hpa. pose proof (signed_exact _ _ Hb) as Hpb.
    destruct sa, sb; simpl; try reflexivity.
    + f_equal.
      transitivity (CompOpp (pa ?= pb)%positive).
      * rewrite <- (compare_pos pa pb Hpa Hpb).
        destruct (expo pa ?= expo pb); reflexivity.
      * reflexivity.
    + f_equal. apply compare_pos; assumption.
Qed.

Lemma ltb_exact a b : exact a → exact b → (JS.num a <? JS.num b)%float = (a <? b).
Proof.
  intros Ha Hb. rewrite ltb_spec, !Prim2SF_num by assumption.
  unfold SFltb. rewrite (SFcompare_exact a b Ha Hb). unfold Z.ltb.
  destruct (a ?= b); reflexivity.
Qed.

Lemma leb_exact a b : exact a → exact b → (JS.num a <=? JS.num b)%float = (a <=? b).
Proof.
  intros Ha Hb. rewrite leb_spec, !Prim2SF_num by assumption.
  unfold SFleb. rewrite (SFcompare_exact a b Ha Hb). unfold Z.leb.
  destruct (a ?= b); reflexivity.
Qed.

(** *** Multiplication by 3 *)

Lemma datum_3 : datum 3 = S754_finite false 6755399441055744 (-51).
Proof. vm_compute. reflexivity. Qed.

Lemma round_aux_exact s m e w c :
  canonical w c → e < c → Z.pos m = Z.pos w * 2 ^ (c - e) →
  binary_round_aux 53 1024 s (Z.pos m) e loc_Exact = S754_finite s w c.
Proof.
  intros Hcan Hlt Hm.
  destruct (c - e) as [| k | k] eqn:Ek; try lia.
  assert (m = Pos.iter xO w k) as -> by (apply Pos2Z.inj; rewrite iter_xO; exact Hm).
  replace e with (c - Z.pos k) by lia.
  apply round_aux_shifted, Hcan.
Qed.

Lemma expo_le pa pb :
  Z.pos pa ≤ Z.pos pb → expo pa ≤ expo pb.
Proof.
  intros H. unfold expo.
  pose proof (digits2_bounds pa) as [Hl _]. pose proof (digits2_bounds pb) as [_ Hu].
  assert (Z.pos (digits2_pos pa) - 1 < Z.pos (digits2_pos pb))
    by (apply (Z.pow_lt_mono_r_iff 2); lia).
  lia.
Qed.

Lemma SFmul3_exact k :
  exact (3 * k) → SFmul 53 1024 (datum k) (datum 3) = datum (3 * k).
Proof.
  intros H. rewrite datum_3.
  destruct (signed_cases k) as [-> | (s & p & ->)]; [reflexivity |].
  replace (3 * signed s p) with (signed s (3 * p)) in * by (destruct s; reflexivity).
  pose proof (signed_exact _ _ H) as H3.
  assert (Z.pos p < 2 ^ 53) as Hp by lia.
  rewrite (datum_signed s p Hp), (datum_signed s (3 * p) H3).
  unfold SFmul. rewrite xorb_false_r.
  pose proof (expo_nonpos p Hp) as He. pose proof (expo_nonpos (3 * p) H3) as He3.
  pose proof (expo_le p (3 * p) ltac:(lia)) as Hle.
  apply round_aux_exact.
  - apply mant_canonical, H3.
  - lia.
  - rewrite Pos2Z.inj_mul, (mant_spec p Hp), (mant_spec (3 * p) H3).
    assert (2 ^ (- expo (3 * p)) * 2 ^ (expo (3 * p) - (expo p + -51))
            = 2 ^ (- expo p) * 2 ^ 51) as E.
    { rewrite <- !Z.pow_add_r by lia. f_equal. lia. }
    rewrite <- (Z.mul_assoc (Z.pos (3 * p)%positive)), E.
    change (Z.pos 6755399441055744) with (3 * 2 ^ 51).
    rewrite Pos2Z.inj_mul. lia.
Qed.

Lemma mul3_exact k : exact (3 * k) → (JS.num k * JS.num 3)%float = JS.num (3 * k).
Proof.
  intros H. assert (exact k) as Hk by (unfold exact in *; lia).
  assert (exact 3) as H3 by (unfold exact; lia).
  apply Prim2SF_inj.
  rewrite mul_spec, !Prim2SF_num by assumption.
  apply SFmul3_exact, H.
Qed.

(** *** Division by 3, rounded down *)

Lemma fexp_normal e : -1021 ≤ e → fexp 53 1024 e = e - 53.
Proof. intros H. unfold fexp, SpecFloat.emin. lia. Qed.

Lemma shr_fexp_53 p e l :
  2 ^ 52 ≤ Z.pos p < 2 ^ 53 → -1074 ≤ e →
  shr_fexp 53 1024 (Z.pos p) e l = (shr_record_of_loc (Z.pos p) l, e).
Proof.
  intros Hp He. unfold shr_fexp. simpl Zdigits2.
  rewrite (digits2_unique p 53) by exact Hp.
  rewrite fexp_normal by lia.
  replace (53 + e - 53 - e) with 0 by lia. reflexivity.
Qed.

Lemma shr_fexp_54 p e l :
  2 ^ 53 ≤ Z.pos p < 2 ^ 54 → -1075 ≤ e →
  shr_fexp 53 1024 (Z.pos p) e l = (shr_1 (shr_record_of_loc (Z.pos p) l), e + 1).
Proof.
  intros Hp He. unfold shr_fexp. simpl Zdigits2.
  rewrite (digits2_unique p 54) by exact Hp.
  rewrite fexp_normal by lia.
  replace (54 + e - 53 - e) with 1 by lia. reflexivity.
Qed.

Lemma finish_spec s p e :
  2 ^ 52 ≤ Z.pos p ≤ 2 ^ 53 → -1074 ≤ e ≤ 970 →
  ∃ M e2, finish s (Z.pos p) e = S754_finite s M e2
          ∧ e ≤ e2 ≤ e + 1
          ∧ Z.pos M * 2 ^ (e2 - e) = Z.pos p.
Proof.
  intros Hp He. unfold finish.
  destruct (Z.eq_dec (Z.pos p) (2 ^ 53)) as [E | E].
  - assert (p = 9007199254740992%positive) as -> by (apply Pos2Z.inj; exact E).
    rewrite shr_fexp_54 by lia.
    simpl.
    replace (e + 1 <=? 1024 - 53) with true by (symmetry; apply Z.leb_le; lia).
    exists 4503599627370496%positive, (e + 1). split; [reflexivity |].
    split; [lia |]. replace (e + 1 - e) with 1 by lia. reflexivity.
  - rewrite shr_fexp_53 by lia. simpl.
    replace (e <=? 1024 - 53) with true by (symmetry; apply Z.leb_le; lia).
    exists p, e. split; [reflexivity |]. split; [lia |].
    rewrite Z.sub_diag. simpl. lia.
Qed.

Lemma round_near m l : m ≤ round_nearest_even m l ≤ m + 1.
Proof.
  destruct l as [| []]; simpl; try lia. destruct (Z.even m); lia.
Qed.

Lemma shr_record_of_loc_m m l : shr_m (shr_record_of_loc m l) = m.
Proof. destruct l as [| []]; reflexivity. Qed.

Lemma shr_1_m p r s :
  shr_m (shr_1 (Build_shr_record (Z.pos p) r s)) = Z.pos p / 2.
Proof.
  destruct p as [p | p |]; simpl.
  - apply (Z.div_unique _ _ _ 1); lia.
  - apply (Z.div_unique _ _ _ 0); lia.
  - reflexivity.
Qed.

(** Rounding a mantissa of 53 or 54 digits: the result is within one unit
    of the last place kept. *)
Lemma round_aux_near s q e l :
  2 ^ 52 ≤ Z.pos q < 2 ^ 54 → -1074 ≤ e ≤ 968 →
  ∃ M e2, binary_round_aux 53 1024 s (Z.pos q) e l = S754_finite s M e2
          ∧ e ≤ e2 ≤ e + 2
          ∧ Z.pos q / 2 * 2 ≤ Z.pos M * 2 ^ (e2 - e) ≤ Z.pos q + 2.
Proof.
  intros Hq He.
  change (binary_round_aux 53 1024 s (Z.pos q) e l)
    with (let '(mrs', e') := shr_fexp 53 1024 (Z.pos q) e l in
          finish s (round_nearest_even (shr_m mrs') (loc_of_shr_record mrs')) e').
  pose proof (Z.div_mod (Z.pos q) 2 ltac:(lia)) as Hdm.
  pose proof (Z.mod_pos_bound (Z.pos q) 2 ltac:(lia)) as Hmb.
  destruct (Z.lt_ge_cases (Z.pos q) (2 ^ 53)) as [Hlt | Hge].
  - rewrite shr_fexp_53 by lia.
    rewrite shr_record_of_loc_m.
    pose proof (round_near (Z.pos q) (loc_of_shr_record (shr_record_of_loc (Z.pos q) l)))
      as Hr.
    destruct (round_nearest_even _ _) as [| p1 | p1]; try lia.
    destruct (finish_spec s p1 e ltac:(lia) ltac:(lia)) as (M & e2 & -> & He2 & Hv).
    exists M, e2. split; [reflexivity |]. split; [lia |]. rewrite Hv. lia.
  - rewrite shr_fexp_54 by lia.
    assert (shr_m (shr_1 (shr_record_of_loc (Z.pos q) l)) = Z.pos q / 2) as Hm.
    { destruct l as [| []]; apply shr_1_m. }
    rewrite Hm.
    pose proof (round_near (Z.pos q / 2)
                  (loc_of_shr_record (shr_1 (shr_record_of_loc (Z.pos q) l)))) as Hr.
    destruct (round_nearest_even _ _) as [| p1 | p1]; try lia.
    destruct (finish_spec s p1 (e + 1) ltac:(lia) ltac:(lia)) as (M & e2 & -> & He2 & Hv).
    exists M, e2. split; [reflexivity |]. split; [lia |].
    replace (e2 - e) with (e2 - (e + 1) + 1) by lia.
    rewrite Z.pow_add_r by lia. rewrite Z.mul_assoc, Hv. lia.
Qed.

(** The quotient of a positive integer below 2^52 by 3, as binary64 rounds
    it, has the integer quotient as its integer part. *)
Lemma SFdiv3_floor p :
  Z.pos p < 2 ^ 52 →
  ∃ M e2, SFdiv 53 1024 (datum (Z.pos p)) (datum 3) = S754_finite false M e2
          ∧ e2 < 0
          ∧ Z.pos M / 2 ^ (- e2) = Z.pos p / 3.
Proof.
  intros Hp. assert (Z.pos p < 2 ^ 53) as Hp' by lia.
  rewrite datum_3, (datum_signed false p Hp' : datum (Z.pos p) = _).
  pose proof (expo_nonpos p Hp') as He.
  assert (expo p ≤ -1) as He'.
  { unfold expo. pose proof (digits2_bounds p) as [Hl _].
    assert (Z.pos (digits2_pos p) - 1 < 52) by (apply (Z.pow_lt_mono_r_iff 2); lia).
    lia. }
  pose proof (mant_spec p Hp') as Hm.
  pose proof (mant_digits p Hp') as Hd.
  pose proof (digits2_bounds (mant p)) as Hb. rewrite Hd in Hb.
  unfold SFdiv, SFdiv_core_binary. cbv zeta.
  change (Zdigits2 (Z.pos (mant p))) with (Z.pos (digits2_pos (mant p))).
  rewrite Hd.
  change (Zdigits2 (Z.pos 6755399441055744)) with 53.
  replace (53 + expo p - (53 + -51)) with (expo p + 51) by lia.
  rewrite (fexp_normal (expo p + 51)) by lia.
  replace (Z.min (expo p + 51 - 53) (expo p - -51)) with (expo p - 2) by lia.
  replace (expo p - -51 - (expo p - 2)) with 53 by lia.
  rewrite Z.shiftl_mul_pow2 by lia.
  pose proof (Z_div_mod (Z.pos (mant p) * 2 ^ 53) (Z.pos 6755399441055744)
                ltac:(lia)) as Hdm.
  destruct (Z.div_eucl (Z.pos (mant p) * 2 ^ 53) (Z.pos 6755399441055744))
    as [q r].
  destruct Hdm as [Hq Hr].
  change (Z.pos 6755399441055744) with (3 * 2 ^ 51) in *.
  change (2 ^ 53) with (4 * 2 ^ 51) in Hq.
  assert (3 * q ≤ 4 * Z.pos (mant p) < 3 * q + 3) as Hq3 by lia.
  destruct q as [| q | q]; try lia.
  destruct (round_aux_near (xorb false false) q (expo p - 2)
              (new_location (3 * 2 ^ 51) r) ltac:(lia) ltac:(lia))
    as (M & e2 & -> & He2 & Hv).
  exists M, e2. split; [reflexivity |]. split; [lia |].
  (* the value *)
  set (A := 2 ^ (- expo p)) in *.
  assert (2 ≤ A) as HA.
  { subst A. change 2 with (2 ^ 1) at 1. apply Z.pow_le_mono_r; lia. }
  set (T := 2 ^ (e2 - (expo p - 2))) in *.
  assert (0 < T) as HT by (subst T; apply Z.pow_pos_nonneg; lia).
  assert (2 ^ (- e2) * T = 4 * A) as HN.
  { subst T A. rewrite <- Z.pow_add_r by lia.
    replace (- e2 + (e2 - (expo p - 2))) with (2 + - expo p) by lia.
    rewrite Z.pow_add_r by lia. reflexivity. }
  set (U := 2 ^ (- e2)) in *.
  assert (0 < U) as HU by (subst U; apply Z.pow_pos_nonneg; lia).
  pose proof (Z.div_mod (Z.pos p) 3 ltac:(lia)) as Hk.
  pose proof (Z.mod_pos_bound (Z.pos p) 3 ltac:(lia)) as Hf.
  set (k := Z.pos p / 3) in *. set (f := Z.pos p mod 3) in *.
  pose proof (Z.div_mod (Z.pos q) 2 ltac:(lia)) as Hq2.
  pose proof (Z.mod_pos_bound (Z.pos q) 2 ltac:(lia)) as Hq2b.
  set (h := Z.pos q / 2) in *.
  assert (Z.pos (mant p) = 3 * (k * A) + f * A) as Hm'.
  { rewrite Hm, Hk. ring. }
  assert (0 ≤ k) as Hk0 by (subst k; apply Z.div_pos; lia).
  assert (k * (4 * A) ≤ Z.pos M * T < (k + 1) * (4 * A)) as Hbound.
  { assert (0 ≤ k * A) by nia.
    assert (f * A ≤ 2 * A) by nia.
    assert (0 ≤ f * A) by nia.
    split.
    - (* q >= 4kA, which is even *)
      assert (4 * (k * A) ≤ Z.pos q) by lia.
      assert (2 * (k * A) ≤ h) by lia.
      lia.
    - lia. }
  symmetry. apply (Z.div_unique_pos _ _ _ (Z.pos M - k * U)).
  - rewrite <- HN in Hbound. split; [nia | nia].
  - ring.
Qed.

(** *** The next offset *)

(** [Math.floor(x / 3)] is the integer quotient. *)
Lemma floor_div3 x :
  -1 ≤ x < 2 ^ 52 → JS.Math_floor (JS.num x / JS.num 3) = JS.num (x / 3).
Proof.
  intros Hx.
  destruct (signed_cases x) as [-> | (s & p & ->)]; [vm_compute; reflexivity |].
  destruct s.
  - assert (p = 1%positive) as -> by (simpl in Hx; lia). vm_compute. reflexivity.
  - simpl signed in *.
    destruct (SFdiv3_floor p ltac:(lia)) as (M & e2 & Hd & He & Hv).
    unfold JS.Math_floor.
    rewrite div_spec, !Prim2SF_num by (unfold exact; lia).
    unfold SF64div. change prec with 53. change emax with 1024.
    rewrite Hd.
    replace (0 <=? e2) with false by (symmetry; apply Z.leb_gt; lia).
    rewrite Hv. reflexivity.
Qed.

Lemma step_number d : (JS.num 3 * JS.num (dirZ d))%float = JS.num (3 * dirZ d).
Proof. destruct d; vm_compute; reflexivity. Qed.

(** For an integer page offset of at most 2^52 in magnitude and an integer
    total count from 0 to 2^52, the offset the program computes in binary64
    is the number of the offset the integers give. *)
Lemma nextOffset64_exact pageOffset totalCount d :
  - 2 ^ 52 ≤ pageOffset ≤ 2 ^ 52 →
  0 ≤ totalCount ≤ 2 ^ 52 →
  nextOffset64 (JS.num pageOffset) (JS.num totalCount) d
  = JS.num (nextOffset pageOffset totalCount d).
Proof.
  intros Hp Ht. unfold nextOffset64, nextOffset. cbv zeta.
  assert (-3 ≤ 3 * dirZ d ≤ 3) as Hd by (destruct d; simpl; lia).
  rewrite step_number.
  rewrite add_exact by (unfold exact; lia).
  rewrite ltb_exact by (unfold exact; lia).
  destruct (pageOffset + 3 * dirZ d <? 0).
  - rewrite sub_exact by (unfold exact; lia).
    rewrite floor_div3 by lia.
    pose proof (Z.div_mod (totalCount - 1) 3 ltac:(lia)) as E.
    pose proof (Z.mod_pos_bound (totalCount - 1) 3 ltac:(lia)) as B.
    rewrite mul3_exact by (unfold exact; lia).
    f_equal. lia.
  - rewrite leb_exact by (unfold exact; lia).
    destruct (totalCount <=? pageOffset + 3 * dirZ d); reflexivity.
Qed.

(** The number of an integer below 2^53 in magnitude is that integer. *)
Lemma integer_num v : exact v → JS.integer (JS.num v) = Some v.
Proof.
  intros H. unfold JS.integer. rewrite (Prim2SF_num v H).
  destruct (signed_cases v) as [-> | (s & p & ->)]; [reflexivity |].
  pose proof (signed_exact s p H) as Hp.
  rewrite (datum_signed s p Hp). cbv zeta.
  pose proof (expo_nonpos p Hp) as He. pose proof (mant_spec p Hp) as Hm.
  assert ((if s then Z.neg (mant p) else Z.pos (mant p))
          = signed s p * 2 ^ (- expo p)) as ->.
  { destruct s; simpl; lia. }
  assert (0 < 2 ^ (- expo p)) as Hpow by (apply Z.pow_pos_nonneg; lia).
  destruct (Z.leb_spec 0 (expo p)).
  - replace (expo p) with 0 by lia. simpl. f_equal. lia.
  - rewrite Z_mod_mult. simpl. rewrite Z.div_mul by lia. reflexivity.
Qed.

Lemma nextOffset_exact_range pageOffset totalCount d :
  - 2 ^ 52 ≤ pageOffset ≤ 2 ^ 52 → 0 ≤ totalCount ≤ 2 ^ 52 →
  - 2 ^ 52 ≤ nextOffset pageOffset totalCount d ≤ 2 ^ 52 + 3.
Proof.
  intros Hp Ht. unfold nextOffset. cbv zeta.
  assert (-1 ≤ dirZ d ≤ 1) by (destruct d; simpl; lia).
  pose proof (Z.div_mod (totalCount - 1) 3 ltac:(lia)) as E.
  pose proof (Z.mod_pos_bound (totalCount - 1) 3 ltac:(lia)) as B.
  destruct (Z.ltb_spec (pageOffset + 3 * dirZ d) 0); [lia |].
  destruct (Z.leb_spec totalCount (pageOffset + 3 * dirZ d)); lia.
Qed.

(** The offset the program computes is an integer, the one of the integer
    computation. *)
Lemma nextOffset64_integer pageOffset totalCount d :
  - 2 ^ 52 ≤ pageOffset ≤ 2 ^ 52 → 0 ≤ totalCount ≤ 2 ^ 52 →
  JS.integer (nextOffset64 (JS.num pageOffset) (JS.num totalCount) d)
  = Some (nextOffset pageOffset totalCount d).
Proof.
  intros Hp Ht. rewrite nextOffset64_exact by assumption.
  apply integer_num.
  pose proof (nextOffset_exact_range pageOffset totalCount d Hp Ht).
  unfold Binary64.exact. lia.
Qed.

End Binary64Props.

(** ** C2: the next offset *)

Module NextOffsetProps.

Import Slide Binary64Props.

(** The three cases of the offset over the integers. *)
Lemma nextOffset_cases (pageOffset totalCount : Z) (d : direction) :
  let r := pageOffset + 3 * dirZ d in
  (r < 0 → nextOffset pageOffset totalCount d = (totalCount - 1) / 3 * 3)
  ∧ (0 ≤ r ∧ totalCount ≤ r → nextOffset pageOffset totalCount d = 0)
  ∧ (0 ≤ r < totalCount → nextOffset pageOffset totalCount d = r).
Proof.
  unfold nextOffset. cbv zeta.
  repeat split; intros H.
  - destruct (Z.ltb_spec (pageOffset + 3 * dirZ d) 0); [reflexivity | lia].
  - destruct (Z.ltb_spec (pageOffset + 3 * dirZ d) 0); [lia |].
    destruct (Z.leb_spec totalCount (pageOffset + 3 * dirZ d)); [reflexivity | lia].
  - destruct (Z.ltb_spec (pageOffset + 3 * dirZ d) 0); [lia |].
    destruct (Z.leb_spec totalCount (pageOffset + 3 * dirZ d)); [lia | reflexivity].
Qed.

(** The wrap below zero lands on the start of the last page when there is
    one. *)
Lemma nextOffset_backward_last_page (totalCount : Z) :
  0 < totalCount →
  let n := nextOffset 0 totalCount Backward in
  0 ≤ n < totalCount ∧ totalCount ≤ n + 3 ∧ (3 | n).
Proof.
  intros H. unfold nextOffset. simpl.
  pose proof (Z.div_mod (totalCount - 1) 3 ltac:(lia)) as E.
  pose proof (Z.mod_pos_bound (totalCount - 1) 3 ltac:(lia)) as B.
  repeat split; try lia.
  exists ((totalCount - 1) / 3). lia.
Qed.

(** C2, amended.  For an integer page offset of at most 2^52 in magnitude
    and an integer total count from 0 to 2^52, the offset a page transition
    computes (in binary64, as the program does) is
    [pageOffset + 3*direction]; a result below zero is replaced by
    [floor((totalCount-1)/3)*3] and a result at or above [totalCount]
    by 0.  With 7 items, going backward from 0 gives 6 and going forward
    from 6 gives 0. *)
Theorem nextOffset_wraps (pageOffset totalCount : Z) (d : direction) :
  - 2 ^ 52 ≤ pageOffset ≤ 2 ^ 52 →
  0 ≤ totalCount ≤ 2 ^ 52 →
  let r := pageOffset + 3 * dirZ d in
  let computed :=
    JS.integer (nextOffset64 (JS.num pageOffset) (JS.num totalCount) d) in
  JS.integer (JS.num pageOffset) = Some pageOffset
  ∧ JS.integer (JS.num totalCount) = Some totalCount
  ∧ (r < 0 → computed = Some ((totalCount - 1) / 3 * 3))
  ∧ (0 ≤ r ∧ totalCount ≤ r → computed = Some 0)
  ∧ (0 ≤ r < totalCount → computed = Some r)
  ∧ JS.integer (nextOffset64 (JS.num 0) (JS.num 7) Backward) = Some 6
  ∧ JS.integer (nextOffset64 (JS.num 6) (JS.num 7) Forward) = Some 0.
Proof.
  intros Hp Ht r computed. subst computed.
  rewrite (nextOffset64_integer pageOffset totalCount d Hp Ht).
  destruct (nextOffset_cases pageOffset totalCount d) as (H1 & H2 & H3).
  split_and!.
  - apply integer_num. unfold Binary64.exact. lia.
  - apply integer_num. unfold Binary64.exact. lia.
  - intros H. f_equal. apply H1, H.
  - intros H. f_equal. apply H2, H.
  - intros H. f_equal. apply H3, H.
  - vm_compute. reflexivity.
  - vm_compute. reflexivity.
Qed.

(** C2, as stated, fails: with 2^53 + 4 items, a number the program holds
    exactly, going backward from 0 gives 2^53 + 4, the total count itself,
    where [floor((totalCount-1)/3)*3] is 2^53 + 1. *)
Lemma nextOffset_wrap_not_floor :
  ¬ (∀ totalCount : Z,
       0 ≤ totalCount →
       JS.integer (JS.num totalCount) = Some totalCount →
       JS.integer (nextOffset64 (JS.num 0) (JS.num totalCount) Backward)
       = Some ((totalCount - 1) / 3 * 3)).
Proof.
  intros H. specialize (H (2 ^ 53 + 4) ltac:(lia)).
  assert (JS.integer (JS.num (2 ^ 53 + 4)) = Some (2 ^ 53 + 4)) as Hi
    by (vm_compute; reflexivity).
  specialize (H Hi). vm_compute in H. discriminate H.
Qed.

End NextOffsetProps.

(** ** C5, C6: the asset registry *)

Module RegistryProps.

Import Registry Spec Session.

Lemma createLoadingOverlay_shown now r :
  is_Some (loadingOverlay (createLoadingOverlay now r)).
Proof.
  unfold createLoadingOverlay.
  destruct (loadingOverlay r) eqn:E; simpl; [rewrite E |]; eauto.
Qed.

Lemma createLoadingOverlay_counters now r :
  totalAssets (createLoadingOverlay now r) = totalAssets r
  ∧ loadedAssets (createLoadingOverlay now r) = loadedAssets r
  ∧ registeredAssetKeys (createLoadingOverlay now r) = registeredAssetKeys r.
Proof.
  unfold createLoadingOverlay. destruct (loadingOverlay r); auto.
Qed.

Lemma updateLoadingOverlay_counters now r :
  totalAssets (updateLoadingOverlay now r) = totalAssets r
  ∧ loadedAssets (updateLoadingOverlay now r) = loadedAssets r
  ∧ registeredAssetKeys (updateLoadingOverlay now r) = registeredAssetKeys r.
Proof.
  unfold updateLoadingOverlay.
  destruct (loadingOverlay r); [destruct (watchdog now r) |]; auto.
Qed.

Lemma updateLoadingOverlay_shown now r :
  is_Some (loadingOverlay (updateLoadingOverlay now r)) ↔ is_Some (loadingOverlay r).
Proof.
  unfold updateLoadingOverlay.
  destruct (loadingOverlay r) eqn:E.
  - destruct (watchdog now r). simpl. split; eauto.
  - rewrite E. reflexivity.
Qed.

(** A registration leaves the overlay shown. *)
Lemma registerAsset_shown key rnd now r :
  is_Some (loadingOverlay (registerAsset key rnd now r).2).
Proof.
  unfold registerAsset. cbv zeta.
  case_bool_decide; simpl; apply updateLoadingOverlay_shown,
    createLoadingOverlay_shown.
Qed.

(** Within a session a registration keeps the keys that are known. *)
Lemma registerAsset_keys key rnd now r k :
  is_Some (loadingOverlay r) →
  k ∈ registeredAssetKeys r →
  k ∈ registeredAssetKeys (registerAsset key rnd now r).2.
Proof.
  intros Hs Hk. unfold registerAsset. cbv zeta.
  rewrite (bool_decide_eq_true_2 _ Hs). simpl.
  case_bool_decide; simpl;
    match goal with
    | |- k ∈ registeredAssetKeys (updateLoadingOverlay now (createLoadingOverlay now ?r2)) =>
        destruct (updateLoadingOverlay_counters now (createLoadingOverlay now r2))
          as (_ & _ & ->);
        destruct (createLoadingOverlay_counters now r2) as (_ & _ & ->)
    end.
  - exact Hk.
  - simpl. set_solver.
Qed.

Lemma invoke_shown h now r :
  is_Some (loadingOverlay (invoke h now r)) ↔ is_Some (loadingOverlay r).
Proof.
  destruct h; simpl; [reflexivity |].
  rewrite updateLoadingOverlay_shown. reflexivity.
Qed.

Lemma invoke_keys h now r :
  registeredAssetKeys (invoke h now r) = registeredAssetKeys r.
Proof.
  destruct h; simpl; [reflexivity |].
  destruct (updateLoadingOverlay_counters now
    (mk (totalAssets r) (S (loadedAssets r)) (loadingOverlay r)
        (loadingOverlayShownAt r) (registeredAssetKeys r)
        ({[k]} ∪ registeredAssetDone r) (S (loadedAssets r)) now (hideTimers r)))
    as (_ & _ & ->).
  reflexivity.
Qed.

(** While the session lasts the overlay stays and no key is forgotten. *)
Lemma session_keeps ops r k :
  is_Some (loadingOverlay r) →
  k ∈ registeredAssetKeys r →
  is_Some (loadingOverlay (session ops r))
  ∧ k ∈ registeredAssetKeys (session ops r).
Proof.
  unfold session. revert r.
  induction ops as [| o ops IH]; intros r Hs Hk; simpl; [auto |].
  apply IH; destruct o; simpl.
  - apply registerAsset_shown.
  - apply invoke_shown, Hs.
  - apply registerAsset_keys; assumption.
  - rewrite invoke_keys. exact Hk.
Qed.

(** A registration makes its key known. *)
Lemma registerAsset_registers key rnd now r :
  key ≠ "" →
  key ∈ registeredAssetKeys (registerAsset (Some key) rnd now r).2.
Proof.
  intros Hk. unfold registerAsset. cbv zeta.
  assert (JS.str_or (Some key) ("asset:" +:+ rnd) = key) as ->.
  { unfold JS.str_or. destruct (String.eqb_spec key ""); congruence. }
  case_bool_decide as Hin; simpl.
  - destruct (updateLoadingOverlay_counters now (createLoadingOverlay now
      (if negb (bool_decide (is_Some (loadingOverlay r)))
       then mk 0 0 (loadingOverlay r) (loadingOverlayShownAt r) ∅
              (registeredAssetDone r) (lastLoadedAssets r)
              (lastLoadedUpdateAt r) (hideTimers r)
       else r))) as (_ & _ & ->).
    destruct (createLoadingOverlay_counters now
      (if negb (bool_decide (is_Some (loadingOverlay r)))
       then mk 0 0 (loadingOverlay r) (loadingOverlayShownAt r) ∅
              (registeredAssetDone r) (lastLoadedAssets r)
              (lastLoadedUpdateAt r) (hideTimers r)
       else r)) as (_ & _ & ->).
    exact Hin.
  - match goal with
    | |- key ∈ registeredAssetKeys (updateLoadingOverlay now (createLoadingOverlay now ?r2)) =>
        destruct (updateLoadingOverlay_counters now (createLoadingOverlay now r2))
          as (_ & _ & ->);
        destruct (createLoadingOverlay_counters now r2) as (_ & _ & ->)
    end.
    simpl. set_solver.
Qed.

(** Registering a key that the open session knows: the inert handle, the
    counters as they were, the overlay shown. *)
Lemma registerAsset_duplicate key rnd now r :
  key ≠ "" →
  is_Some (loadingOverlay r) →
  key ∈ registeredAssetKeys r →
  (registerAsset (Some key) rnd now r).1 = Noop
  ∧ totalAssets (registerAsset (Some key) rnd now r).2 = totalAssets r
  ∧ loadedAssets (registerAsset (Some key) rnd now r).2 = loadedAssets r.
Proof.
  intros Hk Hs Hin. unfold registerAsset. cbv zeta.
  assert (JS.str_or (Some key) ("asset:" +:+ rnd) = key) as ->.
  { unfold JS.str_or. destruct (String.eqb_spec key ""); congruence. }
  rewrite (bool_decide_eq_true_2 _ Hs). simpl.
  rewrite (bool_decide_eq_true_2 _ Hin). simpl.
  destruct (updateLoadingOverlay_counters now (createLoadingOverlay now r))
    as (-> & -> & _).
  destruct (createLoadingOverlay_counters now r) as (-> & -> & _).
  auto.
Qed.

(** The first registration of a key in a session counts it, once. *)
Lemma registerAsset_first key rnd now r :
  key ≠ "" →
  key ∉ sessionKeys r →
  (registerAsset (Some key) rnd now r).1 = Done key
  ∧ totalAssets (registerAsset (Some key) rnd now r).2 = S (sessionCount r).
Proof.
  intros Hk Hn. unfold registerAsset, sessionKeys, sessionCount in *. cbv zeta.
  assert (JS.str_or (Some key) ("asset:" +:+ rnd) = key) as ->.
  { unfold JS.str_or. destruct (String.eqb_spec key ""); congruence. }
  destruct (bool_decide (is_Some (loadingOverlay r))); simpl.
  - rewrite (bool_decide_eq_false_2 _ Hn). simpl. split; [reflexivity |].
    match goal with
    | |- totalAssets (updateLoadingOverlay now (createLoadingOverlay now ?r2)) = _ =>
        destruct (updateLoadingOverlay_counters now (createLoadingOverlay now r2))
          as (-> & _ & _);
        destruct (createLoadingOverlay_counters now r2) as (-> & _ & _)
    end.
    reflexivity.
  - rewrite bool_decide_eq_false_2 by set_solver. simpl. split; [reflexivity |].
    match goal with
    | |- totalAssets (updateLoadingOverlay now (createLoadingOverlay now ?r2)) = _ =>
        destruct (updateLoadingOverlay_counters now (createLoadingOverlay now r2))
          as (-> & _ & _);
        destruct (createLoadingOverlay_counters now r2) as (-> & _ & _)
    end.
    reflexivity.
Qed.

(** C5. Within one loading session the first registration of a key that the
    session does not know returns a counting handle and raises
    [totalAssets] by one; whatever is registered or completed in between,
    the second registration of the key returns the inert handle and leaves
    [totalAssets] where it was, so that the two registrations together
    count the key once; calling the second handle does not change
    [loadedAssets]; and the overlay is shown after the registration. *)
Theorem registerAsset_same_key_twice
    (key rnd1 rnd2 : string) (t1 t2 t3 : Z) (between : list sessionOp)
    (r : Registry.t) :
  key ≠ "" →
  let first := registerAsset (Some key) rnd1 t1 r in
  let r1 := session between first.2 in
  let second := registerAsset (Some key) rnd2 t2 r1 in
  (key ∉ sessionKeys r →
   first.1 = Done key ∧ totalAssets first.2 = S (sessionCount r))
  ∧ second.1 = Noop
  ∧ totalAssets second.2 = totalAssets r1
  ∧ (between = [] → key ∉ sessionKeys r →
     totalAssets second.2 = S (sessionCount r))
  ∧ invoke second.1 t3 second.2 = second.2
  ∧ loadedAssets (invoke second.1 t3 second.2) = loadedAssets r1
  ∧ is_Some (loadingOverlay second.2).
Proof.
  intros Hk first r1 second.
  destruct (session_keeps between (registerAsset (Some key) rnd1 t1 r).2 key)
    as [Hs Hin].
  { apply registerAsset_shown. }
  { apply registerAsset_registers, Hk. }
  destruct (registerAsset_duplicate key rnd2 t2 r1 Hk Hs Hin) as (Hh & Ht & Hl).
  split; [intros Hn; apply registerAsset_first; assumption |].
  split; [exact Hh |]. split; [exact Ht |].
  split.
  { intros Hb Hn. transitivity (totalAssets r1); [exact Ht |].
    subst r1. rewrite Hb. simpl. apply registerAsset_first; assumption. }
  subst second. rewrite Hh. simpl.
  repeat split; try assumption.
  apply registerAsset_shown.
Qed.

(** The first of the two registrations counts the key once: by one if the
    session did not know it, not at all if it did. *)
Lemma registerAsset_counts_once key rnd now r :
  key ≠ "" →
  is_Some (loadingOverlay r) →
  totalAssets (registerAsset (Some key) rnd now r).2
  = if bool_decide (key ∈ registeredAssetKeys r)
    then totalAssets r else S (totalAssets r).
Proof.
  intros Hk Hs. unfold registerAsset. cbv zeta.
  assert (JS.str_or (Some key) ("asset:" +:+ rnd) = key) as ->.
  { unfold JS.str_or. destruct (String.eqb_spec key ""); congruence. }
  rewrite (bool_decide_eq_true_2 _ Hs). simpl.
  case_bool_decide; simpl.
  - destruct (updateLoadingOverlay_counters now (createLoadingOverlay now r))
      as (-> & _ & _).
    destruct (createLoadingOverlay_counters now r) as (-> & _ & _). reflexivity.
  - match goal with
    | |- totalAssets (updateLoadingOverlay now (createLoadingOverlay now ?r2)) = _ =>
        destruct (updateLoadingOverlay_counters now (createLoadingOverlay now r2))
          as (-> & _ & _);
        destruct (createLoadingOverlay_counters now r2) as (-> & _ & _)
    end.
    reflexivity.
Qed.

End RegistryProps.

Module OverlayProps.

Import Registry Spec Session.

(** The quotient is formed first and multiplied by 100 afterwards, both in
    binary64: 23/40 rounds to a float just below 0.575, the product to
    57.49999999999999, and [Math.round] gives 57 where the exact 57.5 rounds
    to 58. *)
Example percent_23_of_40 : percent 23 40 = 57 ∧ exactPercent 23 40 = 58.
Proof. split; vm_compute; reflexivity. Qed.


Lemma agree_below_40 : forallb agreeUpTo (seq 0 40) = true.
Proof. vm_compute. reflexivity. Qed.

(** Below 40 registered assets the two agree. *)
Lemma percent_exact_below_40 (loaded total : nat) :
  (total < 40)%nat → (loaded ≤ total)%nat →
  percent loaded total = exactPercent loaded total.
Proof.
  intros Ht Hl.
  pose proof agree_below_40 as H.
  rewrite forallb_forall in H.
  specialize (H total). 
  assert (In total (seq 0 40)) as Hin by (apply in_seq; lia).
  specialize (H Hin). unfold agreeUpTo in H.
  rewrite forallb_forall in H.
  specialize (H loaded).
  assert (In loaded (seq 0 (S total))) as Hin' by (apply in_seq; lia).
  apply Z.eqb_eq, H, Hin'.
Qed.






End OverlayProps.

(** ** C7, C8, C10: the slot manager *)

Module SlotProps.

Import Work Scene Gallery Spec.

Lemma array_get_set_eq {A} (a : list (option A)) i x :
  JS.array_get (JS.array_set a i x) i = x.
Proof.
  unfold JS.array_get, JS.array_set.
  destruct (Nat.ltb_spec i (length a)).
  - rewrite list_lookup_insert_eq by assumption. reflexivity.
  - rewrite lookup_app_r by assumption.
    rewrite lookup_app_r by (rewrite length_replicate; lia).
    rewrite length_replicate, Nat.sub_diag. reflexivity.
Qed.

Lemma array_get_set_ne {A} (a : list (option A)) i j x :
  i ≠ j → JS.array_get (JS.array_set a i x) j = JS.array_get a j.
Proof.
  intros Hne. unfold JS.array_get, JS.array_set.
  destruct (Nat.ltb_spec i (length a)).
  - rewrite list_lookup_insert_ne by assumption. reflexivity.
  - destruct (Nat.lt_ge_cases j (length a)).
    + rewrite lookup_app_l by assumption. reflexivity.
    + rewrite (lookup_ge_None_2 a j) by assumption.
      rewrite lookup_app_r by assumption.
      destruct (Nat.lt_ge_cases (j - length a) (i - length a)).
      * rewrite lookup_app_l by (rewrite length_replicate; assumption).
        rewrite lookup_replicate_2 by assumption. reflexivity.
      * rewrite lookup_app_r by (rewrite length_replicate; assumption).
        rewrite length_replicate.
        rewrite lookup_ge_None_2; [reflexivity | simpl; lia].
Qed.

Lemma array_set_in_range {A} (a : list (option A)) i x :
  (i < length a)%nat → JS.array_set a i x = <[i := x]> a.
Proof.
  intros H. unfold JS.array_set.
  destruct (Nat.ltb_spec i (length a)); [reflexivity | lia].
Qed.

Lemma array_get_Some_in_range {A} (a : list (option A)) i (x : A) :
  JS.array_get a i = Some x → (i < length a)%nat ∧ a !! i = Some (Some x).
Proof.
  unfold JS.array_get. intros H.
  destruct (a !! i) as [[y |] |] eqn:E; simpl in H; try discriminate.
  inversion H; subst. split; [eapply lookup_lt_Some, E | reflexivity].
Qed.

Lemma num_or_missing d : zeroOrMissing d → JS.num_or d 1%float = 1%float.
Proof. intros [-> | ->]; reflexivity. Qed.

Lemma num_or_idem d :
  JS.num_or (Some (JS.num_or d 1%float)) 1%float = JS.num_or d 1%float.
Proof.
  destruct d as [v |]; [| reflexivity]. simpl.
  destruct (JS.truthy v) eqn:E; [rewrite E |]; reflexivity.
Qed.

Section WithEnvironment.

Variable Math_random : nat → string.
Variable formatDate : string → string.

#[local] Abbreviation createOrUpdateEntry :=
  (createOrUpdateEntry Math_random formatDate).

(** The entries after [createOrUpdateEntry(work, index)], case by case. *)
Lemma createOrUpdateEntry_entries work index now a :
  photoEntries (createOrUpdateEntry work index now a).2
  = if sceneDisposed a then photoEntries a
    else
      let cleared :=
        match JS.array_get (photoEntries a) index with
        | Some _ => <[index := None]> (photoEntries a)
        | None => photoEntries a
        end in
      match photo work with
      | None => cleared
      | Some img =>
          JS.array_set cleared index
            (Some (buildEntry formatDate work img index (created a)))
      end.
Proof.
  unfold Gallery.createOrUpdateEntry.
  destruct (sceneDisposed a) eqn:Ed; [reflexivity |].
  destruct (JS.array_get (photoEntries a) index) as [old |] eqn:Eg; cbv zeta.
  - apply array_get_Some_in_range in Eg as [Hlt _].
    simpl. rewrite array_get_set_eq.
    rewrite array_set_in_range by assumption.
    destruct (photo work); [| reflexivity].
    destruct (Registry.registerTexture _ _ _ _ _). reflexivity.
  - rewrite Eg. destruct (photo work); [| reflexivity].
    destruct (Registry.registerTexture _ _ _ _ _). reflexivity.
Qed.

(** [createOrUpdateEntry] throws exactly on an item without a photo, on a
    scene that is not disposed. *)
Lemma createOrUpdateEntry_completion work index now a :
  (createOrUpdateEntry work index now a).1
  = if sceneDisposed a then Returned
    else match photo work with Some _ => Returned | None => Thrown end.
Proof.
  unfold Gallery.createOrUpdateEntry.
  destruct (sceneDisposed a) eqn:Ed; [reflexivity |].
  destruct (JS.array_get (photoEntries a) index) as [old |] eqn:Eg; cbv zeta.
  - simpl. rewrite array_get_set_eq.
    destruct (photo work); [| reflexivity].
    destruct (Registry.registerTexture _ _ _ _ _). reflexivity.
  - rewrite Eg. destruct (photo work); [| reflexivity].
    destruct (Registry.registerTexture _ _ _ _ _). reflexivity.
Qed.

Lemma hideEntry_entries index a :
  photoEntries (hideEntry index a)
  = match JS.array_get (photoEntries a) index with
    | Some e =>
        <[index := Some (mkEntry (serial e) (setEnabled false (photoPlane e))
                                 (mat e) (setEnabled false (whiteFramePlane e))
                                 (setEnabled false (blackFramePlane e))
                                 (setEnabled false (textPlane e))
                                 (textTexture e) (originalZ e))]> (photoEntries a)
    | None => photoEntries a
    end.
Proof.
  unfold hideEntry. destruct (JS.array_get (photoEntries a) index); reflexivity.
Qed.

(** One of the two dimensions of the plane is always 0.5: the width of a
    portrait photo, the height of any other. *)
Lemma planeSize_short_side work :
  let imgW := JS.num_or (photo work ≫= width) 1%float in
  let imgH := JS.num_or (photo work ≫= height) 1%float in
  if (imgW / imgH <? 1)%float
  then (planeSize work).1 = 0.5%float
       ∧ (planeSize work).2 = (1 / (imgW / imgH) * 0.5)%float
  else (planeSize work).1 = (1 * (imgW / imgH) * 0.5)%float
       ∧ (planeSize work).2 = 0.5%float.
Proof.
  cbv zeta. unfold planeSize.
  destruct (_ <? 1)%float; split; reflexivity.
Qed.

(** C7. The plane of a bound item: the code makes the shorter side the unit
    and halves both, so the shorter side is 0.5 and the longer side is 0.5
    times the ratio of the sides.  A 200 x 100 photo gets a 1 x 0.5 plane and
    a 100 x 200 photo a 0.5 x 1 plane: the larger dimension is 1, not 0.5. *)
Theorem planeSize_unit_is_shorter_side :
  planeSize Samples.landscape = (1%float, 0.5%float)
  ∧ planeSize Samples.portrait = (0.5%float, 1%float)
  ∧ ∀ work,
      (planeSize work).1 = 0.5%float ∨ (planeSize work).2 = 0.5%float.
Proof.
  split; [vm_compute; reflexivity |].
  split; [vm_compute; reflexivity |].
  intros work. pose proof (planeSize_short_side work) as H. cbv zeta in H.
  destruct (_ <? 1)%float; [left | right]; apply H.
Qed.

(** C8, as stated, fails: with the width missing and a height of 2 the
    aspect ratio is 1/2 and the plane is 0.5 wide and 1 high. *)
Lemma one_missing_dimension_not_square :
  ¬ (∀ work img,
       photo work = Some img →
       zeroOrMissing (width img) ∨ zeroOrMissing (height img) →
       (planeSize work).1 = (planeSize work).2).
Proof.
  intros H.
  specialize (H Samples.widthless _ eq_refl (or_introl (or_introl eq_refl))).
  vm_compute in H. discriminate H.
Qed.

(** C8, amended. For an item with a photo, [createOrUpdateEntry] never
    throws, whatever the dimensions are.  Each dimension that is zero or
    missing is read as 1 on its own: the plane is the one of the photo with
    that dimension set to 1.  When width and height are both zero or missing
    the aspect ratio is 1 and the photo plane is the square 0.5 x 0.5. *)
Theorem createOrUpdateEntry_missing_dimensions
    (work : WorkItem) (img : MicroCMSImage) (index : nat) (now : Z) (a : App) :
  photo work = Some img →
  (createOrUpdateEntry work index now a).1 = Returned
  ∧ planeSize work
    = planeSize
        (mkWork (id work) (title work) (body work) (shootingdate work)
           (Some (mkImage (url img)
                    (Some (JS.num_or (height img) 1%float))
                    (Some (JS.num_or (width img) 1%float)))))
  ∧ (zeroOrMissing (width img) → zeroOrMissing (height img) →
     planeSize work = (0.5%float, 0.5%float)
     ∧ (sceneDisposed a = false →
        ∃ e, JS.array_get (photoEntries (createOrUpdateEntry work index now a).2) index
             = Some e
             ∧ meshWidth (photoPlane e) = 0.5%float
             ∧ meshHeight (photoPlane e) = 0.5%float)).
Proof.
  intros Hp. split; [| split].
  - rewrite createOrUpdateEntry_completion, Hp.
    destruct (sceneDisposed a); reflexivity.
  - unfold planeSize. rewrite Hp.
    cbn [photo width height mbind option_bind].
    rewrite !num_or_idem. reflexivity.
  - intros Hw Hh.
    assert (planeSize work = (0.5%float, 0.5%float)) as Es.
    { unfold planeSize. rewrite Hp. simpl.
      rewrite (num_or_missing _ Hw), (num_or_missing _ Hh). reflexivity. }
    split; [exact Es |].
    intros Hd. rewrite createOrUpdateEntry_entries, Hd, Hp. cbv zeta.
    rewrite array_get_set_eq. eexists. split; [reflexivity |].
    unfold buildEntry. rewrite Es. split; reflexivity.
Qed.

(** C10. With [i] a slot of the array and [j] another index,
    [createOrUpdateEntry(work, i)] and [hideEntry(i)] leave [photoEntries[j]]
    and the length of the array as they were; neither depends on what the
    other slots hold; and [hideEntry] on an empty slot changes nothing. *)
Theorem slot_operations_are_local
    (work : WorkItem) (i j : nat) (now : Z) (a : App) :
  (i < length (photoEntries a))%nat →
  i ≠ j →
  let bound := createOrUpdateEntry work i now a in
  photoEntries bound.2 !! j = photoEntries a !! j
  ∧ length (photoEntries bound.2) = length (photoEntries a)
  ∧ photoEntries (hideEntry i a) !! j = photoEntries a !! j
  ∧ length (photoEntries (hideEntry i a)) = length (photoEntries a)
  ∧ (JS.array_get (photoEntries a) i = None → hideEntry i a = a)
  ∧ (∀ b, sameButEntries a b →
          JS.array_get (photoEntries a) i = JS.array_get (photoEntries b) i →
          let bound' := createOrUpdateEntry work i now b in
          bound.1 = bound'.1
          ∧ JS.array_get (photoEntries bound.2) i
            = JS.array_get (photoEntries bound'.2) i
          ∧ sameButEntries bound.2 bound'.2
          ∧ JS.array_get (photoEntries (hideEntry i a)) i
            = JS.array_get (photoEntries (hideEntry i b)) i
          ∧ sameButEntries (hideEntry i a) (hideEntry i b)).
Proof.
  intros Hi Hne bound.
  assert (∀ x, length (<[i := x]> (photoEntries a)) = length (photoEntries a))
    as Hlen by (intros; apply length_insert).
  split; [| split; [| split; [| split; [| split]]]].
  - subst bound. rewrite createOrUpdateEntry_entries.
    destruct (sceneDisposed a); [reflexivity |]. cbv zeta.
    destruct (JS.array_get (photoEntries a) i), (photo work);
      rewrite ?array_set_in_range by (rewrite ?Hlen; assumption);
      rewrite ?list_lookup_insert_ne by assumption; reflexivity.
  - subst bound. rewrite createOrUpdateEntry_entries.
    destruct (sceneDisposed a); [reflexivity |]. cbv zeta.
    destruct (JS.array_get (photoEntries a) i), (photo work);
      rewrite ?array_set_in_range by (rewrite ?Hlen; assumption);
      rewrite ?length_insert; reflexivity.
  - rewrite hideEntry_entries.
    destruct (JS.array_get (photoEntries a) i); [| reflexivity].
    apply list_lookup_insert_ne, Hne.
  - rewrite hideEntry_entries.
    destruct (JS.array_get (photoEntries a) i); [| reflexivity].
    apply length_insert.
  - intros Hnone. unfold hideEntry. rewrite Hnone. reflexivity.
  - intros b Hab Hslot bound'.
    destruct Hab as (Hd & Hpo & Htc & Hreg & Hpt & Hdr & Hcr).
    assert (bound.1 = bound'.1) as E1.
    { subst bound bound'. rewrite !createOrUpdateEntry_completion, Hd.
      reflexivity. }
    split; [exact E1 |].
    split.
    { subst bound bound'. rewrite !createOrUpdateEntry_entries, <- Hd, <- Hcr.
      destruct (sceneDisposed a); [exact Hslot |]. cbv zeta.
      rewrite <- Hslot.
      destruct (JS.array_get (photoEntries a) i) as [old |] eqn:Eg.
      - apply array_get_Some_in_range in Eg as [_ Eg].
        symmetry in Hslot.
        apply array_get_Some_in_range in Hslot as [Hib _].
        destruct (photo work).
        + rewrite !array_get_set_eq. reflexivity.
        + unfold JS.array_get.
          rewrite !list_lookup_insert_eq by assumption. reflexivity.
      - destruct (photo work).
        + rewrite !array_get_set_eq. reflexivity.
        + rewrite Eg. exact Hslot. }
    split.
    { subst bound bound'. unfold Gallery.createOrUpdateEntry.
      rewrite <- Hd. destruct (sceneDisposed a) eqn:Ed.
      { simpl. unfold sameButEntries. rewrite Ed. auto 10. }
      rewrite <- Hslot.
      destruct (JS.array_get (photoEntries a) i) as [old |] eqn:Eg; cbv zeta;
        simpl; rewrite ?array_get_set_eq, ?Eg, <- ?Hslot;
        (destruct (photo work) as [img |];
         [ rewrite <- Hreg, <- Hdr;
           destruct (Registry.registerTexture _ _ _ _ _); simpl
         | simpl ]);
        unfold sameButEntries; simpl; rewrite ?Ed, ?Hd; auto 10 with f_equal;
        repeat split; congruence. }
    split.
    { rewrite !hideEntry_entries, <- Hslot.
      destruct (JS.array_get (photoEntries a) i) as [e |] eqn:Eg;
        [| rewrite Eg; exact Hslot].
      symmetry in Hslot.
      apply array_get_Some_in_range in Hslot as [Hib _].
      unfold JS.array_get.
      rewrite !list_lookup_insert_eq by assumption. reflexivity. }
    { unfold hideEntry. rewrite <- Hslot.
      destruct (JS.array_get (photoEntries a) i);
        unfold sameButEntries; simpl; auto 10. }
Qed.

End WithEnvironment.

End SlotProps.

(** ** C3: a failed fetch *)

Module LoaderProps.

Import Work Scene Gallery Spec.

Lemma sameGallery_refl a : sameGallery a a.
Proof. repeat split. Qed.

Lemma sameGallery_trans a b c : sameGallery a b → sameGallery b c → sameGallery a c.
Proof. unfold sameGallery. intros (-> & -> & ->) (-> & -> & ->). auto. Qed.

Lemma fetchDone_call_gallery h now a : sameGallery (fetchDone_call h now a) a.
Proof. repeat split. Qed.

Section WithEnvironment.

Variable Math_random : nat → string.
Variable formatDate : string → string.
Variable VITE_MICROCMS_API_KEY : option string.
Variable DEV : bool.

#[local] Abbreviation loadPhotos :=
  (loadPhotos Math_random VITE_MICROCMS_API_KEY DEV).
#[local] Abbreviation loadPhotos_resume :=
  (loadPhotos_resume Math_random formatDate).
#[local] Abbreviation settleAll := (settleAll Math_random formatDate).

(** Up to its first suspension [loadPhotos] touches the registry only. *)
Lemma loadPhotos_gallery offset now a : sameGallery (loadPhotos offset now a).2 a.
Proof.
  unfold Gallery.loadPhotos.
  destruct VITE_MICROCMS_API_KEY as [key |]; [| apply sameGallery_refl].
  destruct (String.eqb key ""); [apply sameGallery_refl |].
  destruct (Registry.registerAsset _ _ _ _). repeat split.
Qed.

(** With an API key, [loadPhotos] suspends at the fetch of the offset it was
    given. *)
Lemma loadPhotos_suspends key offset now a :
  VITE_MICROCMS_API_KEY = Some key → key ≠ "" →
  ∃ h, (loadPhotos offset now a).1 = Some (AwaitFetch offset h).
Proof.
  intros Hk Hne. unfold Gallery.loadPhotos. rewrite Hk.
  destruct (String.eqb_spec key ""); [contradiction |].
  destruct (Registry.registerAsset _ _ _ _). eexists. reflexivity.
Qed.

(** Every resumption but the one that binds a parsed page leaves the slots,
    [pageOffset] and [totalCount] alone, whatever else has happened since the
    call began. *)
Lemma loadPhotos_resume_gallery l ev now a l' a' :
  parsed ev = false →
  loadPhotos_resume l ev now a = Some (l', a') →
  sameGallery a' a.
Proof.
  intros Hp H. unfold Gallery.loadPhotos_resume in H.
  destruct l, ev as [[| | []] | [| data] |]; simpl in H; try discriminate;
    try (destruct (sceneDisposed a));
    inversion H; subst; first [apply fetchDone_call_gallery | apply sameGallery_refl].
Qed.

(** C3. A fetch that fails (abort, network error, response that is not ok,
    body that does not parse) takes the call of [loadPhotos] to its end and
    leaves every slot entry, [pageOffset] and [totalCount] as they were
    before the call.  Step by step and whatever happens in between: no
    resumption of [loadPhotos] other than the one that binds a parsed page
    touches them. *)
Theorem failed_fetch_keeps_gallery
    (o : outcome) (key : string) (offset now now' : Z) (a : App) :
  VITE_MICROCMS_API_KEY = Some key → key ≠ "" →
  sceneDisposed a = false →
  failed o = true →
  ∃ l a',
    (loadPhotos offset now a).1 = Some l
    ∧ settleAll (Some l) (resumptions o) now' (loadPhotos offset now a).2
      = Some (None, a')
    ∧ photoEntries a' = photoEntries a
    ∧ pageOffset a' = pageOffset a
    ∧ Gallery.totalCount a' = Gallery.totalCount a
    ∧ (∀ l0 ev t b l1 b',
         parsed ev = false →
         loadPhotos_resume l0 ev t b = Some (l1, b') → sameGallery b' b).
Proof.
  intros Hk Hne Hd Hf.
  cut (∃ l a',
         (loadPhotos offset now a).1 = Some l
         ∧ settleAll (Some l) (resumptions o) now' (loadPhotos offset now a).2
           = Some (None, a')
         ∧ sameGallery a' a).
  { intros (l & a' & H1 & H2 & H3 & H4 & H5). exists l, a'.
    split_and!; try assumption. apply loadPhotos_resume_gallery. }
  destruct (loadPhotos_suspends key offset now a Hk Hne) as [h Hl].
  pose proof (loadPhotos_gallery offset now a) as Hg.
  assert (sceneDisposed (loadPhotos offset now a).2 = false) as Hd'.
  { unfold Gallery.loadPhotos. rewrite Hk.
    destruct (String.eqb key ""); [exact Hd |].
    destruct (Registry.registerAsset _ _ _ _). exact Hd. }
  set (a1 := (loadPhotos offset now a).2) in *.
  exists (AwaitFetch offset h).
  destruct o as [| | | [| data]]; try discriminate Hf; simpl;
    rewrite ?Hd'; simpl;
    eexists; (split; [exact Hl |]); (split; [reflexivity |]);
    apply (sameGallery_trans _ a1); try exact Hg; repeat split.
Qed.

End WithEnvironment.

End LoaderProps.

(** ** C1: the transition queue *)

Module QueueProps.

Import Work Scene Gallery Slide Spec.

Lemma chained_view n s s' :
  queueView s' = queueView s → chained n s → chained n s'.
Proof.
  unfold queueView, chained. intros H.
  injection H as Hp Hq Hc _. rewrite Hp, Hq, Hc. auto.
Qed.

Lemma front_view n s s' :
  queueView s' = queueView s → front n s → front n s'.
Proof.
  unfold queueView, front. intros H.
  injection H as _ _ Hc Hj. rewrite Hc, Hj. auto.
Qed.

Lemma wellQueued_view s s' :
  queueView s' = queueView s → wellQueued s → wellQueued s'.
Proof.
  intros H (n & Hc & Hf). exists n.
  split; [eapply chained_view | eapply front_view]; eassumption.
Qed.

Lemma chained_set_phase n ph s :
  chained n s → chained n (set_phase n ph s).
Proof.
  intros (Hl & Hq & Hn & Hp & Hr & Hw & Hf & Hpend & Hlast).
  unfold chained, set_phase. simpl. rewrite !length_alter.
  repeat split; try assumption.
  - intros k c. rewrite list_lookup_alter. case_decide as E.
    + subst k. destruct (calls s !! n) as [c0 |] eqn:E0; simpl; [| discriminate].
      intros [= <-]. simpl. eapply Hp, E0.
    + apply Hp.
  - intros k c Hk Hlt. rewrite list_lookup_alter_ne in Hk by lia. eauto.
  - intros k c Hk Hlt. rewrite list_lookup_alter_ne in Hk by lia. eauto.
Qed.

Lemma front_set_phase n ph s :
  (n < length (calls s))%nat → active ph → jobs s = [] →
  front n (set_phase n ph s).
Proof.
  intros Hn [Hq Hr] Hj. unfold front, set_phase. simpl.
  rewrite list_lookup_alter_eq.
  destruct (lookup_lt_is_Some_2 _ _ Hn) as [c ->]. simpl.
  destruct ph; try assumption; contradiction.
Qed.

(** Once the front call resolves, the chain has one more resolved call and
    the next call, if there is one, has its job queued. *)
Lemma chained_resolve n s :
  chained n s → (n < length (calls s))%nat → jobs s = [] →
  chained (S n) (resolve n s) ∧ front (S n) (resolve n s).
Proof.
  intros (Hl & Hq & Hn & Hp & Hr & Hw & Hf & Hpend & Hlast) Hlt Hj.
  destruct (lookup_lt_is_Some_2 _ _ Hlt) as [c Hc].
  assert (promise_at n s = S n) as Ep.
  { unfold promise_at. rewrite Hc. simpl. eapply Hp, Hc. }
  unfold resolve. rewrite Ep. unfold set_phase. simpl.
  split.
  - unfold chained. simpl. rewrite length_insert, !length_alter.
    repeat split; try assumption; try lia.
    + intros k c'. rewrite list_lookup_alter. case_decide as E.
      * subst k. rewrite Hc. simpl. intros [= <-]. simpl. eapply Hp, Hc.
      * apply Hp.
    + intros k c'. rewrite list_lookup_alter. case_decide as E.
      * subst k. rewrite Hc. simpl. intros [= <-] _. reflexivity.
      * intros Hk Hlt'. apply (Hr k); [assumption | lia].
    + intros k c' Hk Hlt'. rewrite list_lookup_alter_ne in Hk by lia.
      apply (Hw k); [assumption | lia].
    + intros j Hj'. destruct (decide (j = S n)) as [-> |].
      * apply list_lookup_insert_eq. lia.
      * rewrite list_lookup_insert_ne by lia. apply Hf. lia.
    + intros j Hj'. rewrite list_lookup_insert_ne by lia. apply Hpend. lia.
    + intros Hlast'. rewrite list_lookup_insert_ne by lia. apply Hlast. lia.
  - unfold front. simpl. rewrite Hj. simpl.
    rewrite list_lookup_alter_ne by lia.
    destruct (calls s !! S n) as [c' |] eqn:Ec'.
    + rewrite (Hw _ _ Ec') by lia.
      rewrite Hpend; [reflexivity |].
      apply lookup_lt_Some in Ec'. lia.
    + apply lookup_ge_None in Ec'.
      assert (S n = length (calls s)) as -> by lia.
      rewrite Hlast by lia. reflexivity.
Qed.

(** [pageSlide] always finds a promise in [slideQueue], and extends the
    chain by one queued call. *)
Lemma wellQueued_pageSlide d s :
  wellQueued s → ∃ s', pageSlide d s = Some s' ∧ wellQueued s'
    ∧ calls s' = calls s ++ [mkCall d Queued (S (length (calls s)))].
Proof.
  intros (n & (Hl & Hq & Hn & Hp & Hr & Hw & Hf & Hpend & Hlast) & Hfr).
  unfold pageSlide. rewrite Hq.
  destruct (decide (n = length (calls s))) as [En | Hne].
  - rewrite Hf by lia. eexists. split; [reflexivity |].
    rewrite Hl. split; [| reflexivity].
    unfold front in Hfr. rewrite (lookup_ge_None_2 (calls s) n) in Hfr by lia.
    exists n. split.
    + unfold chained. simpl. rewrite !length_app. simpl.
      split_and!.
      * lia.
      * lia.
      * lia.
      * intros k c Hk. destruct (decide (k = length (calls s))) as [-> | Hk'].
        -- rewrite list_lookup_middle in Hk by reflexivity.
           injection Hk as <-. reflexivity.
        -- assert (k < length (calls s))%nat.
           { apply lookup_lt_Some in Hk. rewrite length_app in Hk. simpl in Hk. lia. }
           rewrite lookup_app_l in Hk by assumption. eauto.
      * intros k c Hk Hlt. rewrite lookup_app_l in Hk by lia. eauto.
      * intros k c Hk Hlt. apply lookup_lt_Some in Hk.
        rewrite length_app in Hk. simpl in Hk. lia.
      * intros j Hj. rewrite lookup_app_l by lia. auto.
      * intros j Hj. lia.
      * intros _. rewrite lookup_app_r by lia.
        replace (_ - _)%nat with 0%nat by lia. reflexivity.
    + unfold front. simpl. subst n.
      rewrite list_lookup_middle by reflexivity. simpl.
      rewrite Hfr. reflexivity.
  - assert (n < length (calls s))%nat as Hlt by lia.
    rewrite Hlast by assumption. eexists. split; [reflexivity |].
    rewrite Hl. split; [| reflexivity].
    exists n. split.
    + unfold chained. simpl. rewrite !length_app, length_insert. simpl.
      split_and!.
      * lia.
      * lia.
      * lia.
      * intros k c Hk. destruct (decide (k = length (calls s))) as [-> | Hk'].
        -- rewrite list_lookup_middle in Hk by reflexivity.
           injection Hk as <-. reflexivity.
        -- assert (k < length (calls s))%nat.
           { apply lookup_lt_Some in Hk. rewrite length_app in Hk. simpl in Hk. lia. }
           rewrite lookup_app_l in Hk by assumption. eauto.
      * intros k c Hk Hlt'. rewrite lookup_app_l in Hk by lia. eauto.
      * intros k c Hk Hlt'. destruct (decide (k = length (calls s))) as [-> | Hk'].
        -- rewrite list_lookup_middle in Hk by reflexivity.
           injection Hk as <-. reflexivity.
        -- assert (k < length (calls s))%nat.
           { apply lookup_lt_Some in Hk. rewrite length_app in Hk. simpl in Hk. lia. }
           rewrite lookup_app_l in Hk by assumption. eauto.
      * intros j Hj. rewrite lookup_app_l by (rewrite length_insert; lia).
        rewrite list_lookup_insert_ne by lia. auto.
      * intros j Hj. rewrite lookup_app_l by (rewrite length_insert; lia).
        destruct (decide (j = length (calls s))) as [-> |].
        -- rewrite list_lookup_insert_eq by lia. reflexivity.
        -- rewrite list_lookup_insert_ne by lia. apply Hpend. lia.
      * intros _. rewrite lookup_app_r by (rewrite length_insert; lia).
        rewrite length_insert.
        replace (_ - _)%nat with 0%nat by lia. reflexivity.
    + unfold front in *. simpl.
      rewrite lookup_app_l by assumption. exact Hfr.
Qed.

Lemma wellQueued_advances n s s' :
  chained n s → (n < length (calls s))%nat → jobs s = [] →
  advances n s s' → wellQueued s'.
Proof.
  intros Hc Hn Hj (s1 & Hv & H).
  pose proof (chained_view n s s1 Hv Hc) as Hc1.
  unfold queueView in Hv. injection Hv as _ _ Ecalls Ejobs.
  rewrite <- Ecalls in Hn. rewrite <- Ejobs in Hj.
  destruct H as [-> | (ph & Hph & ->)].
  - exists (S n). apply chained_resolve; assumption.
  - exists n. split; [apply chained_set_phase, Hc1 |].
    apply front_set_phase; assumption.
Qed.

(** Only the front call can be under way. *)
Lemma active_is_front n s k c :
  chained n s → front n s → calls s !! k = Some c → active (phase_of c) →
  k = n ∧ (n < length (calls s))%nat ∧ jobs s = [].
Proof.
  intros (Hl & Hq & Hn & Hp & Hr & Hw & _) Hfr Hk [Hnq Hnr].
  destruct (lt_eq_lt_dec k n) as [[Hlt | ->] | Hgt].
  - rewrite (Hr _ _ Hk Hlt) in Hnr. contradiction.
  - split; [reflexivity |]. split; [eapply lookup_lt_Some, Hk |].
    unfold front in Hfr. rewrite Hk in Hfr.
    destruct (phase_of c); try assumption; contradiction.
  - rewrite (Hw _ _ Hk Hgt) in Hnq. contradiction.
Qed.

(** A job in the queue is the job of the front call, and the only one. *)
Lemma job_is_front n s k rest c :
  chained n s → front n s → jobs s = k :: rest → calls s !! k = Some c →
  phase_of c = Queued →
  k = n ∧ rest = [] ∧ (n < length (calls s))%nat.
Proof.
  intros Hc Hfr Hj Hk Hph. unfold front in Hfr.
  destruct (calls s !! n) as [c' |] eqn:En; [| congruence].
  destruct (phase_of c') eqn:Eph; try congruence; try contradiction.
  rewrite Hj in Hfr. injection Hfr as -> ->.
  split; [reflexivity |]. split; [reflexivity |]. eapply lookup_lt_Some, En.
Qed.

Section WithEnvironment.

Variable Math_random : nat → string.
Variable formatDate : string → string.
Variable VITE_MICROCMS_API_KEY : option string.
Variable DEV : bool.

#[local] Abbreviation animateIn := (animateIn).
#[local] Abbreviation fetchNext :=
  (fetchNext Math_random VITE_MICROCMS_API_KEY DEV).
#[local] Abbreviation animateOut :=
  (animateOut Math_random VITE_MICROCMS_API_KEY DEV).
#[local] Abbreviation step :=
  (step Math_random formatDate VITE_MICROCMS_API_KEY DEV).
#[local] Abbreviation run :=
  (run Math_random formatDate VITE_MICROCMS_API_KEY DEV).
#[local] Abbreviation boot := (boot Math_random VITE_MICROCMS_API_KEY DEV).

Lemma animateIn_advances k s : advances k s (animateIn k s).
Proof.
  exists s. split; [reflexivity |]. unfold Slide.animateIn.
  destruct (animations inDepths (app s)); [left; reflexivity |].
  right. eexists. split; [| reflexivity]. split; discriminate.
Qed.

Lemma advances_view k s0 s s' :
  queueView s = queueView s0 → advances k s s' → advances k s0 s'.
Proof.
  intros Hv (s1 & Hv1 & H). exists s1. split; [congruence | exact H].
Qed.

Lemma fetchNext_advances k d s : advances k s (fetchNext k d s).
Proof.
  unfold Slide.fetchNext.
  destruct (Gallery.loadPhotos _ _ _ _ _ _) as [[l |] a].
  - eexists. split; [| right; eexists; split; [| reflexivity]].
    + reflexivity.
    + split; discriminate.
  - eapply advances_view; [| apply animateIn_advances]. reflexivity.
Qed.

Lemma animateOut_advances k d s : advances k s (animateOut k d s).
Proof.
  unfold Slide.animateOut.
  destruct (animations outDepths (app s)).
  - apply fetchNext_advances.
  - exists s. split; [reflexivity |]. right. eexists.
    split; [| reflexivity]. split; discriminate.
Qed.

(** Every event keeps the chain in shape. *)
Lemma wellQueued_step e s s' :
  wellQueued s → step e s = Some s' → wellQueued s'.
Proof.
  intros Hw Hs. destruct e as [ms | d | | k i | [| k] ev | i | i]; simpl in Hs.
  - destruct (0 <=? ms); [| discriminate]. injection Hs as <-.
    eapply wellQueued_view; [| exact Hw]. reflexivity.
  - destruct (wellQueued_pageSlide d s Hw)
      as (s'' & E & Hw' & _).
    unfold Slide.pageSlide in *. congruence.
  - destruct (jobs s) as [| k rest] eqn:Ej; [discriminate |].
    destruct (calls s !! k) as [[d [] p] |] eqn:Ek; try discriminate.
    injection Hs as <-.
    destruct Hw as (n & Hc & Hf).
    destruct (job_is_front n s k rest _ Hc Hf Ej Ek eq_refl) as (-> & -> & Hn).
    eapply wellQueued_advances; [| | | apply animateOut_advances].
    + exact Hc.
    + exact Hn.
    + reflexivity.
  - destruct Hw as (n & Hc & Hf).
    destruct (calls s !! k) as [[d ph p] |] eqn:Ek; [| discriminate].
    destruct ph as [| running | | running |]; try discriminate;
      (destruct (running !! i) as [an |]; [| discriminate]);
      (destruct (active_is_front n s k _ Hc Hf Ek) as (-> & Hn & Hj);
       [split; discriminate |]);
      (eapply (wellQueued_advances n (set_app (animationEnd an (app s)) s));
       [ eapply chained_view; [| exact Hc]; reflexivity
       | exact Hn | exact Hj |]);
      destruct (delete i running); injection Hs as <-.
    + apply fetchNext_advances.
    + eexists. split; [reflexivity |]. right. eexists.
      split; [| reflexivity]. split; discriminate.
    + eexists. split; [reflexivity |]. left. reflexivity.
    + eexists. split; [reflexivity |]. right. eexists.
      split; [| reflexivity]. split; discriminate.
  - destruct (initialLoad s) as [l |]; [| discriminate]. simpl in Hs.
    destruct (Gallery.loadPhotos_resume _ _ _ _ _ _) as [[l' a] |];
      [| discriminate].
    simpl in Hs. injection Hs as <-.
    eapply wellQueued_view; [| exact Hw]. reflexivity.
  - destruct Hw as (n & Hc & Hf).
    destruct (calls s !! k) as [[d ph p] |] eqn:Ek; [| discriminate].
    destruct ph as [| | l | |]; try discriminate.
    destruct (Gallery.loadPhotos_resume _ _ _ _ _ _) as [[l' a] |];
      [| discriminate].
    simpl in Hs.
    destruct (active_is_front n s k _ Hc Hf Ek) as (-> & Hn & Hj);
      [split; discriminate |].
    eapply (wellQueued_advances n (set_app a s));
      [ eapply chained_view; [| exact Hc]; reflexivity
      | exact Hn | exact Hj |].
    destruct l' as [l' |]; injection Hs as <-.
    + eexists. split; [reflexivity |]. right. eexists.
      split; [| reflexivity]. split; discriminate.
    + apply animateIn_advances.
  - destruct (pendingTextures (app s) !! i); [| discriminate].
    simpl in Hs. injection Hs as <-.
    eapply wellQueued_view; [| exact Hw]. reflexivity.
  - destruct (Registry.fireTimer _ _ _); [| discriminate].
    simpl in Hs. injection Hs as <-.
    eapply wellQueued_view; [| exact Hw]. reflexivity.
Qed.

Lemma wellQueued_boot r0 t0 : wellQueued (boot r0 t0).
Proof.
  unfold Slide.boot. destruct (Gallery.loadPhotos _ _ _ _ _ _) as [l a].
  exists 0%nat. split; [| reflexivity].
  unfold chained. simpl. split_and!; try (reflexivity || lia).
  all: intros k; intros;
    first [ discriminate
          | assert (k = 0%nat) as -> by lia; reflexivity ].
Qed.

Lemma wellQueued_run es s s' :
  wellQueued s → run es s = Some s' → wellQueued s'.
Proof.
  revert s. induction es as [| e es IH]; intros s Hw Hr; simpl in Hr.
  - injection Hr as <-. exact Hw.
  - destruct (step e s) as [s1 |] eqn:E; [| discriminate]. simpl in Hr.
    eapply IH; [| exact Hr]. eapply wellQueued_step; eassumption.
Qed.

Lemma wellQueued_serialized s : wellQueued s → serialized s ∧ singleFlight s.
Proof.
  intros (n & (Hl & Hq & Hn & Hp & Hr & Hw & _) & Hf).
  assert (∀ j c, calls s !! j = Some c → started c → (j ≤ n)%nat) as Hs.
  { intros j c Hj Hst. destruct (le_lt_dec j n) as [| Hgt]; [assumption |].
    unfold started in Hst. rewrite (Hw _ _ Hj Hgt) in Hst. contradiction. }
  split.
  - intros i j ci cj Hij Hi Hj Hst.
    apply (Hr _ _ Hi). specialize (Hs _ _ Hj Hst). lia.
  - assert (∀ j c, calls s !! j = Some c → inFlight c → j = n) as Hone.
    { intros j c Hj [Hnq Hnr]. specialize (Hs _ _ Hj Hnq).
      destruct (decide (j = n)) as [| Hne]; [assumption |].
      rewrite (Hr _ _ Hj) in Hnr by lia. contradiction. }
    intros i j ci cj Hi Hj Hfi Hfj.
    rewrite (Hone _ _ Hi Hfi), (Hone _ _ Hj Hfj). reflexivity.
Qed.

(** C1. Whatever the browser delivers after mount, in whatever order: when
    the work of a later [pageSlide] call has begun, every earlier call has
    resolved its whole sequence; so at most one transition is in flight, and
    the calls take their turn in the order they were made.  A click is
    always accepted and joins the end of the queue. *)
Theorem pageSlide_serialized
    (r0 : Registry.t) (t0 : Z) (es : list event) (s : State) :
  run es (boot r0 t0) = Some s →
  serialized s
  ∧ singleFlight s
  ∧ ∀ d, ∃ s', step (PointerDown d) s = Some s'
               ∧ calls s' = calls s ++ [mkCall d Queued (S (length (calls s)))].
Proof.
  intros Hr.
  assert (wellQueued s) as Hw
    by (eapply wellQueued_run; [apply wellQueued_boot | exact Hr]).
  destruct (wellQueued_serialized s Hw) as [Hs Hf].
  split; [exact Hs |]. split; [exact Hf |].
  intros d.
  destruct (wellQueued_pageSlide d s Hw)
    as (s' & E & _ & Ec).
  exists s'. split; [exact E | exact Ec].
Qed.

End WithEnvironment.

End QueueProps.

(** ** C9: offsets are multiples of the page size *)

Module PagingProps.

Import Work Scene Gallery Slide Spec Range.

Lemma nextOffset_multiple pageOffset totalCount d :
  multipleOf3 pageOffset → multipleOf3 (nextOffset pageOffset totalCount d).
Proof.
  intros [q ->]. unfold nextOffset, multipleOf3. cbv zeta.
  destruct (_ <? 0).
  - exists ((totalCount - 1) / 3). reflexivity.
  - destruct (_ <=? _).
    + exists 0. reflexivity.
    + exists (q + dirZ d). lia.
Qed.

Lemma nextOffset_within pageOffset totalCount d :
  offsetWithin pageOffset → countWithin totalCount →
  offsetWithin (nextOffset pageOffset totalCount d).
Proof.
  unfold offsetWithin, countWithin, nextOffset. intros Hp Ht. cbv zeta.
  assert (-1 ≤ dirZ d ≤ 1) by (destruct d; simpl; lia).
  pose proof (Z.div_mod (totalCount - 1) 3 ltac:(lia)) as E.
  pose proof (Z.mod_pos_bound (totalCount - 1) 3 ltac:(lia)) as B.
  destruct (Z.ltb_spec (pageOffset + 3 * dirZ d) 0); [lia |].
  destruct (Z.leb_spec totalCount (pageOffset + 3 * dirZ d)); lia.
Qed.

Lemma hideEntry_pageView i a : pageView (hideEntry i a) = pageView a.
Proof.
  unfold hideEntry. destruct (JS.array_get (photoEntries a) i); reflexivity.
Qed.

Lemma animationEnd_pageView an a : pageView (animationEnd an a) = pageView a.
Proof.
  unfold animationEnd.
  destruct (JS.array_get (photoEntries a) (slot an)) as [e |]; [| reflexivity].
  destruct (serial e =? owner an)%nat; reflexivity.
Qed.

Section WithEnvironment.

Variable Math_random : nat → string.
Variable formatDate : string → string.
Variable VITE_MICROCMS_API_KEY : option string.
Variable DEV : bool.

#[local] Abbreviation createOrUpdateEntry :=
  (createOrUpdateEntry Math_random formatDate).
#[local] Abbreviation bindItems := (bindItems Math_random formatDate).
#[local] Abbreviation loadPhotos_resume :=
  (loadPhotos_resume Math_random formatDate).
#[local] Abbreviation loadPhotos :=
  (loadPhotos Math_random VITE_MICROCMS_API_KEY DEV).
#[local] Abbreviation fetchNext :=
  (fetchNext Math_random VITE_MICROCMS_API_KEY DEV).
#[local] Abbreviation animateOut :=
  (animateOut Math_random VITE_MICROCMS_API_KEY DEV).
#[local] Abbreviation step :=
  (step Math_random formatDate VITE_MICROCMS_API_KEY DEV).
#[local] Abbreviation run :=
  (run Math_random formatDate VITE_MICROCMS_API_KEY DEV).
#[local] Abbreviation boot := (boot Math_random VITE_MICROCMS_API_KEY DEV).

Lemma createOrUpdateEntry_pageView work i now a :
  pageView (createOrUpdateEntry work i now a).2 = pageView a.
Proof.
  unfold Gallery.createOrUpdateEntry.
  destruct (sceneDisposed a) eqn:Ed; [reflexivity |].
  destruct (JS.array_get (photoEntries a) i); cbv zeta;
    (destruct (JS.array_get _ i); [unfold pageView; simpl; congruence |]);
    (destruct (photo work); [| unfold pageView; simpl; congruence]);
    destruct (Registry.registerTexture _ _ _ _ _);
    unfold pageView; simpl; congruence.
Qed.

Lemma bindItems_pageView items i n now a :
  pageView (bindItems items i n now a).2 = pageView a.
Proof.
  revert i a. induction n as [| n IH]; intros i a; simpl; [reflexivity |].
  destruct (JS.array_get items i) as [work |].
  - pose proof (createOrUpdateEntry_pageView work i now a) as H.
    destruct (createOrUpdateEntry work i now a) as [[] a']; simpl in *.
    + rewrite IH. exact H.
    + exact H.
  - rewrite IH. apply hideEntry_pageView.
Qed.

Lemma loadPhotos_pageView offset now a :
  pageView (loadPhotos offset now a).2 = pageView a.
Proof.
  unfold Gallery.loadPhotos.
  destruct VITE_MICROCMS_API_KEY as [key |]; [| reflexivity].
  destruct (String.eqb key ""); [reflexivity |].
  destruct (Registry.registerAsset _ _ _ _). reflexivity.
Qed.

(** [loadPhotos] suspends at the fetch of the offset it was given, if it
    suspends. *)
Lemma loadPhotos_loader offset now a l :
  (loadPhotos offset now a).1 = Some l → ∃ h, l = AwaitFetch offset h.
Proof.
  unfold Gallery.loadPhotos.
  destruct VITE_MICROCMS_API_KEY as [key |]; [| discriminate].
  destruct (String.eqb key ""); [discriminate |].
  destruct (Registry.registerAsset _ _ _ _). simpl.
  intros [= <-]. eexists. reflexivity.
Qed.

(** A resumption stores in [pageOffset] the offset the call was made with
    or leaves it alone, keeps the scene flag, and carries its offset on. *)
Lemma loadPhotos_resume_aligned l ev now a l' a' :
  loadPhotos_resume l ev now a = Some (l', a') →
  alignedLoader l → multipleOf3 (pageOffset a) →
  multipleOf3 (pageOffset a')
  ∧ sceneDisposed a' = sceneDisposed a
  ∧ (∀ l'', l' = Some l'' → alignedLoader l'').
Proof.
  intros H Hl Ha. unfold Gallery.loadPhotos_resume in H.
  destruct l as [offset h | h | offset h], ev as [[| | []] | [| data] |];
    simpl in H; try discriminate;
    try (destruct (sceneDisposed a) eqn:Ed);
    injection H as <- <-;
    try (split; [exact Ha |]; split; [simpl; congruence |];
         intros l'' [= <-]; intros o; simpl; intros [= <-];
         try apply Hl; reflexivity).
  all: unfold loadPhotos_bind.
  all: destruct (contents data) as [items |]; cbv zeta;
    [ pose proof (bindItems_pageView items 0 3 now
        (set_page offset (default 0 (Work.totalCount data)) a)) as Hv;
      destruct (bindItems _ _ _ _ _) as [c a2]; simpl in Hv;
      unfold pageView in Hv; simpl in Hv; injection Hv as Hd Hp _;
      simpl; rewrite Hp, Hd
    | simpl ];
    (split; [apply Hl; reflexivity |]); (split; [congruence | discriminate]).
Qed.

Lemma aligned_set_phase k ph s :
  pageAligned s → (∀ l, ph = Loading l → alignedLoader l) →
  pageAligned (set_phase k ph s).
Proof.
  intros (Hp & Hr & Hi & Hc & Hd) Hph. unfold pageAligned, set_phase. simpl.
  split_and!; try assumption.
  intros k' c l. rewrite list_lookup_alter. case_decide.
  - destruct (calls s !! k) as [c0 |]; simpl; [| discriminate].
    intros [= <-]. simpl. apply Hph.
  - apply Hc.
Qed.

Lemma aligned_resolve k s : pageAligned s → pageAligned (resolve k s).
Proof.
  intros H. pose proof (aligned_set_phase k Resolved s H) as H'.
  unfold resolve. destruct H' as (Hp & Hr & Hi & Hc & Hd); [discriminate |].
  unfold pageAligned. simpl. split_and!; assumption.
Qed.

Lemma aligned_animateIn k s : pageAligned s → pageAligned (animateIn k s).
Proof.
  intros H. unfold animateIn. destruct (animations inDepths (app s)).
  - apply aligned_resolve, H.
  - apply aligned_set_phase; [exact H | discriminate].
Qed.

Lemma aligned_set_app a s :
  pageAligned s → pageView a = pageView (app s) → pageAligned (set_app a s).
Proof.
  intros (Hp & Hr & Hi & Hc & Hd) Hv. unfold pageView in Hv.
  injection Hv as Ed Ep _.
  unfold pageAligned, set_app. simpl. rewrite Ep, Ed. split_and!; assumption.
Qed.

Lemma aligned_fetchNext k d s : pageAligned s → pageAligned (fetchNext k d s).
Proof.
  intros H. unfold Slide.fetchNext.
  pose proof (nextOffset_multiple (pageOffset (app s))
                (Gallery.totalCount (app s)) d (proj1 H)) as Hn.
  set (nxt := nextOffset _ _ d) in *.
  pose proof (loadPhotos_pageView nxt (clock s) (app s)) as Hv.
  pose proof (loadPhotos_loader nxt (clock s) (app s)) as Hl.
  destruct (loadPhotos nxt (clock s) (app s)) as [l a]. simpl in Hv, Hl.
  assert (pageAligned
            (mkState a (clock s) (promises s) (slideQueue s) (calls s) (jobs s)
                     (initialLoad s) (requested s ++ [nxt]))) as H1.
  { destruct H as (Hp & Hr & Hi & Hc & Hd). unfold pageView in Hv.
    injection Hv as Ed Ep _.
    unfold pageAligned. simpl. rewrite Ep, Ed. split_and!; try assumption.
    apply Forall_app. split; [assumption |]. constructor; [exact Hn | constructor]. }
  destruct l as [l |].
  - apply aligned_set_phase; [exact H1 |].
    intros l' [= <-]. destruct (Hl l eq_refl) as [h ->].
    intros o [= <-]. exact Hn.
  - apply aligned_animateIn, H1.
Qed.

Lemma aligned_animateOut k d s : pageAligned s → pageAligned (animateOut k d s).
Proof.
  intros H. unfold Slide.animateOut. destruct (animations outDepths (app s)).
  - apply aligned_fetchNext, H.
  - apply aligned_set_phase; [exact H | discriminate].
Qed.

(** Every event keeps the offsets aligned. *)
Lemma aligned_step e s s' :
  pageAligned s → step e s = Some s' → pageAligned s'.
Proof.
  intros H Hs. destruct e as [ms | d | | k i | [| k] ev | i | i]; simpl in Hs.
  - destruct (0 <=? ms); [| discriminate]. injection Hs as <-. exact H.
  - unfold pageSlide in Hs. destruct H as (Hp & Hr & Hi & Hc & Hd).
    destruct (promises s !! slideQueue s) as [[rs |] |]; try discriminate;
      injection Hs as <-; unfold pageAligned; simpl;
      (split_and!; try assumption);
      intros k' c l Hk Hph;
      (destruct (decide (k' < length (calls s))%nat);
       [ rewrite lookup_app_l in Hk by assumption; eauto
       | rewrite lookup_app_r in Hk by lia;
         destruct (k' - length (calls s))%nat; simpl in Hk;
         [injection Hk as <-; discriminate Hph | discriminate Hk] ]).
  - destruct (jobs s) as [| k rest]; [discriminate |].
    destruct (calls s !! k) as [[d [] p] |]; try discriminate.
    injection Hs as <-. apply aligned_animateOut. exact H.
  - destruct (calls s !! k) as [[d ph p] |]; [| discriminate].
    destruct ph as [| running | | running |]; try discriminate;
      (destruct (running !! i) as [an |]; [| discriminate]);
      pose proof (aligned_set_app (animationEnd an (app s)) s H
                    (animationEnd_pageView an (app s))) as H1;
      destruct (delete i running); injection Hs as <-.
    + apply aligned_fetchNext, H1.
    + apply aligned_set_phase; [exact H1 | discriminate].
    + apply aligned_resolve, H1.
    + apply aligned_set_phase; [exact H1 | discriminate].
  - destruct (initialLoad s) as [l |] eqn:El; [| discriminate]. simpl in Hs.
    destruct (loadPhotos_resume l ev (clock s) (app s)) as [[l' a] |] eqn:Er;
      [| discriminate].
    simpl in Hs. injection Hs as <-.
    destruct H as (Hp & Hr & Hi & Hc & Hd).
    destruct (loadPhotos_resume_aligned _ _ _ _ _ _ Er (Hi _ El) Hp)
      as (Hp' & Hd' & Hl').
    unfold pageAligned. simpl. split_and!; try assumption; congruence.
  - destruct (calls s !! k) as [[d ph p] |] eqn:Ek; [| discriminate].
    destruct ph as [| | l | |]; try discriminate.
    destruct (loadPhotos_resume l ev (clock s) (app s)) as [[l' a] |] eqn:Er;
      [| discriminate].
    simpl in Hs.
    destruct H as (Hp & Hr & Hi & Hc & Hd).
    destruct (loadPhotos_resume_aligned _ _ _ _ _ _ Er (Hc _ _ _ Ek eq_refl) Hp)
      as (Hp' & Hd' & Hl').
    assert (pageAligned (set_app a s)) as H1.
    { unfold pageAligned. simpl. split_and!; try assumption; congruence. }
    destruct l' as [l' |]; injection Hs as <-.
    + apply aligned_set_phase; [exact H1 |]. intros ? [= <-]. apply Hl'. reflexivity.
    + apply aligned_animateIn, H1.
  - destruct (pendingTextures (app s) !! i); [| discriminate].
    simpl in Hs. injection Hs as <-. apply aligned_set_app; [exact H | reflexivity].
  - destruct (Registry.fireTimer _ _ _); [| discriminate].
    simpl in Hs. injection Hs as <-. apply aligned_set_app; [exact H | reflexivity].
Qed.

Lemma aligned_boot r0 t0 : pageAligned (boot r0 t0).
Proof.
  unfold Slide.boot.
  set (a0 := mkApp false [None; None; None] 0 0 r0 [] 0 0).
  pose proof (loadPhotos_pageView 0 t0 a0) as Hv.
  pose proof (loadPhotos_loader 0 t0 a0) as Hl.
  destruct (loadPhotos 0 t0 a0) as [l a]. simpl in Hv, Hl.
  unfold pageView in Hv. injection Hv as Ed Ep _.
  assert (multipleOf3 0) as H0 by (exists 0; reflexivity).
  unfold pageAligned. simpl. rewrite Ep, Ed. split_and!.
  - exact H0.
  - constructor; [exact H0 | constructor].
  - intros l' ->. destruct (Hl l' eq_refl) as [h ->]. intros o [= <-]. exact H0.
  - intros k c l' Hk. rewrite lookup_nil in Hk. discriminate.
  - reflexivity.
Qed.

Lemma aligned_run es s s' :
  pageAligned s → run es s = Some s' → pageAligned s'.
Proof.
  revert s. induction es as [| e es IH]; intros s Hw Hr; simpl in Hr.
  - injection Hr as <-. exact Hw.
  - destruct (step e s) as [s1 |] eqn:E; [| discriminate]. simpl in Hr.
    eapply IH; [| exact Hr]. eapply aligned_step; eassumption.
Qed.

(** *** Offsets within range *)

(** A resumption stores the offset the call was made with and the count
    the page reports, or leaves both alone, and carries its offset on. *)
Lemma loadPhotos_resume_within l ev now a l' a' w :
  loadPhotos_resume l ev now a = Some (l', a') →
  deliversWithin (Settle w ev) →
  loaderWithin l →
  offsetWithin (pageOffset a) → countWithin (Gallery.totalCount a) →
  offsetWithin (pageOffset a')
  ∧ countWithin (Gallery.totalCount a')
  ∧ (∀ l'', l' = Some l'' → loaderWithin l'').
Proof.
  intros H Hev Hl Hp Ht. unfold Gallery.loadPhotos_resume in H.
  destruct l as [offset h | h | offset h], ev as [[| | []] | [| data] |];
    simpl in H; try discriminate;
    try (destruct (sceneDisposed a) eqn:Ed);
    injection H as <- <-;
    try (split; [exact Hp |]; split; [exact Ht |];
         intros l'' [= <-]; intros o; simpl; intros [= <-];
         try apply Hl; reflexivity).
  all: unfold loadPhotos_bind.
  all: destruct (contents data) as [items |]; cbv zeta;
    [ pose proof (bindItems_pageView items 0 3 now
        (set_page offset (default 0 (Work.totalCount data)) a)) as Hv;
      destruct (bindItems _ _ _ _ _) as [c a2]; simpl in Hv;
      unfold pageView in Hv; simpl in Hv; injection Hv as Hd Hpo Htc;
      simpl; rewrite Hpo, Htc
    | simpl ];
    (split; [apply Hl; reflexivity |]); (split; [exact Hev | discriminate]).
Qed.

Lemma within_set_phase k ph s :
  pageWithin s → (∀ l, ph = Loading l → loaderWithin l) →
  pageWithin (set_phase k ph s).
Proof.
  intros (Hp & Ht & Hr & Hi & Hc) Hph. unfold pageWithin, set_phase. simpl.
  split_and!; try assumption.
  intros k' c l. rewrite list_lookup_alter. case_decide.
  - destruct (calls s !! k) as [c0 |]; simpl; [| discriminate].
    intros [= <-]. simpl. apply Hph.
  - apply Hc.
Qed.

Lemma within_resolve k s : pageWithin s → pageWithin (resolve k s).
Proof.
  intros H. pose proof (within_set_phase k Resolved s H) as H'.
  unfold resolve. destruct H' as (Hp & Ht & Hr & Hi & Hc); [discriminate |].
  unfold pageWithin. simpl. split_and!; assumption.
Qed.

Lemma within_animateIn k s : pageWithin s → pageWithin (animateIn k s).
Proof.
  intros H. unfold animateIn. destruct (animations inDepths (app s)).
  - apply within_resolve, H.
  - apply within_set_phase; [exact H | discriminate].
Qed.

Lemma within_set_app a s :
  pageWithin s → pageView a = pageView (app s) → pageWithin (set_app a s).
Proof.
  intros (Hp & Ht & Hr & Hi & Hc) Hv. unfold pageView in Hv.
  injection Hv as _ Ep Et.
  unfold pageWithin, set_app. simpl. rewrite Ep, Et. split_and!; assumption.
Qed.

Lemma within_fetchNext k d s : pageWithin s → pageWithin (fetchNext k d s).
Proof.
  intros H. unfold Slide.fetchNext.
  pose proof (nextOffset_within (pageOffset (app s))
                (Gallery.totalCount (app s)) d (proj1 H) (proj1 (proj2 H))) as Hn.
  set (nxt := nextOffset _ _ d) in *.
  pose proof (loadPhotos_pageView
                nxt (clock s) (app s)) as Hv.
  pose proof (loadPhotos_loader
                nxt (clock s) (app s)) as Hl.
  destruct (loadPhotos nxt (clock s) (app s)) as [l a]. simpl in Hv, Hl.
  assert (pageWithin
            (mkState a (clock s) (promises s) (slideQueue s) (calls s) (jobs s)
                     (initialLoad s) (requested s ++ [nxt]))) as H1.
  { destruct H as (Hp & Ht & Hr & Hi & Hc). unfold pageView in Hv.
    injection Hv as _ Ep Et.
    unfold pageWithin. simpl. rewrite Ep, Et. split_and!; try assumption.
    apply Forall_app. split; [assumption |]. constructor; [exact Hn | constructor]. }
  destruct l as [l |].
  - apply within_set_phase; [exact H1 |].
    intros l' [= <-]. destruct (Hl l eq_refl) as [h ->].
    intros o [= <-]. exact Hn.
  - apply within_animateIn, H1.
Qed.

Lemma within_animateOut k d s : pageWithin s → pageWithin (animateOut k d s).
Proof.
  intros H. unfold Slide.animateOut. destruct (animations outDepths (app s)).
  - apply within_fetchNext, H.
  - apply within_set_phase; [exact H | discriminate].
Qed.

(** Every event that delivers a count within range keeps the state within
    range. *)
Lemma within_step e s s' :
  deliversWithin e → pageWithin s → step e s = Some s' → pageWithin s'.
Proof.
  intros He H Hs. destruct e as [ms | d | | k i | [| k] ev | i | i]; simpl in Hs.
  - destruct (0 <=? ms); [| discriminate]. injection Hs as <-. exact H.
  - unfold pageSlide in Hs. destruct H as (Hp & Ht & Hr & Hi & Hc).
    destruct (promises s !! slideQueue s) as [[rs |] |]; try discriminate;
      injection Hs as <-; unfold pageWithin; simpl;
      (split_and!; try assumption);
      intros k' c l Hk Hph;
      (destruct (decide (k' < length (calls s))%nat);
       [ rewrite lookup_app_l in Hk by assumption; eauto
       | rewrite lookup_app_r in Hk by lia;
         destruct (k' - length (calls s))%nat; simpl in Hk;
         [injection Hk as <-; discriminate Hph | discriminate Hk] ]).
  - destruct (jobs s) as [| k rest]; [discriminate |].
    destruct (calls s !! k) as [[d [] p] |]; try discriminate.
    injection Hs as <-. apply within_animateOut. exact H.
  - destruct (calls s !! k) as [[d ph p] |]; [| discriminate].
    destruct ph as [| running | | running |]; try discriminate;
      (destruct (running !! i) as [an |]; [| discriminate]);
      pose proof (within_set_app (animationEnd an (app s)) s H
                    (animationEnd_pageView an (app s))) as H1;
      destruct (delete i running); injection Hs as <-.
    + apply within_fetchNext, H1.
    + apply within_set_phase; [exact H1 | discriminate].
    + apply within_resolve, H1.
    + apply within_set_phase; [exact H1 | discriminate].
  - destruct (initialLoad s) as [l |] eqn:El; [| discriminate]. simpl in Hs.
    destruct (loadPhotos_resume l ev (clock s) (app s)) as [[l' a] |] eqn:Er;
      [| discriminate].
    simpl in Hs. injection Hs as <-.
    destruct H as (Hp & Ht & Hr & Hi & Hc).
    destruct (loadPhotos_resume_within _ _ _ _ _ _ _ Er He (Hi _ El) Hp Ht)
      as (Hp' & Ht' & Hl').
    unfold pageWithin. simpl. split_and!; try assumption.
  - destruct (calls s !! k) as [[d ph p] |] eqn:Ek; [| discriminate].
    destruct ph as [| | l | |]; try discriminate.
    destruct (loadPhotos_resume l ev (clock s) (app s)) as [[l' a] |] eqn:Er;
      [| discriminate].
    simpl in Hs.
    destruct H as (Hp & Ht & Hr & Hi & Hc).
    destruct (loadPhotos_resume_within _ _ _ _ _ _ _ Er He (Hc _ _ _ Ek eq_refl) Hp Ht)
      as (Hp' & Ht' & Hl').
    assert (pageWithin (set_app a s)) as H1.
    { unfold pageWithin. simpl. split_and!; assumption. }
    destruct l' as [l' |]; injection Hs as <-.
    + apply within_set_phase; [exact H1 |]. intros ? [= <-]. apply Hl'. reflexivity.
    + apply within_animateIn, H1.
  - destruct (pendingTextures (app s) !! i); [| discriminate].
    simpl in Hs. injection Hs as <-. apply within_set_app; [exact H | reflexivity].
  - destruct (Registry.fireTimer _ _ _); [| discriminate].
    simpl in Hs. injection Hs as <-. apply within_set_app; [exact H | reflexivity].
Qed.

Lemma within_boot r0 t0 : pageWithin (boot r0 t0).
Proof.
  unfold Slide.boot.
  set (a0 := mkApp false [None; None; None] 0 0 r0 [] 0 0).
  pose proof (loadPhotos_pageView 0 t0 a0)
    as Hv.
  pose proof (loadPhotos_loader 0 t0 a0)
    as Hl.
  destruct (loadPhotos 0 t0 a0) as [l a]. simpl in Hv, Hl.
  unfold pageView in Hv. injection Hv as _ Ep Et.
  assert (offsetWithin 0) as H0 by (unfold offsetWithin; lia).
  unfold pageWithin. simpl. rewrite Ep, Et. split_and!.
  - exact H0.
  - unfold countWithin. lia.
  - constructor; [exact H0 | constructor].
  - intros l' ->. destruct (Hl l' eq_refl) as [h ->]. intros o [= <-]. exact H0.
  - intros k c l' Hk. rewrite lookup_nil in Hk. discriminate.
Qed.

Lemma within_run es :
  ∀ s s', Forall deliversWithin es → pageWithin s → run es s = Some s' →
          pageWithin s'.
Proof.
  induction es as [| e es IH]; intros s s' He H Hr; simpl in Hr.
  - injection Hr as <-. exact H.
  - destruct (step e s) as [s1 |] eqn:E; [| discriminate]. simpl in Hr.
    inversion He as [| ? ? He1 He2]; subst.
    eapply IH; [exact He2 | | exact Hr]. eapply within_step; eassumption.
Qed.

(** C9, amended. From the initial load at offset 0 on, through whatever
    the browser delivers, as long as every page the API delivers reports an
    integer total count from 0 to 2^52: every offset [loadPhotos] has been
    called with and the offset stored in [pageOffset] are multiples of 3,
    they and the stored count are within range, and the offset the next
    transition computes in binary64, as the program does, is the one the
    integers give. *)
Theorem offsets_are_multiples_of_3 r0 t0 es s :
  Forall deliversWithin es →
  run es (boot r0 t0) = Some s →
  multipleOf3 (pageOffset (app s))
  ∧ Forall multipleOf3 (requested s)
  ∧ offsetWithin (pageOffset (app s))
  ∧ countWithin (Gallery.totalCount (app s))
  ∧ Forall offsetWithin (requested s)
  ∧ ∀ d, nextOffset64 (JS.num (pageOffset (app s)))
           (JS.num (Gallery.totalCount (app s))) d
         = JS.num (nextOffset (pageOffset (app s)) (Gallery.totalCount (app s)) d).
Proof.
  intros He Hr.
  destruct (aligned_run es (boot r0 t0) s (aligned_boot r0 t0) Hr)
    as (Ha & Hq & _).
  destruct (within_run es (boot r0 t0) s He (within_boot r0 t0) Hr)
    as (Hp & Ht & Hw & _).
  split_and!; try assumption.
  intros d. unfold offsetWithin, countWithin in *.
  apply Binary64Props.nextOffset64_exact; lia.
Qed.

End WithEnvironment.

(** A page that reports 10^17 items leaves the gallery at offset 0 of
    10^17. *)
Lemma hugeCount_bound :
  ∃ s, run Samples.random Samples.plainDate Samples.apiKey false
         Examples.hugeCount Samples.mounted = Some s
       ∧ pageOffset (app s) = 0
       ∧ Gallery.totalCount (app s) = 10 ^ 17.
Proof. vm_compute. eexists. split_and!; reflexivity. Qed.

(** C9, as stated, fails: when the initial load reports 10^17 items, a
    number the program holds exactly, the gallery is at offset 0 of 10^17
    ([hugeCount_bound]) and the backward arrow asks for offset 10^17, which
    is not a multiple of 3. *)
Lemma offset_not_multiple_of_3 :
  ¬ (∀ totalCount : Z,
       0 ≤ totalCount →
       JS.integer (JS.num totalCount) = Some totalCount →
       ∃ q, JS.integer (nextOffset64 (JS.num 0) (JS.num totalCount) Backward)
            = Some q
            ∧ multipleOf3 q).
Proof.
  intros H. specialize (H (10 ^ 17) ltac:(lia)).
  assert (JS.integer (JS.num (10 ^ 17)) = Some (10 ^ 17)) as Hi
    by (vm_compute; reflexivity).
  destruct (H Hi) as (q & Hq & [k Hk]).
  vm_compute in Hq. injection Hq as <-. lia.
Qed.

End PagingProps.

(** ** C4: a failed fetch does not hold up the queue *)

Module ProgressProps.

Import Work Scene Gallery Slide Spec QueueProps PagingProps.

Lemma resolve_settled n s :
  chained n s → (n < length (calls s))%nat → jobs s = [] →
  settled n (resolve n s).
Proof.
  intros Hc Hn Hj.
  destruct (chained_resolve n s Hc Hn Hj) as [Hc' Hf'].
  destruct Hc as (Hl & Hq & _ & Hp & Hr & Hw & Hf & Hpend & Hlast).
  destruct (lookup_lt_is_Some_2 _ _ Hn) as [c Ec].
  split.
  - unfold resolve, set_phase. simpl. rewrite list_lookup_alter_eq, Ec. simpl.
    eexists. split; reflexivity.
  - intros c1 E1.
    assert (phase_of c1 = Queued) as Eq.
    { unfold resolve, set_phase in E1. simpl in E1.
      rewrite list_lookup_alter_ne in E1 by lia. apply (Hw _ _ E1). lia. }
    split; [exact Eq |].
    unfold front in Hf'. rewrite E1, Eq in Hf'. exact Hf'.
Qed.

Section WithEnvironment.

Variable Math_random : nat → string.
Variable formatDate : string → string.
Variable VITE_MICROCMS_API_KEY : option string.
Variable DEV : bool.

#[local] Abbreviation loadPhotos_resume :=
  (loadPhotos_resume Math_random formatDate).
#[local] Abbreviation animateOut :=
  (animateOut Math_random VITE_MICROCMS_API_KEY DEV).
#[local] Abbreviation step :=
  (step Math_random formatDate VITE_MICROCMS_API_KEY DEV).
#[local] Abbreviation run :=
  (run Math_random formatDate VITE_MICROCMS_API_KEY DEV).
#[local] Abbreviation boot := (boot Math_random VITE_MICROCMS_API_KEY DEV).

Lemma run_app es1 es2 s :
  run (es1 ++ es2) s = run es1 s ≫= run es2.
Proof.
  revert s. induction es1 as [| e es1 IH]; intros s; simpl; [reflexivity |].
  destruct (step e s); simpl; [apply IH | reflexivity].
Qed.

(** The animations in end one after the other, and the call resolves with
    the last. *)
Lemma animatingIn_finishes n running :
  ∀ s d p,
    chained n s → jobs s = [] →
    calls s !! n = Some (mkCall d (AnimatingIn running) p) →
    running ≠ [] →
    ∃ s', run (replicate (length running) (AnimationEnd n 0)) s = Some s'
          ∧ settled n s'.
Proof.
  induction running as [| an rest IH]; intros s d p Hc Hj Ek Hne;
    [contradiction |].
  assert (n < length (calls s))%nat as Hn by (eapply lookup_lt_Some, Ek).
  simpl. rewrite Ek. simpl.
  set (s1 := set_app (animationEnd an (app s)) s).
  assert (chained n s1) as Hc1 by exact Hc.
  destruct rest as [| an' rest'].
  - simpl. eexists. split; [reflexivity |].
    apply resolve_settled; assumption.
  - apply (IH _ d p).
    + apply chained_set_phase, Hc1.
    + exact Hj.
    + unfold set_phase, s1. simpl. rewrite list_lookup_alter_eq, Ek. reflexivity.
    + discriminate.
Qed.

Lemma animateIn_finishes n s c :
  chained n s → jobs s = [] → calls s !! n = Some c →
  ∃ m s', run (replicate m (AnimationEnd n 0)) (animateIn n s) = Some s'
          ∧ settled n s'.
Proof.
  intros Hc Hj Ek.
  assert (n < length (calls s))%nat as Hn by (eapply lookup_lt_Some, Ek).
  unfold animateIn. destruct (animations inDepths (app s)) as [| an rest] eqn:Ea.
  - exists 0%nat. eexists. split; [reflexivity |].
    apply resolve_settled; assumption.
  - exists (length (an :: rest)).
    destruct c as [d ph p].
    apply (animatingIn_finishes n (an :: rest) _ d p).
    + apply chained_set_phase, Hc.
    + exact Hj.
    + unfold set_phase. simpl. rewrite list_lookup_alter_eq, Ek. reflexivity.
    + discriminate.
Qed.

(** Whatever the outcome of the fetch, its delivery takes the call to the
    animation in. *)
Lemma deliver_reaches_animateIn n o s d p offset h :
  chained n s → jobs s = [] → sceneDisposed (app s) = false →
  calls s !! n = Some (mkCall d (Loading (AwaitFetch offset h)) p) →
  ∃ s2 c2, run (deliver n o) s = Some (animateIn n s2)
           ∧ chained n s2 ∧ jobs s2 = [] ∧ calls s2 !! n = Some c2.
Proof.
  intros Hc Hj Hd Ek.
  destruct o as [| | | b]; unfold deliver; simpl; rewrite Ek; simpl.
  - exists (set_app (fetchDone_call h (clock s) (app s)) s). eexists.
    split; [reflexivity |]. split; [exact Hc |]. split; [exact Hj | exact Ek].
  - exists (set_app (fetchDone_call h (clock s) (app s)) s). eexists.
    split; [reflexivity |]. split; [exact Hc |]. split; [exact Hj | exact Ek].
  - rewrite list_lookup_alter_eq, Ek. simpl.
    eexists. eexists. split; [reflexivity |].
    split; [apply chained_set_phase, Hc |]. split; [exact Hj |].
    simpl. rewrite list_lookup_alter_eq, Ek. reflexivity.
  - rewrite Hd. simpl. rewrite list_lookup_alter_eq, Ek. simpl.
    destruct b as [| data]; simpl;
      (eexists; eexists; split; [reflexivity |];
       split; [apply chained_set_phase, Hc |]; split; [exact Hj |];
       simpl; rewrite list_lookup_alter_eq, Ek; reflexivity).
Qed.

(** The job handed over starts the next call. *)
Lemma settled_next_starts n s c :
  settled n s → calls s !! S n = Some c →
  ∃ s', step Job s = Some s'
        ∧ ∃ c', calls s' !! S n = Some c' ∧ started c'.
Proof.
  intros [_ Hnext] Ec. destruct (Hnext c Ec) as [Eq Ej].
  destruct c as [d ph p]. simpl in Eq. subst ph.
  simpl. rewrite Ej, Ec.
  eexists. split; [reflexivity |].
  destruct (animateOut_advances Math_random VITE_MICROCMS_API_KEY DEV (S n) d
              (mkState (app s) (clock s) (promises s) (slideQueue s) (calls s)
                       [] (initialLoad s) (requested s)))
    as (s1 & Hv & H).
  unfold queueView in Hv. simpl in Hv. injection Hv as _ _ Ecalls _.
  destruct H as [-> | (ph & [Hq Hr] & ->)].
  - unfold resolve, set_phase. simpl.
    rewrite list_lookup_alter_eq, Ecalls, Ec. simpl.
    eexists. split; [reflexivity | discriminate].
  - unfold set_phase. simpl.
    rewrite list_lookup_alter_eq, Ecalls, Ec. simpl.
    eexists. split; [reflexivity | exact Hq].
Qed.

(** C4. Take any state the program can reach in which the work of call [k]
    waits for its fetch.  However the fetch comes out (abort, network
    error, response that is not ok, body that does not parse, or a page), its
    delivery and the end of the animations in resolve the call; and if a
    further call is queued, its job is next and starts its work. *)
Theorem fetch_outcome_resolves_call
    (r0 : Registry.t) (t0 : Z) (es : list event) (s : State)
    (k : nat) (c : call) (offset : Z) (h : Registry.handle) (o : outcome) :
  run es (boot r0 t0) = Some s →
  calls s !! k = Some c →
  phase_of c = Loading (AwaitFetch offset h) →
  ∃ m s',
    run (deliver k o ++ replicate m (AnimationEnd k 0)) s = Some s'
    ∧ (∃ c', calls s' !! k = Some c' ∧ phase_of c' = Resolved)
    ∧ (∀ c1, calls s' !! S k = Some c1 →
         ∃ s'', step Job s' = Some s''
                ∧ ∃ c2, calls s'' !! S k = Some c2 ∧ started c2).
Proof.
  intros Hr Ek Eph.
  pose proof (wellQueued_run Math_random formatDate VITE_MICROCMS_API_KEY DEV
                es _ _ (wellQueued_boot Math_random VITE_MICROCMS_API_KEY DEV r0 t0) Hr)
    as (n & Hc & Hf).
  pose proof (aligned_run Math_random formatDate VITE_MICROCMS_API_KEY DEV
                es _ _ (aligned_boot Math_random VITE_MICROCMS_API_KEY DEV r0 t0) Hr)
    as (_ & _ & _ & _ & Hd).
  destruct (active_is_front n s k c Hc Hf Ek) as (-> & Hn & Hj).
  { rewrite Eph. split; discriminate. }
  destruct c as [d ph p]. simpl in Eph. subst ph.
  destruct (deliver_reaches_animateIn n o s d p offset h Hc Hj Hd Ek)
    as (s2 & c2 & Hrun & Hc2 & Hj2 & Ek2).
  destruct (animateIn_finishes n s2 c2 Hc2 Hj2 Ek2) as (m & s' & Hrun' & Hs').
  exists m, s'. split.
  - rewrite run_app, Hrun. simpl. exact Hrun'.
  - split; [apply Hs' |].
    intros c1 E1. eapply settled_next_starts; eassumption.
Qed.

End WithEnvironment.

End ProgressProps.

(** ** The theorems at work on the sample data *)

Module Witnesses.

Import Work Scene Gallery Slide Spec Session Range Samples Examples.

Lemma midFetch_runs :
  run random plainDate apiKey false midFetch mounted = Some (reached midFetch).
Proof. vm_compute. reflexivity. Qed.

Lemma midFetch_forwardCall : calls (reached midFetch) !! 0%nat = Some forwardCall.
Proof. vm_compute. reflexivity. Qed.

(** C1 on the sample run: two clicks in a row, the first transition waiting
    for its page, the second still queued. *)
Lemma pageSlide_serialized_witness :
  run random plainDate apiKey false midFetch mounted = Some (reached midFetch)
  ∧ serialized (reached midFetch)
  ∧ singleFlight (reached midFetch)
  ∧ phase_of <$> calls (reached midFetch)
    = [Loading (AwaitFetch 3 (Registry.Done "/.netlify/functions/microcms?limit=3&offset=3"));
       Queued].
Proof.
  split; [exact midFetch_runs |].
  destruct (QueueProps.pageSlide_serialized random plainDate apiKey false
              Registry.empty 0 midFetch (reached midFetch) midFetch_runs)
    as (Hs & Hf & _).
  split; [exact Hs |]. split; [exact Hf |].
  vm_compute. reflexivity.
Defined.

(** C2 with seven items: forward from the last page, and backward from
    the second page. *)
Lemma nextOffset_wraps_witness :
  - 2 ^ 52 ≤ 6 ≤ 2 ^ 52
  ∧ 0 ≤ 7 ≤ 2 ^ 52
  ∧ JS.integer (nextOffset64 (JS.num 6) (JS.num 7) Forward) = Some 0
  ∧ JS.integer (nextOffset64 (JS.num 3) (JS.num 7) Backward) = Some 0.
Proof.
  assert (- 2 ^ 52 ≤ 6 ≤ 2 ^ 52) as H6 by lia.
  assert (- 2 ^ 52 ≤ 3 ≤ 2 ^ 52) as H3 by lia.
  assert (0 ≤ 7 ≤ 2 ^ 52) as H7 by lia.
  split; [exact H6 |]. split; [exact H7 |].
  destruct (NextOffsetProps.nextOffset_wraps 6 7 Forward H6 H7)
    as (_ & _ & _ & Hf & _).
  destruct (NextOffsetProps.nextOffset_wraps 3 7 Backward H3 H7)
    as (_ & _ & _ & _ & Hb & _).
  split; [apply Hf; simpl; lia | apply Hb; simpl; lia].
Defined.

(** C3 on the bound gallery: the fetch of offset 3 is answered with a
    response that is not ok. *)
Lemma failed_fetch_keeps_gallery_witness :
  apiKey = Some "secret"
  ∧ "secret" ≠ ""
  ∧ sceneDisposed bound = false
  ∧ failed FetchNotOk = true
  ∧ ∃ l a',
      (loadPhotos random apiKey false 3 10 bound).1 = Some l
      ∧ settleAll random plainDate (Some l) (resumptions FetchNotOk) 20
          (loadPhotos random apiKey false 3 10 bound).2 = Some (None, a')
      ∧ photoEntries a' = photoEntries bound
      ∧ pageOffset a' = pageOffset bound
      ∧ Gallery.totalCount a' = Gallery.totalCount bound.
Proof.
  assert ("secret" ≠ "") as Hne by discriminate.
  assert (sceneDisposed bound = false) as Hd by (vm_compute; reflexivity).
  split; [reflexivity |]. split; [exact Hne |]. split; [exact Hd |].
  split; [reflexivity |].
  destruct (LoaderProps.failed_fetch_keeps_gallery random plainDate apiKey false
              FetchNotOk "secret" 3 10 20 bound eq_refl Hne Hd eq_refl)
    as (l & a' & H1 & H2 & H3 & H4 & H5 & _).
  exists l, a'. split_and!; assumption.
Defined.

(** C4 on the sample run: the fetch of the first transition is aborted. *)
Lemma fetch_outcome_resolves_call_witness :
  run random plainDate apiKey false midFetch mounted = Some (reached midFetch)
  ∧ calls (reached midFetch) !! 0%nat = Some forwardCall
  ∧ ∃ m s',
      run random plainDate apiKey false
        (deliver 0 FetchAborted ++ replicate m (AnimationEnd 0 0))
        (reached midFetch) = Some s'
      ∧ (∃ c', calls s' !! 0%nat = Some c' ∧ phase_of c' = Resolved)
      ∧ (∀ c1, calls s' !! 1%nat = Some c1 →
           ∃ s'', step random plainDate apiKey false Job s' = Some s''
                  ∧ ∃ c2, calls s'' !! 1%nat = Some c2 ∧ started c2).
Proof.
  split; [exact midFetch_runs |]. split; [exact midFetch_forwardCall |].
  exact (ProgressProps.fetch_outcome_resolves_call random plainDate apiKey false
           Registry.empty 0 midFetch (reached midFetch) 0 forwardCall 3 _
           FetchAborted midFetch_runs midFetch_forwardCall eq_refl).
Defined.

(** C5 on a fresh registry: the key of an image is registered, another
    image is registered and the first one completes, then the key comes
    again. *)
Lemma registerAsset_same_key_twice_witness :
  "images/a.jpg" ≠ ""
  ∧ let first := Registry.registerAsset (Some "images/a.jpg") "x" 0 Registry.empty in
    let r1 :=
      session [OpRegister (Some "images/b.jpg") "y" 5;
               OpInvoke (Registry.Done "images/a.jpg") 6]
              first.2 in
    let second := Registry.registerAsset (Some "images/a.jpg") "z" 7 r1 in
    first.1 = Registry.Done "images/a.jpg"
    ∧ Registry.totalAssets first.2 = 1%nat
    ∧ second.1 = Registry.Noop
    ∧ Registry.totalAssets second.2 = Registry.totalAssets r1
    ∧ Registry.totalAssets r1 = 2%nat
    ∧ Registry.invoke second.1 8 second.2 = second.2
    ∧ Registry.loadedAssets (Registry.invoke second.1 8 second.2)
      = Registry.loadedAssets r1
    ∧ is_Some (Registry.loadingOverlay second.2).
Proof.
  assert ("images/a.jpg" ≠ "") as Hne by discriminate.
  split; [exact Hne |].
  destruct (RegistryProps.registerAsset_same_key_twice "images/a.jpg" "x" "z" 0 7 8
              [OpRegister (Some "images/b.jpg") "y" 5;
               OpInvoke (Registry.Done "images/a.jpg") 6]
              Registry.empty Hne)
    as (H1 & H2 & H3 & _ & H5 & H6 & H7).
  destruct H1 as [H1 H1']; [apply not_elem_of_empty |].
  cbv zeta. split_and!; try assumption; vm_compute; reflexivity.
Defined.



(** C8 on an item without width and with height 0, bound to slot 1. *)
Lemma createOrUpdateEntry_missing_dimensions_witness :
  photo sizeless = Some (mkImage "https://img/4.jpg" None (Some 0%float))
  ∧ (createOrUpdateEntry random plainDate sizeless 1 0 bound).1 = Returned
  ∧ planeSize sizeless = (0.5%float, 0.5%float).
Proof.
  split; [reflexivity |].
  destruct (SlotProps.createOrUpdateEntry_missing_dimensions random plainDate
              sizeless _ 1 0 bound eq_refl) as (Hr & _ & Hs).
  split; [exact Hr |].
  apply Hs; [right | left]; reflexivity.
Defined.

Lemma midFetch_within : Forall deliversWithin midFetch.
Proof.
  unfold midFetch, twoClicks, initialLoadDone. simpl.
  repeat (constructor;
          [first [exact I | unfold deliversWithin, countWithin; simpl; lia] |]).
  constructor.
Qed.

(** C9 on the sample run, whose one page reports seven items: offsets 0 and
    3 were requested, 0 is stored, and forward from there the program
    computes 3. *)
Lemma offsets_are_multiples_of_3_witness :
  Forall deliversWithin midFetch
  ∧ run random plainDate apiKey false midFetch mounted = Some (reached midFetch)
  ∧ (3 | pageOffset (app (reached midFetch)))
  ∧ Forall (λ offset, (3 | offset)) (requested (reached midFetch))
  ∧ requested (reached midFetch) = [0; 3]
  ∧ nextOffset64 (JS.num (pageOffset (app (reached midFetch))))
      (JS.num (Gallery.totalCount (app (reached midFetch)))) Forward
    = JS.num 3.
Proof.
  split; [exact midFetch_within |]. split; [exact midFetch_runs |].
  destruct (PagingProps.offsets_are_multiples_of_3 random plainDate apiKey false
              Registry.empty 0 midFetch (reached midFetch) midFetch_within
              midFetch_runs)
    as (Hp & Hr & _ & _ & _ & He).
  split; [exact Hp |]. split; [exact Hr |].
  split; [vm_compute; reflexivity |].
  rewrite He. vm_compute. reflexivity.
Defined.

(** C10 on the bound gallery: rebinding or hiding slot 0 leaves slot 2. *)
Lemma slot_operations_are_local_witness :
  (0 < length (photoEntries bound))%nat
  ∧ 0%nat ≠ 2%nat
  ∧ photoEntries (createOrUpdateEntry random plainDate landscape 0 0 bound).2 !! 2%nat
    = photoEntries bound !! 2%nat
  ∧ photoEntries (hideEntry 0 bound) !! 2%nat = photoEntries bound !! 2%nat.
Proof.
  assert (0 < length (photoEntries bound))%nat as Hl by (vm_compute; lia).
  assert (0%nat ≠ 2%nat) as Hne by discriminate.
  split; [exact Hl |]. split; [exact Hne |].
  destruct (SlotProps.slot_operations_are_local random plainDate landscape 0 2 0
              bound Hl Hne) as (H1 & _ & H2 & _).
  split; [exact H1 | exact H2].
Defined.

End Witnesses.

(** ** The carousel of pages *)

Module CarouselProps.

Import Slide Carousel Binary64Props.

Lemma last_page_start totalCount p :
  pageStart totalCount p → totalCount ≤ p + 3 → (totalCount - 1) / 3 * 3 = p.
Proof.
  intros [Hr [q ->]] Hle.
  assert ((totalCount - 1) / 3 = q) as ->; [| reflexivity].
  symmetry. apply Z.div_unique with (r := totalCount - 1 - 3 * q); lia.
Qed.

Lemma nextOffset_pageStart_integers totalCount p d :
  pageStart totalCount p → pageStart totalCount (nextOffset p totalCount d).
Proof.
  intros [Hr [q ->]]. unfold nextOffset, pageStart. cbv zeta.
  pose proof (Z.div_mod (totalCount - 1) 3 ltac:(lia)) as E.
  pose proof (Z.mod_pos_bound (totalCount - 1) 3 ltac:(lia)) as B.
  destruct (Z.ltb_spec (q * 3 + 3 * dirZ d) 0).
  - split; [lia |]. exists ((totalCount - 1) / 3). reflexivity.
  - destruct (Z.leb_spec totalCount (q * 3 + 3 * dirZ d)).
    + split; [lia |]. exists 0. reflexivity.
    + split; [lia |]. exists (q + dirZ d). lia.
Qed.

(** X1. With at most 2^52 items, from the start of a page a transition in
    either direction computes (in binary64, as the program does) the start
    of a page again: an integer multiple of 3 within [0, totalCount). *)
Theorem nextOffset_pageStart totalCount p d :
  totalCount ≤ 2 ^ 52 →
  pageStart totalCount p →
  ∃ q, JS.integer (nextOffset64 (JS.num p) (JS.num totalCount) d) = Some q
       ∧ pageStart totalCount q.
Proof.
  intros Ht Hp. exists (nextOffset p totalCount d).
  split; [| apply nextOffset_pageStart_integers, Hp].
  destruct Hp as [Hr _]. apply nextOffset64_integer; lia.
Qed.

Lemma nextOffset_round_trip_integers totalCount p d :
  pageStart totalCount p →
  nextOffset (nextOffset p totalCount d) totalCount (opposite d) = p.
Proof.
  intros Hp. pose proof Hp as [Hr [q Eq]].
  destruct d; simpl.
  - unfold nextOffset at 2. cbv zeta. simpl dirZ.
    destruct (Z.ltb_spec (p + 3 * 1) 0); [lia |].
    destruct (Z.leb_spec totalCount (p + 3 * 1)).
    + unfold nextOffset. cbv zeta. simpl.
      apply last_page_start; [exact Hp | lia].
    + unfold nextOffset. cbv zeta. simpl dirZ.
      destruct (Z.ltb_spec (p + 3 * 1 + 3 * -1) 0); [lia |].
      destruct (Z.leb_spec totalCount (p + 3 * 1 + 3 * -1)); lia.
  - unfold nextOffset at 2. cbv zeta. simpl dirZ.
    destruct (Z.ltb_spec (p + 3 * -1) 0).
    + assert (p = 0) as -> by lia.
      pose proof (Z.div_mod (totalCount - 1) 3 ltac:(lia)) as E.
      pose proof (Z.mod_pos_bound (totalCount - 1) 3 ltac:(lia)) as B.
      unfold nextOffset. cbv zeta. simpl dirZ.
      destruct (Z.ltb_spec ((totalCount - 1) / 3 * 3 + 3 * 1) 0); [lia |].
      destruct (Z.leb_spec totalCount ((totalCount - 1) / 3 * 3 + 3 * 1)); lia.
    + destruct (Z.leb_spec totalCount (p + 3 * -1)); [lia |].
      unfold nextOffset. cbv zeta. simpl dirZ.
      destruct (Z.ltb_spec (p + 3 * -1 + 3 * 1) 0); [lia |].
      destruct (Z.leb_spec totalCount (p + 3 * -1 + 3 * 1)); lia.
Qed.

(** X2. With at most 2^52 items, from the start of a page a transition
    followed by the transition in the opposite direction computes (in
    binary64, as the program does) the offset it started from, across both
    wrap-arounds. *)
Theorem nextOffset_round_trip totalCount p d :
  totalCount ≤ 2 ^ 52 →
  pageStart totalCount p →
  nextOffset64 (nextOffset64 (JS.num p) (JS.num totalCount) d)
    (JS.num totalCount) (opposite d)
  = JS.num p
  ∧ JS.integer (JS.num p) = Some p.
Proof.
  intros Ht Hp. pose proof Hp as [Hr _].
  pose proof (nextOffset_pageStart_integers totalCount p d Hp) as [Hr' _].
  rewrite (nextOffset64_exact p totalCount d) by lia.
  rewrite nextOffset64_exact by lia.
  rewrite (nextOffset_round_trip_integers totalCount p d Hp).
  split; [reflexivity |]. apply integer_num. unfold Binary64.exact. lia.
Qed.

(** X3. Going forward from offset 0 visits the pages in order and comes
    back to the first: after [n] transitions the offset is
    [3 * (n mod pages)], with [pages = floor((totalCount-1)/3) + 1]. *)
Theorem forward_walk_cycles totalCount (n : nat) :
  0 < totalCount →
  forwardClicks n totalCount 0 = 3 * (Z.of_nat n mod pagesOf totalCount).
Proof.
  intros Ht. unfold pagesOf.
  pose proof (Z.div_mod (totalCount - 1) 3 ltac:(lia)) as E.
  pose proof (Z.mod_pos_bound (totalCount - 1) 3 ltac:(lia)) as B.
  assert (0 ≤ (totalCount - 1) / 3) as Hq by (apply Z.div_pos; lia).
  set (P := (totalCount - 1) / 3 + 1) in *.
  induction n as [| n IH].
  - simpl. rewrite Z.mod_0_l by lia. reflexivity.
  - unfold forwardClicks in *. simpl Nat.iter. rewrite IH.
    pose proof (Z.mod_pos_bound (Z.of_nat n) P ltac:(lia)) as Bm.
    set (m := Z.of_nat n mod P) in *.
    assert (Z.of_nat (S n) mod P = (m + 1) mod P) as ->.
    { rewrite Nat2Z.inj_succ. unfold Z.succ, m.
      rewrite Zplus_mod_idemp_l. reflexivity. }
    unfold nextOffset. cbv zeta. simpl dirZ.
    destruct (Z.ltb_spec (3 * m + 3 * 1) 0); [lia |].
    destruct (Z.leb_spec totalCount (3 * m + 3 * 1)).
    + assert (m + 1 = P) as -> by lia.
      rewrite Z_mod_same_full. reflexivity.
    + rewrite Z.mod_small by lia. lia.
Qed.

End CarouselProps.

(** ** The registry over its whole life *)

Module RegistryLogProps.

Import Registry RegistryLog RegistryProps.

Lemma counted_registerAsset key rnd now r :
  counted r → counted (registerAsset key rnd now r).2.
Proof.
  intros Hc. unfold counted, registerAsset. cbv zeta.
  set (r1 := if negb (bool_decide (is_Some (loadingOverlay r))) then _ else r).
  assert (totalAssets r1 = size (registeredAssetKeys r1)) as H1.
  { subst r1. destruct (negb _); [reflexivity | exact Hc]. }
  case_bool_decide as Hin; simpl;
    match goal with
    | |- totalAssets (updateLoadingOverlay now (createLoadingOverlay now ?r2)) = _ =>
        destruct (updateLoadingOverlay_counters now (createLoadingOverlay now r2))
          as (-> & _ & ->);
        destruct (createLoadingOverlay_counters now r2) as (-> & _ & ->)
    end.
  - exact H1.
  - simpl. rewrite size_union by set_solver. rewrite size_singleton, H1. reflexivity.
Qed.

Lemma counted_invoke h now r : counted r → counted (invoke h now r).
Proof.
  intros Hc. unfold counted. rewrite invoke_keys.
  destruct h; simpl; [exact Hc |].
  match goal with
  | |- totalAssets (updateLoadingOverlay now ?r2) = _ =>
      destruct (updateLoadingOverlay_counters now r2) as (-> & _ & _)
  end.
  exact Hc.
Qed.

Lemma counted_fireTimer i now r r' :
  counted r → fireTimer i now r = Some r' → counted r'.
Proof.
  unfold fireTimer, counted. intros Hc H.
  destruct (hideTimers r !! i) as [due |]; [| discriminate].
  destruct (due <=? now); [| discriminate].
  injection H as <-. exact Hc.
Qed.

(** X4. Whatever registrations, completions and dismissal timeouts happen
    from page load on, across loading sessions, [totalAssets] is the number
    of distinct keys registered in the current session. *)
Theorem totalAssets_counts_keys ops r :
  registryRun ops Registry.empty = Some r →
  totalAssets r = size (registeredAssetKeys r).
Proof.
  assert (∀ r0, counted r0 → registryRun ops r0 = Some r → counted r) as H.
  { induction ops as [| o ops IH]; intros r0 Hc Hr; simpl in Hr.
    - injection Hr as <-. exact Hc.
    - destruct (registryStep o r0) as [r1 |] eqn:E; [| discriminate].
      simpl in Hr. apply (IH r1); [| exact Hr].
      destruct o; simpl in E.
      + injection E as <-. apply counted_registerAsset, Hc.
      + injection E as <-. apply counted_invoke, Hc.
      + eapply counted_fireTimer; eassumption. }
  apply H. reflexivity.
Qed.

Lemma percent_0_of_1 : percent 0 1 = 0.
Proof. vm_compute. reflexivity. Qed.

(** The registry after the first registration of a session. *)
Lemma registerAsset_after_dismissal key rnd now r :
  key ≠ "" →
  loadingOverlay r = None →
  registerAsset (Some key) rnd now r
  = (Done key,
     updateLoadingOverlay now
       (mk 1 0 (Some (mkOverlay "あと 100%" "0%")) now ({[key]} ∪ ∅)
           (registeredAssetDone r) (lastLoadedAssets r) (lastLoadedUpdateAt r)
           (hideTimers r))).
Proof.
  intros Hk Ho. unfold registerAsset. cbv zeta.
  assert (JS.str_or (Some key) ("asset:" +:+ rnd) = key) as ->.
  { unfold JS.str_or. destruct (String.eqb_spec key ""); congruence. }
  rewrite Ho. simpl.
  rewrite bool_decide_eq_false_2 by set_solver. reflexivity.
Qed.

(** X5. A registration while no overlay is shown starts a new session: the
    counters and keys of the previous session are dropped, the asset is the
    only one registered, none is loaded, the overlay is shown from that
    moment at 0 percent, and the pending dismissal timeouts stay pending. *)
Theorem registerAsset_new_session key rnd now r :
  key ≠ "" →
  loadingOverlay r = None →
  let reg := registerAsset (Some key) rnd now r in
  reg.1 = Done key
  ∧ totalAssets reg.2 = 1%nat
  ∧ loadedAssets reg.2 = 0%nat
  ∧ registeredAssetKeys reg.2 = {[key]}
  ∧ loadingOverlay reg.2 = Some (mkOverlay "あと 100%" "0%")
  ∧ loadingOverlayShownAt reg.2 = now
  ∧ hideTimers reg.2 = hideTimers r.
Proof.
  intros Hk Ho reg. subst reg.
  rewrite (registerAsset_after_dismissal key rnd now r Hk Ho).
  unfold updateLoadingOverlay. cbn -[percent watchdog pretty].
  destruct (watchdog now _). cbn -[percent pretty].
  rewrite percent_0_of_1.
  split_and!; try reflexivity. apply (right_id_L (∅ : gset string) (∪)).
Qed.

(** X6. A dismissal timeout left over from the previous session is not
    cancelled by a new session: when it fires it removes the overlay of the
    new session although its only asset has not loaded. *)
Theorem stale_timeout_dismisses_new_session key rnd now t i due r :
  key ≠ "" →
  loadingOverlay r = None →
  hideTimers r !! i = Some due →
  due ≤ t →
  ∃ r', fireTimer i t (registerAsset (Some key) rnd now r).2 = Some r'
        ∧ loadingOverlay r' = None
        ∧ totalAssets r' = 1%nat
        ∧ loadedAssets r' = 0%nat.
Proof.
  intros Hk Ho Hi Hd.
  rewrite (registerAsset_after_dismissal key rnd now r Hk Ho).
  unfold updateLoadingOverlay. cbn -[percent watchdog pretty].
  destruct (watchdog now _). cbn -[percent pretty].
  unfold fireTimer. cbn -[percent pretty]. rewrite Hi.
  destruct (Z.leb_spec due t); [| lia].
  eexists. split; [reflexivity |]. simpl. auto.
Qed.

Lemma imageEvents_detached times h r :
  imageEvents times (Images.mkSubscription h false) r
  = (Images.mkSubscription h false, r).
Proof.
  unfold imageEvents. induction times as [| t ts IH]; [reflexivity |]. exact IH.
Qed.

(** X7. However many [load] and [error] events a registered image fires,
    its asset is counted as loaded once, at the first event; from then on
    the listeners are detached and later events change nothing. *)
Theorem registerImage_completes_once src key rnd now r t ts :
  let reg := Images.registerImage src key rnd now r in
  imageEvents (t :: ts) reg.1 reg.2
  = (Images.mkSubscription (Images.done reg.1) false,
     invoke (Images.done reg.1) t reg.2).
Proof.
  cbv zeta. unfold Images.registerImage.
  destruct (registerAsset _ rnd now r) as [h r1]. simpl.
  unfold imageEvents. simpl. apply imageEvents_detached.
Qed.

End RegistryLogProps.

(** ** The content proxy *)

Module ProxyProps.

Import Proxy.

(** X8. Without an API key (unset or empty) the proxy answers 500 with no
    headers and never contacts the content API: its response is the same
    for every query and every behaviour of the upstream. *)
Theorem handler_fails_closed apiKey rawQuery fetch :
  apiKey = None ∨ apiKey = Some "" →
  statusCode (handler apiKey rawQuery fetch) = 500
  ∧ headers (handler apiKey rawQuery fetch) = []
  ∧ ∀ rawQuery' fetch',
      handler apiKey rawQuery' fetch' = handler apiKey rawQuery fetch.
Proof.
  intros [-> | ->]; repeat split.
Qed.

Lemma rawQuery_of_production_endpoint offset :
  rawQueryOf (Gallery.endpoint false offset)
  = Some ("limit=3&offset=" +:+ pretty offset).
Proof. reflexivity. Qed.

(** X9. In production the gallery asks the proxy, and the proxy asks the
    content API for exactly the url the gallery fetches directly in
    development, with the key in the header; it passes the status and the
    body on unchanged (also when the status is not ok) and turns an
    exception into a 500. *)
Theorem proxy_reaches_direct_endpoint key offset fetch :
  key ≠ "" →
  handler (Some key) (rawQueryOf (Gallery.endpoint false offset)) fetch
  = match fetch (Gallery.endpoint true offset) key with
    | Answer status ok text => mkResponse status corsHeaders (Verbatim text)
    | Failure message =>
        mkResponse 500 []
          (ErrorObject "Failed to fetch from MicroCMS" None (Some message))
    end.
Proof.
  intros Hk. unfold handler.
  assert (JS.str_or (Some key) "" = key) as ->.
  { unfold JS.str_or. destruct (String.eqb_spec key ""); congruence. }
  destruct (String.eqb_spec key ""); [contradiction |].
  rewrite rawQuery_of_production_endpoint.
  reflexivity.
Qed.

End ProxyProps.

(** ** Binding a page to the slots *)

Module BindingProps.
Import Work Scene Gallery Slide Spec Slots SlotProps.

Lemma hideEntry_slot i a :
  JS.array_get (photoEntries (hideEntry i a)) i
  = hidden <$> JS.array_get (photoEntries a) i.
Proof.
  rewrite hideEntry_entries.
  destruct (JS.array_get (photoEntries a) i) as [e |] eqn:E.
  - apply array_get_Some_in_range in E as [Hlt _].
    unfold JS.array_get. rewrite list_lookup_insert_eq by assumption. reflexivity.
  - rewrite E. reflexivity.
Qed.

Lemma hideEntry_other i j a :
  i ≠ j →
  JS.array_get (photoEntries (hideEntry i a)) j = JS.array_get (photoEntries a) j.
Proof.
  intros Hne. rewrite hideEntry_entries.
  destruct (JS.array_get (photoEntries a) i); [| reflexivity].
  unfold JS.array_get. rewrite list_lookup_insert_ne by assumption. reflexivity.
Qed.

Lemma hideEntry_length i a :
  length (photoEntries (hideEntry i a)) = length (photoEntries a).
Proof.
  rewrite hideEntry_entries.
  destruct (JS.array_get (photoEntries a) i); [apply length_insert | reflexivity].
Qed.

Lemma hideEntry_disposed i a : sceneDisposed (hideEntry i a) = sceneDisposed a.
Proof.
  unfold hideEntry. destruct (JS.array_get (photoEntries a) i); reflexivity.
Qed.

Section WithEnvironment.

Variable Math_random : nat → string.
Variable formatDate : string → string.
Variable VITE_MICROCMS_API_KEY : option string.
Variable DEV : bool.

#[local] Abbreviation createOrUpdateEntry :=
  (createOrUpdateEntry Math_random formatDate).
#[local] Abbreviation bindItems := (bindItems Math_random formatDate).
#[local] Abbreviation loadPhotos_bind := (loadPhotos_bind Math_random formatDate).

Lemma createOrUpdateEntry_other work i j now a :
  i ≠ j →
  JS.array_get (photoEntries (createOrUpdateEntry work i now a).2) j
  = JS.array_get (photoEntries a) j.
Proof.
  intros Hne. rewrite createOrUpdateEntry_entries.
  destruct (sceneDisposed a); [reflexivity |]. cbv zeta.
  assert (JS.array_get
            (match JS.array_get (photoEntries a) i with
             | Some _ => <[i := None]> (photoEntries a)
             | None => photoEntries a
             end) j = JS.array_get (photoEntries a) j) as Hc.
  { destruct (JS.array_get (photoEntries a) i); [| reflexivity].
    unfold JS.array_get. rewrite list_lookup_insert_ne by assumption. reflexivity. }
  destruct (photo work); [| exact Hc].
  rewrite array_get_set_ne by assumption. exact Hc.
Qed.

Lemma createOrUpdateEntry_slot work i now a :
  sceneDisposed a = false →
  JS.array_get (photoEntries (createOrUpdateEntry work i now a).2) i
  = (λ img, buildEntry formatDate work img i (created a)) <$> photo work.
Proof.
  intros Hd. rewrite createOrUpdateEntry_entries, Hd. cbv zeta.
  destruct (photo work) as [img |]; simpl.
  - apply array_get_set_eq.
  - destruct (JS.array_get (photoEntries a) i) as [e |] eqn:E; [| exact E].
    apply array_get_Some_in_range in E as [Hlt _].
    unfold JS.array_get. rewrite list_lookup_insert_eq by assumption. reflexivity.
Qed.

Lemma createOrUpdateEntry_length work i now a :
  (i < length (photoEntries a))%nat →
  length (photoEntries (createOrUpdateEntry work i now a).2)
  = length (photoEntries a).
Proof.
  intros Hi. rewrite createOrUpdateEntry_entries.
  destruct (sceneDisposed a); [reflexivity |]. cbv zeta.
  destruct (JS.array_get (photoEntries a) i), (photo work);
    rewrite ?array_set_in_range by (rewrite ?length_insert; assumption);
    rewrite ?length_insert; reflexivity.
Qed.

Lemma createOrUpdateEntry_disposed work i now a :
  sceneDisposed (createOrUpdateEntry work i now a).2 = sceneDisposed a.
Proof.
  pose proof (PagingProps.createOrUpdateEntry_pageView Math_random formatDate
                work i now a) as H.
  unfold pageView in H. congruence.
Qed.

(** The loop, unrolled in two parts. *)
Lemma bindItems_app items n m :
  ∀ i now a,
    bindItems items i (n + m) now a
    = match bindItems items i n now a with
      | (Returned, a') => bindItems items (i + n) m now a'
      | (Thrown, a') => (Thrown, a')
      end.
Proof.
  induction n as [| n IH]; intros i now a; simpl.
  - rewrite Nat.add_0_r. reflexivity.
  - destruct (JS.array_get items i) as [work |].
    + destruct (createOrUpdateEntry work i now a) as [[] a'].
      * rewrite IH. replace (S i + n)%nat with (i + S n)%nat by lia. reflexivity.
      * reflexivity.
    + rewrite IH. replace (S i + n)%nat with (i + S n)%nat by lia. reflexivity.
Qed.

(** A stretch of the loop over items that all have their photo. *)
Lemma bindItems_binds items now n :
  ∀ i a,
    sceneDisposed a = false →
    (∀ j work, (i ≤ j < i + n)%nat → JS.array_get items j = Some work →
               is_Some (photo work)) →
    (bindItems items i n now a).1 = Returned
    ∧ sceneDisposed (bindItems items i n now a).2 = false
    ∧ (∀ j, (j < i ∨ i + n ≤ j)%nat →
            JS.array_get (photoEntries (bindItems items i n now a).2) j
            = JS.array_get (photoEntries a) j)
    ∧ (∀ j, (i ≤ j < i + n)%nat →
            slotAfterPage formatDate (JS.array_get items j) j
              (JS.array_get (photoEntries a) j)
              (JS.array_get (photoEntries (bindItems items i n now a).2) j)).
Proof.
  induction n as [| n IH]; intros i a Hd Hp; simpl.
  - split_and!; try reflexivity; [exact Hd | intros; lia].
  - destruct (JS.array_get items i) as [work |] eqn:Ei.
    + destruct (Hp i work ltac:(lia) Ei) as [img Eimg].
      pose proof (createOrUpdateEntry_completion Math_random formatDate work i now a)
        as Hc.
      pose proof (createOrUpdateEntry_disposed work i now a) as Hd1.
      pose proof (createOrUpdateEntry_slot work i now a Hd) as Hs.
      pose proof (λ j, createOrUpdateEntry_other work i j now a) as Ho.
      rewrite Hd, Eimg in Hc. rewrite Eimg in Hs.
      destruct (createOrUpdateEntry work i now a) as [c a']. simpl in *. subst c.
      destruct (IH (S i) a') as (H1 & H2 & H3 & H4).
      { congruence. }
      { intros j w Hj. apply Hp. lia. }
      split_and!; try assumption.
      * intros j Hj. rewrite H3 by lia. apply Ho. lia.
      * intros j Hj. destruct (decide (j = i)) as [-> | Hne].
        -- rewrite H3 by lia. rewrite Ei. simpl. eauto.
        -- specialize (H4 j ltac:(lia)). rewrite Ho in H4 by lia. exact H4.
    + destruct (IH (S i) (hideEntry i a)) as (H1 & H2 & H3 & H4).
      { rewrite hideEntry_disposed. exact Hd. }
      { intros j w Hj. apply Hp. lia. }
      split_and!; try assumption.
      * intros j Hj. rewrite H3 by lia. apply hideEntry_other. lia.
      * intros j Hj. destruct (decide (j = i)) as [-> | Hne].
        -- rewrite H3 by lia. rewrite Ei. simpl. apply hideEntry_slot.
        -- specialize (H4 j ltac:(lia)).
           rewrite hideEntry_other in H4 by lia. exact H4.
Qed.

(** X10. Binding a page whose first three items all have their photo
    stores the offset and the total count, puts a newly built entry in the
    slot of every item that is present, hides (without removing) the entry
    of every slot the page has no item for, and touches no slot beyond the
    third. *)
Theorem page_binds_and_hides offset h data items now a :
  sceneDisposed a = false →
  contents data = Some items →
  (∀ j work, (j < 3)%nat → JS.array_get items j = Some work →
             is_Some (photo work)) →
  let a' := loadPhotos_bind offset h data now a in
  pageOffset a' = offset
  ∧ Gallery.totalCount a' = default 0 (Work.totalCount data)
  ∧ (∀ j, (j < 3)%nat →
          slotAfterPage formatDate (JS.array_get items j) j
            (JS.array_get (photoEntries a) j)
            (JS.array_get (photoEntries a') j))
  ∧ (∀ j, (3 ≤ j)%nat →
          JS.array_get (photoEntries a') j = JS.array_get (photoEntries a) j).
Proof.
  intros Hd Hc Hp a'. subst a'. unfold Gallery.loadPhotos_bind. rewrite Hc.
  set (a1 := set_page offset (default 0 (Work.totalCount data)) a).
  destruct (bindItems_binds items now 3 0 a1) as (_ & _ & H3 & H4).
  { exact Hd. }
  { intros j w Hj. apply Hp. lia. }
  pose proof (PagingProps.bindItems_pageView Math_random formatDate items 0 3 now a1)
    as Hv.
  destruct (bindItems items 0 3 now a1) as [c a2]. simpl in *.
  unfold pageView in Hv. simpl in Hv. injection Hv as _ Hpo Htc.
  split_and!; try assumption.
  - intros j Hj. apply H4. lia.
  - intros j Hj. apply H3. lia.
Qed.

(** X11. An item without a photo makes the binding of a page stop there:
    the offset and the total count are already those of the new page, the
    slots before the item show the new page, the slot of the item is
    emptied, and the slots after it still hold the entries of the previous
    page. *)
Theorem photoless_item_stops_binding offset h data items now a i work :
  sceneDisposed a = false →
  contents data = Some items →
  (i < 3)%nat →
  JS.array_get items i = Some work →
  photo work = None →
  (∀ j w, (j < i)%nat → JS.array_get items j = Some w → is_Some (photo w)) →
  let a' := loadPhotos_bind offset h data now a in
  pageOffset a' = offset
  ∧ Gallery.totalCount a' = default 0 (Work.totalCount data)
  ∧ (∀ j, (j < i)%nat →
          slotAfterPage formatDate (JS.array_get items j) j
            (JS.array_get (photoEntries a) j)
            (JS.array_get (photoEntries a') j))
  ∧ JS.array_get (photoEntries a') i = None
  ∧ (∀ j, (i < j)%nat →
          JS.array_get (photoEntries a') j = JS.array_get (photoEntries a) j).
Proof.
  intros Hd Hc Hi Ei Ew Hp a'. subst a'. unfold Gallery.loadPhotos_bind. rewrite Hc.
  set (a1 := set_page offset (default 0 (Work.totalCount data)) a).
  pose proof (PagingProps.bindItems_pageView Math_random formatDate items 0 3 now a1)
    as Hv.
  assert (bindItems items 0 3 now a1
          = match bindItems items 0 i now a1 with
            | (Returned, a') => bindItems items (0 + i) (S (2 - i)) now a'
            | (Thrown, a') => (Thrown, a')
            end) as E3.
  { rewrite <- bindItems_app. f_equal. lia. }
  set (res := bindItems items 0 3 now a1) in *. clearbody res.
  destruct (bindItems_binds items now i 0 a1) as (H1 & H2 & H3 & H4).
  { exact Hd. }
  { intros j w Hj. apply Hp. lia. }
  destruct (bindItems items 0 i now a1) as [c a2]. simpl in H1, H2, H3, H4.
  subst c. simpl in E3. rewrite Ei in E3.
  pose proof (createOrUpdateEntry_completion Math_random formatDate work i now a2)
    as Hcomp.
  pose proof (createOrUpdateEntry_slot work i now a2 H2) as Hs.
  pose proof (λ j, createOrUpdateEntry_other work i j now a2) as Ho.
  rewrite H2, Ew in Hcomp. rewrite Ew in Hs.
  destruct (createOrUpdateEntry work i now a2) as [c a3]. simpl in Hcomp, Hs, Ho.
  subst c res. cbn [snd fetchDone_call set_registry photoEntries
    pageOffset Gallery.totalCount].
  unfold pageView in Hv. cbn [snd] in Hv. injection Hv as _ Hpo Htc.
  split_and!.
  - exact Hpo.
  - exact Htc.
  - intros j Hj. rewrite Ho by lia. apply H4. lia.
  - exact Hs.
  - intros j Hj. rewrite Ho by lia. apply H3. lia.
Qed.

End WithEnvironment.
End BindingProps.

(** ** The state machine as a whole *)

Module MachineProps.
Import Work Scene Gallery Slide Spec Slots Carousel SlotProps BindingProps.

Lemma animationEnd_length an a :
  length (photoEntries (animationEnd an a)) = length (photoEntries a).
Proof.
  unfold animationEnd.
  destruct (JS.array_get (photoEntries a) (slot an)) as [e |]; [| reflexivity].
  destruct (serial e =? owner an)%nat; [apply length_insert | reflexivity].
Qed.

Lemma app_set_phase k ph s : app (set_phase k ph s) = app s.
Proof. reflexivity. Qed.

Lemma app_resolve k s : app (resolve k s) = app s.
Proof. reflexivity. Qed.

Lemma app_animateIn k s : app (animateIn k s) = app s.
Proof. unfold animateIn. destruct (animations inDepths (app s)); reflexivity. Qed.

Lemma directions_set_phase k ph s :
  direction_of <$> calls (set_phase k ph s) = direction_of <$> calls s.
Proof.
  unfold set_phase. simpl. apply list_eq. intros j.
  rewrite !list_lookup_fmap, list_lookup_alter.
  case_decide; [subst j |]; destruct (calls s !! _); reflexivity.
Qed.

Lemma directions_resolve k s :
  direction_of <$> calls (resolve k s) = direction_of <$> calls s.
Proof. unfold resolve. simpl. apply (directions_set_phase k Resolved s). Qed.

Lemma directions_animateIn k s :
  direction_of <$> calls (animateIn k s) = direction_of <$> calls s.
Proof.
  unfold animateIn. destruct (animations inDepths (app s)).
  - apply directions_resolve.
  - apply directions_set_phase.
Qed.

Section WithEnvironment.

Variable Math_random : nat → string.
Variable formatDate : string → string.
Variable VITE_MICROCMS_API_KEY : option string.
Variable DEV : bool.

#[local] Abbreviation bindItems := (bindItems Math_random formatDate).
#[local] Abbreviation loadPhotos := (loadPhotos Math_random VITE_MICROCMS_API_KEY DEV).
#[local] Abbreviation loadPhotos_resume := (loadPhotos_resume Math_random formatDate).
#[local] Abbreviation fetchNext := (fetchNext Math_random VITE_MICROCMS_API_KEY DEV).
#[local] Abbreviation animateOut := (animateOut Math_random VITE_MICROCMS_API_KEY DEV).
#[local] Abbreviation step := (step Math_random formatDate VITE_MICROCMS_API_KEY DEV).
#[local] Abbreviation run := (run Math_random formatDate VITE_MICROCMS_API_KEY DEV).
#[local] Abbreviation boot := (boot Math_random VITE_MICROCMS_API_KEY DEV).

Lemma bindItems_length items now n :
  ∀ i a, (i + n ≤ length (photoEntries a))%nat →
         length (photoEntries (bindItems items i n now a).2)
         = length (photoEntries a).
Proof.
  induction n as [| n IH]; intros i a Hl; simpl; [reflexivity |].
  destruct (JS.array_get items i) as [work |].
  - pose proof (createOrUpdateEntry_length Math_random formatDate work i now a
                  ltac:(lia)) as H.
    destruct (createOrUpdateEntry Math_random formatDate work i now a) as [[] a'];
      simpl in *; [| exact H].
    rewrite IH by lia. exact H.
  - rewrite IH by (rewrite hideEntry_length; lia). apply hideEntry_length.
Qed.

Lemma loadPhotos_entries offset now a :
  photoEntries (loadPhotos offset now a).2 = photoEntries a.
Proof.
  apply (LoaderProps.loadPhotos_gallery Math_random VITE_MICROCMS_API_KEY DEV).
Qed.

Lemma loadPhotos_resume_length l ev now a l' a' :
  length (photoEntries a) = 3%nat →
  loadPhotos_resume l ev now a = Some (l', a') →
  length (photoEntries a') = 3%nat.
Proof.
  intros H3 H. destruct (parsed ev) eqn:Ep.
  - destruct ev as [| [| data] |]; try discriminate Ep.
    destruct l; simpl in H; try discriminate H.
    injection H as <- <-. unfold loadPhotos_bind.
    destruct (contents data) as [items |]; [| exact H3].
    pose proof (bindItems_length items now 3 0
                  (set_page offset (default 0 (Work.totalCount data)) a)
                  ltac:(simpl; lia)) as Hl.
    destruct (bindItems _ _ _ _ _) as [c a2]. simpl in *. congruence.
  - destruct (LoaderProps.loadPhotos_resume_gallery Math_random formatDate
                _ _ _ _ _ _ Ep H) as (-> & _). exact H3.
Qed.

Lemma entries_fetchNext k d s :
  photoEntries (app (fetchNext k d s)) = photoEntries (app s).
Proof.
  unfold Slide.fetchNext.
  pose proof (loadPhotos_entries
                (nextOffset (pageOffset (app s)) (Gallery.totalCount (app s)) d)
                (clock s) (app s)) as H.
  destruct (loadPhotos _ _ _) as [[l |] a]; simpl in H.
  - exact H.
  - rewrite app_animateIn. exact H.
Qed.

Lemma entries_animateOut k d s :
  photoEntries (app (animateOut k d s)) = photoEntries (app s).
Proof.
  unfold Slide.animateOut. destruct (animations outDepths (app s)).
  - apply entries_fetchNext.
  - reflexivity.
Qed.

Lemma threeSlots_step e s s' :
  length (photoEntries (app s)) = 3%nat → step e s = Some s' →
  length (photoEntries (app s')) = 3%nat.
Proof.
  intros H Hs. destruct e as [ms | d | | k i | [| k] ev | i | i]; simpl in Hs.
  - destruct (0 <=? ms); [| discriminate]. injection Hs as <-. exact H.
  - unfold pageSlide in Hs.
    destruct (promises s !! slideQueue s) as [[rs |] |]; try discriminate;
      injection Hs as <-; exact H.
  - destruct (jobs s) as [| k rest]; [discriminate |].
    destruct (calls s !! k) as [[d [] p] |]; try discriminate.
    injection Hs as <-. rewrite entries_animateOut. exact H.
  - destruct (calls s !! k) as [[d ph p] |]; [| discriminate].
    destruct ph as [| running | | running |]; try discriminate;
      (destruct (running !! i) as [an |]; [| discriminate]);
      pose proof (animationEnd_length an (app s)) as Hl;
      destruct (delete i running); injection Hs as <-;
      rewrite ?entries_fetchNext; simpl; congruence.
  - destruct (initialLoad s) as [l |]; [| discriminate]. simpl in Hs.
    destruct (loadPhotos_resume l ev (clock s) (app s)) as [[l' a] |] eqn:Er;
      [| discriminate].
    simpl in Hs. injection Hs as <-. simpl.
    eapply loadPhotos_resume_length; eassumption.
  - destruct (calls s !! k) as [[d ph p] |]; [| discriminate].
    destruct ph as [| | l | |]; try discriminate.
    destruct (loadPhotos_resume l ev (clock s) (app s)) as [[l' a] |] eqn:Er;
      [| discriminate].
    simpl in Hs.
    pose proof (loadPhotos_resume_length _ _ _ _ _ _ H Er) as Hl.
    destruct l' as [l' |]; injection Hs as <-;
      rewrite ?app_animateIn; exact Hl.
  - destruct (pendingTextures (app s) !! i); [| discriminate].
    simpl in Hs. injection Hs as <-. exact H.
  - destruct (Registry.fireTimer _ _ _); [| discriminate].
    simpl in Hs. injection Hs as <-. exact H.
Qed.

(** X12. In every state the program reaches, whatever events arrive,
    [photoEntries] has exactly three slots: binding, hiding, animating and
    failed loads never grow or shrink it. *)
Theorem always_three_slots r0 t0 es s :
  run es (boot r0 t0) = Some s → length (photoEntries (app s)) = 3%nat.
Proof.
  assert (∀ s0, length (photoEntries (app s0)) = 3%nat →
                run es s0 = Some s → length (photoEntries (app s)) = 3%nat) as H.
  { induction es as [| e es IH]; intros s0 H0 Hr; simpl in Hr.
    - injection Hr as <-. exact H0.
    - destruct (step e s0) as [s1 |] eqn:E; [| discriminate]. simpl in Hr.
      eapply IH; [| exact Hr]. eapply threeSlots_step; eassumption. }
  intros Hr. refine (H _ _ Hr). unfold Slide.boot.
  pose proof (loadPhotos_entries 0 t0
                (mkApp false [None; None; None] 0 0 r0 [] 0 0)) as He.
  destruct (loadPhotos 0 t0 _) as [l a]. simpl in *. rewrite He. reflexivity.
Qed.

Lemma directions_fetchNext k d s :
  direction_of <$> calls (fetchNext k d s) = direction_of <$> calls s.
Proof.
  unfold Slide.fetchNext. destruct (loadPhotos _ _ _) as [[l |] a].
  - rewrite directions_set_phase. reflexivity.
  - rewrite directions_animateIn. reflexivity.
Qed.

Lemma directions_animateOut k d s :
  direction_of <$> calls (animateOut k d s) = direction_of <$> calls s.
Proof.
  unfold Slide.animateOut. destruct (animations outDepths (app s)).
  - apply directions_fetchNext.
  - apply directions_set_phase.
Qed.

Lemma directions_step e s s' :
  step e s = Some s' →
  direction_of <$> calls s' = (direction_of <$> calls s) ++ clicks [e].
Proof.
  intros Hs. destruct e as [ms | d | | k i | [| k] ev | i | i];
    simpl in Hs; unfold clicks; simpl; rewrite ?app_nil_r.
  - destruct (0 <=? ms); [| discriminate]. injection Hs as <-. reflexivity.
  - unfold pageSlide in Hs.
    destruct (promises s !! slideQueue s) as [[rs |] |]; try discriminate;
      injection Hs as <-; simpl; rewrite fmap_app; reflexivity.
  - destruct (jobs s) as [| k rest]; [discriminate |].
    destruct (calls s !! k) as [[d [] p] |]; try discriminate.
    injection Hs as <-. rewrite directions_animateOut. reflexivity.
  - destruct (calls s !! k) as [[d ph p] |]; [| discriminate].
    destruct ph as [| running | | running |]; try discriminate;
      (destruct (running !! i) as [an |]; [| discriminate]);
      destruct (delete i running); injection Hs as <-.
    + rewrite directions_fetchNext. reflexivity.
    + rewrite directions_set_phase. reflexivity.
    + rewrite directions_resolve. reflexivity.
    + rewrite directions_set_phase. reflexivity.
  - destruct (initialLoad s) as [l |]; [| discriminate]. simpl in Hs.
    destruct (loadPhotos_resume l ev (clock s) (app s)) as [[l' a] |];
      [| discriminate].
    simpl in Hs. injection Hs as <-. reflexivity.
  - destruct (calls s !! k) as [[d ph p] |]; [| discriminate].
    destruct ph as [| | l | |]; try discriminate.
    destruct (loadPhotos_resume l ev (clock s) (app s)) as [[l' a] |];
      [| discriminate].
    simpl in Hs. destruct l' as [l' |]; injection Hs as <-.
    + rewrite directions_set_phase. reflexivity.
    + rewrite directions_animateIn. reflexivity.
  - destruct (pendingTextures (app s) !! i); [| discriminate].
    simpl in Hs. injection Hs as <-. reflexivity.
  - destruct (Registry.fireTimer _ _ _); [| discriminate].
    simpl in Hs. injection Hs as <-. reflexivity.
Qed.

(** X13. No click on an arrow is dropped, duplicated or reordered: in
    every state the program reaches, the directions of the calls of
    [pageSlide], in the order of the queue, are the directions of the
    pointer-downs so far, in the order they arrived. *)
Theorem every_click_is_queued r0 t0 es s :
  run es (boot r0 t0) = Some s →
  direction_of <$> calls s = clicks es.
Proof.
  assert (∀ s0, run es s0 = Some s →
                direction_of <$> calls s = (direction_of <$> calls s0) ++ clicks es)
    as H.
  { induction es as [| e es IH]; intros s0 Hr; simpl in Hr.
    - injection Hr as <-. rewrite app_nil_r. reflexivity.
    - destruct (step e s0) as [s1 |] eqn:E; [| discriminate]. simpl in Hr.
      rewrite (IH s1 Hr), (directions_step e s0 s1 E), <- app_assoc.
      f_equal. unfold clicks. simpl. destruct e; reflexivity. }
  intros Hr. rewrite (H _ Hr). unfold Slide.boot.
  destruct (loadPhotos 0 t0 _) as [l a]. reflexivity.
Qed.

End WithEnvironment.
End MachineProps.

(** ** Without an API key *)

Module IdleProps.

Import Work Scene Gallery Slide Idle.

Lemma animations_empty depths a :
  photoEntries a = [None; None; None] → animations depths a = [].
Proof.
  intros E. unfold animations. rewrite E. destruct (sceneDisposed a); reflexivity.
Qed.

Lemma atRest_set_phase k s :
  Forall atRest (calls s) → Forall atRest (calls (set_phase k Resolved s)).
Proof.
  intros H. unfold set_phase. simpl. apply Forall_alter; [exact H |].
  intros c _. right. reflexivity.
Qed.

Section WithEnvironment.

Variable Math_random : nat → string.
Variable formatDate : string → string.
Variable VITE_MICROCMS_API_KEY : option string.
Variable DEV : bool.

Hypothesis no_key : VITE_MICROCMS_API_KEY = None ∨ VITE_MICROCMS_API_KEY = Some "".

#[local] Abbreviation loadPhotos := (loadPhotos Math_random VITE_MICROCMS_API_KEY DEV).
#[local] Abbreviation fetchNext := (fetchNext Math_random VITE_MICROCMS_API_KEY DEV).
#[local] Abbreviation animateOut := (animateOut Math_random VITE_MICROCMS_API_KEY DEV).
#[local] Abbreviation step := (step Math_random formatDate VITE_MICROCMS_API_KEY DEV).
#[local] Abbreviation run := (run Math_random formatDate VITE_MICROCMS_API_KEY DEV).
#[local] Abbreviation boot := (boot Math_random VITE_MICROCMS_API_KEY DEV).

Lemma loadPhotos_without_key offset now a : loadPhotos offset now a = (None, a).
Proof.
  unfold Gallery.loadPhotos. destruct no_key as [-> | ->]; reflexivity.
Qed.

Lemma neverLoaded_animateOut r0 k d s :
  neverLoaded r0 s → neverLoaded r0 (animateOut k d s).
Proof.
  intros (He & Hp & Ht & Hx & Hi & Hc & Hr & Hreg).
  unfold Slide.animateOut. rewrite (animations_empty _ _ He).
  unfold Slide.fetchNext. rewrite loadPhotos_without_key.
  unfold Slide.animateIn. cbn [app]. rewrite (animations_empty _ _ He).
  unfold neverLoaded, resolve. cbn [app initialLoad calls requested].
  split_and!; try assumption.
  - apply (atRest_set_phase k (mkState (app s) (clock s) (promises s) (slideQueue s)
             (calls s) (jobs s) (initialLoad s) (requested s ++ [_]))), Hc.
  - apply Forall_app. split; [exact Hr |]. constructor; [| constructor].
    rewrite Hp, Ht. destruct d; [left | right]; reflexivity.
  - apply Hreg.
  - apply Hreg.
  - apply Hreg.
Qed.

Lemma neverLoaded_step r0 e s s' :
  neverLoaded r0 s → step e s = Some s' → neverLoaded r0 s'.
Proof.
  intros Hn Hs. pose proof Hn as (He & Hp & Ht & Hx & Hi & Hc & Hr & Hreg).
  destruct e as [ms | d | | k i | [| k] ev | i | i]; simpl in Hs.
  - destruct (0 <=? ms); [| discriminate]. injection Hs as <-. exact Hn.
  - unfold pageSlide in Hs.
    destruct (promises s !! slideQueue s) as [[rs |] |]; try discriminate;
      injection Hs as <-; unfold neverLoaded; simpl;
      (split_and!; try assumption; try apply Hreg;
       apply Forall_app; split; [exact Hc |];
       constructor; [left; reflexivity | constructor]).
  - destruct (jobs s) as [| k rest]; [discriminate |].
    destruct (calls s !! k) as [[d [] p] |]; try discriminate.
    injection Hs as <-. apply neverLoaded_animateOut. exact Hn.
  - destruct (calls s !! k) as [[d ph p] |] eqn:Ek; [| discriminate].
    rewrite Forall_lookup in Hc. destruct (Hc k _ Ek) as [E | E];
      simpl in E; subst ph; discriminate.
  - rewrite Hi in Hs. discriminate.
  - destruct (calls s !! k) as [[d ph p] |] eqn:Ek; [| discriminate].
    rewrite Forall_lookup in Hc. destruct (Hc k _ Ek) as [E | E];
      simpl in E; subst ph; discriminate.
  - rewrite Hx in Hs. discriminate.
  - unfold Registry.fireTimer in Hs.
    destruct (Registry.hideTimers (registry (app s)) !! i) as [due |];
      [| discriminate].
    destruct (due <=? clock s); [| discriminate].
    simpl in Hs. injection Hs as <-. unfold neverLoaded. simpl.
    split_and!; try assumption; apply Hreg.
Qed.

(** X20. Without an API key (unset or empty) nothing ever loads: in every
    state the program reaches the three slots are empty, the offset and the
    total count are 0, no load is suspended, every call of [pageSlide] is
    queued or already resolved (a transition runs through without an
    animation and without a fetch), [loadPhotos] has only been called with
    0 or with the -3 that the backward arrow computes from an empty
    collection, and no asset has been registered. *)
Theorem without_key_nothing_loads r0 t0 es s :
  run es (boot r0 t0) = Some s →
  photoEntries (app s) = [None; None; None]
  ∧ pageOffset (app s) = 0
  ∧ Gallery.totalCount (app s) = 0
  ∧ initialLoad s = None
  ∧ Forall atRest (calls s)
  ∧ Forall (λ offset, offset = 0 ∨ offset = -3) (requested s)
  ∧ Registry.totalAssets (registry (app s)) = Registry.totalAssets r0
  ∧ Registry.registeredAssetKeys (registry (app s)) = Registry.registeredAssetKeys r0.
Proof.
  assert (∀ s0, neverLoaded r0 s0 → run es s0 = Some s → neverLoaded r0 s) as H.
  { induction es as [| e es IH]; intros s0 H0 Hr; simpl in Hr.
    - injection Hr as <-. exact H0.
    - destruct (step e s0) as [s1 |] eqn:E; [| discriminate]. simpl in Hr.
      eapply IH; [| exact Hr]. eapply neverLoaded_step; eassumption. }
  intros Hr.
  destruct (H (boot r0 t0)) as (He & Hp & Ht & Hx & Hi & Hc & Hq & Hreg);
    [| exact Hr |].
  - unfold Slide.boot. rewrite loadPhotos_without_key. unfold neverLoaded. simpl.
    split_and!; try reflexivity; repeat constructor.
  - split_and!; try assumption; apply Hreg.
Qed.

End WithEnvironment.

End IdleProps.

(** ** Transitions *)

Module AnimationProps.
Import Work Scene Gallery Slide Spec Slots SlotProps BindingProps.

Lemma set_entries_same a : set_entries (photoEntries a) a = a.
Proof. destruct a. reflexivity. Qed.

Lemma applyEnds_app xs ys a :
  applyEnds (xs ++ ys) a = applyEnds ys (applyEnds xs a).
Proof. unfold applyEnds. apply foldl_app. Qed.

Lemma array_get_middle {A} (pre rest : list (option A)) x :
  JS.array_get (pre ++ x :: rest) (length pre) = x.
Proof.
  unfold JS.array_get. rewrite list_lookup_middle by reflexivity. reflexivity.
Qed.

Lemma insert_middle {A} (pre rest : list A) x y :
  <[length pre := y]> (pre ++ x :: rest) = pre ++ y :: rest.
Proof.
  rewrite insert_app_r_alt by lia. rewrite Nat.sub_diag. reflexivity.
Qed.

(** The animations of one slot end: the slot is settled. *)
Lemma applyEnds_slot depths pre oe rest a :
  photoEntries a = pre ++ oe :: rest →
  applyEnds (slotAnimations depths (length pre) oe) a
  = set_entries (pre ++ settledSlot depths (length pre) oe :: rest) a.
Proof.
  intros E. unfold slotAnimations, settledSlot.
  destruct oe as [e |]; [destruct (enabled (photoPlane e)) |];
    try (unfold applyEnds; simpl; rewrite <- E; symmetry; apply set_entries_same).
  unfold applyEnds, animateEntry, settledEntry. simpl.
  unfold animationEnd at 4. simpl. rewrite E, array_get_middle.
  rewrite Nat.eqb_refl, insert_middle.
  unfold animationEnd at 3. simpl. rewrite array_get_middle.
  simpl. rewrite Nat.eqb_refl, insert_middle.
  unfold animationEnd at 2. simpl. rewrite array_get_middle.
  simpl. rewrite Nat.eqb_refl, insert_middle.
  unfold animationEnd. simpl. rewrite array_get_middle.
  simpl. rewrite Nat.eqb_refl, insert_middle.
  reflexivity.
Qed.

Lemma applyEnds_slots depths rest :
  ∀ pre a,
    photoEntries a = pre ++ rest →
    applyEnds (concat (imap (λ j, slotAnimations depths (length pre + j)) rest)) a
    = set_entries (pre ++ imap (λ j, settledSlot depths (length pre + j)) rest) a.
Proof.
  induction rest as [| oe rest IH]; intros pre a E.
  - simpl. rewrite <- E. symmetry. apply set_entries_same.
  - rewrite !imap_cons. simpl concat. rewrite applyEnds_app.
    rewrite Nat.add_0_r.
    rewrite (applyEnds_slot depths pre oe rest a E).
    specialize (IH (pre ++ [settledSlot depths (length pre) oe])
                  (set_entries (pre ++ settledSlot depths (length pre) oe :: rest) a)).
    rewrite length_app in IH. simpl in IH.
    rewrite (imap_ext _ (λ j, slotAnimations depths (length pre + 1 + j))).
    2: { intros j x _. simpl. f_equal. lia. }
    rewrite IH by (rewrite <- app_assoc; reflexivity).
    unfold set_entries. simpl. f_equal.
    rewrite <- app_assoc. simpl. do 2 f_equal.
    apply imap_ext. intros j x _. simpl. f_equal. lia.
Qed.

Lemma animations_slots depths a :
  sceneDisposed a = false →
  animations depths a = concat (imap (slotAnimations depths) (photoEntries a)).
Proof.
  intros Hd. unfold animations. rewrite Hd. reflexivity.
Qed.

Lemma length_slot_animations depths es :
  ∀ k, length (concat (imap (λ j, slotAnimations depths (k + j)) es))
       = (4 * enabledCount es)%nat.
Proof.
  unfold enabledCount.
  induction es as [| oe es IH]; intros k; [reflexivity |].
  rewrite imap_cons. simpl concat. rewrite length_app.
  rewrite (imap_ext _ (λ j, slotAnimations depths (k + 1 + j))).
  2: { intros j x _. simpl. f_equal. lia. }
  rewrite IH. simpl List.filter.
  destruct oe as [e |]; simpl; [destruct (enabled (photoPlane e)) |];
    simpl; lia.
Qed.

Lemma applyEnds_animations depths a :
  sceneDisposed a = false →
  applyEnds (animations depths a) a
  = set_entries (imap (settledSlot depths) (photoEntries a)) a.
Proof.
  intros Hd. rewrite (animations_slots depths a Hd).
  apply (applyEnds_slots depths (photoEntries a) [] a). reflexivity.
Qed.

(** X14. A pass of animations (out or in) starts four animations for
    every enabled entry and none for a hidden or empty slot; once all of
    them have ended, every enabled entry has its four planes at the depths
    of the pass and everything else in the gallery is as it was. *)
Theorem animation_pass_settles depths a :
  sceneDisposed a = false →
  applyEnds (animations depths a) a
  = set_entries (imap (settledSlot depths) (photoEntries a)) a
  ∧ length (animations depths a) = (4 * enabledCount (photoEntries a))%nat.
Proof.
  intros Hd. split; [apply applyEnds_animations, Hd |].
  rewrite (animations_slots depths a Hd).
  apply (length_slot_animations depths (photoEntries a) 0).
Qed.

Lemma applyEnds_disposed anims :
  ∀ a, sceneDisposed (applyEnds anims a) = sceneDisposed a.
Proof.
  unfold applyEnds.
  induction anims as [| an anims IH]; intros a; simpl; [reflexivity |].
  rewrite IH. unfold animationEnd.
  destruct (JS.array_get (photoEntries a) (slot an)) as [e |]; [| reflexivity].
  destruct (serial e =? owner an)%nat; reflexivity.
Qed.

(** X15. A transition out followed by a transition in over the same
    entries (what happens when the page in between fails to load) is a round
    trip for an enabled entry: out, its photo plane is off stage at depth
    -1.5 (slots 0 and 1) or 1.5 (slot 2); back in, it rests at its
    [originalZ] again, still enabled, with the same material and caption. *)
Theorem out_then_in_returns a i e :
  sceneDisposed a = false →
  photoEntries a !! i = Some (Some e) →
  enabled (photoPlane e) = true →
  ∃ e1 e2,
    photoEntries (movedOut a) !! i = Some (Some e1)
    ∧ z (position (photoPlane e1))
      = (if (i <? 2)%nat then (-1.5)%float else 1.5%float)
    ∧ photoEntries (movedIn (movedOut a)) !! i = Some (Some e2)
    ∧ z (position (photoPlane e2)) = originalZ e
    ∧ originalZ e2 = originalZ e
    ∧ enabled (photoPlane e2) = true
    ∧ mat e2 = mat e
    ∧ textTexture e2 = textTexture e.
Proof.
  intros Hd Hi He. unfold movedIn, movedOut.
  assert (sceneDisposed (applyEnds (animations outDepths a) a) = false) as Hd'.
  { rewrite applyEnds_disposed. exact Hd. }
  rewrite (applyEnds_animations inDepths _ Hd').
  rewrite (applyEnds_animations outDepths a Hd).
  simpl. rewrite !list_lookup_imap, Hi. simpl. rewrite He. simpl. rewrite He.
  do 2 eexists. split; [reflexivity |]. split; [reflexivity |].
  split; [reflexivity |]. simpl. auto.
Qed.

(** X16. Hiding a slot twice is hiding it once, and a hidden slot takes no
    part in a pass of animations: once the animations of the pass have
    ended, the slot holds the hidden entry exactly where [hideEntry] left
    it. *)
Theorem hidden_slot_stays_hidden depths i a :
  sceneDisposed a = false →
  hideEntry i (hideEntry i a) = hideEntry i a
  ∧ JS.array_get
      (photoEntries (applyEnds (animations depths (hideEntry i a)) (hideEntry i a))) i
    = hidden <$> JS.array_get (photoEntries a) i.
Proof.
  intros Hd. split.
  - unfold hideEntry at 1. rewrite hideEntry_slot.
    destruct (JS.array_get (photoEntries a) i) as [e |] eqn:E; simpl;
      [| reflexivity].
    unfold hideEntry. rewrite E. unfold set_entries. simpl.
    rewrite list_insert_insert_eq. reflexivity.
  - rewrite applyEnds_animations by (rewrite hideEntry_disposed; exact Hd).
    simpl. unfold JS.array_get. rewrite list_lookup_imap.
    pose proof (hideEntry_slot i a) as Hs. unfold JS.array_get in Hs.
    destruct (photoEntries (hideEntry i a) !! i) as [oe |] eqn:E1; simpl in *.
    + rewrite <- Hs. destruct oe as [e |]; [| reflexivity]. simpl.
      destruct (photoEntries a !! i) as [[e0 |] |]; simpl in Hs; try discriminate.
      injection Hs as ->. reflexivity.
    + exact Hs.
Qed.

End AnimationProps.

(** ** The caption text *)

Module CaptionProps.

Import CaptionText CaptionLayout.

Section WithCanvas.

Variable codeUnit : Type.
Variable measureText : list codeUnit → float.

#[local] Abbreviation fillText := (fillText codeUnit).
#[local] Abbreviation wrapChars := (wrapChars codeUnit measureText).
#[local] Abbreviation layoutParagraphs := (layoutParagraphs codeUnit measureText).
#[local] Abbreviation tooWide := (tooWide codeUnit measureText).
#[local] Abbreviation text := (text codeUnit).
#[local] Abbreviation y := (y codeUnit).
#[local] Abbreviation x := (x codeUnit).

#[local] Abbreviation stacked := (stacked codeUnit).
#[local] Abbreviation fits := (fits codeUnit measureText).
#[local] Abbreviation linesOf := (linesOf codeUnit).
#[local] Abbreviation paragraphLines := (paragraphLines codeUnit).

#[local] Ltac layout_lia :=
  unfold bodyTop, lineHeight, bottom, CONTENT_Y_OFFSET_PX, TEXT_SCALE in *; lia.

Lemma stacked_nil y0 : stacked y0 [].
Proof. intros k d H. rewrite lookup_nil in H. discriminate. Qed.

Lemma stacked_cons y0 d ds :
  y d = y0 → y0 ≤ bottom → x d = centerX →
  stacked (y0 + lineHeight) ds → stacked y0 (d :: ds).
Proof.
  intros Hy Hb Hx Hs [| k] d' H; simpl in H.
  - injection H as <-. split_and!; [layout_lia | layout_lia | exact Hx].
  - destruct (Hs k d' H) as (E & B & X). split_and!; [layout_lia | exact B | exact X].
Qed.

Lemma stacked_app y0 ds ds' :
  stacked y0 ds → stacked (y0 + lineHeight * Z.of_nat (length ds)) ds' →
  stacked y0 (ds ++ ds').
Proof.
  intros H1 H2 k d H.
  destruct (decide (k < length ds)%nat) as [Hlt | Hge].
  - rewrite lookup_app_l in H by assumption. apply H1, H.
  - rewrite lookup_app_r in H by layout_lia.
    destruct (H2 _ _ H) as (E & B & X). split_and!; [layout_lia | exact B | exact X].
Qed.

(** What the loop over the characters of a paragraph keeps. *)
Lemma wrapChars_spec chars :
  ∀ n line y0,
    y0 ≤ bottom →
    fits line →
    (n = 0%nat → line = []) →
    let w := wrapChars chars n line y0 in
    stacked y0 (drawn codeUnit w)
    ∧ reached codeUnit w = y0 + lineHeight * Z.of_nat (length (drawn codeUnit w))
    ∧ (if broke codeUnit w then bottom < reached codeUnit w
       else reached codeUnit w ≤ bottom)
    ∧ (∃ rest, concat (text <$> drawn codeUnit w) ++ held codeUnit w ++ rest
               = line ++ chars
               ∧ (broke codeUnit w = false → rest = []))
    ∧ Forall (λ d, fits (text d)) (drawn codeUnit w)
    ∧ fits (held codeUnit w).
Proof.
  induction chars as [| c chars IH]; intros n line y0 Hy Hf Hn; simpl.
  - split_and!; try (apply stacked_nil || layout_lia || assumption || constructor).
    exists []. rewrite !app_nil_r. auto.
  - destruct (CaptionText.tooWide codeUnit measureText (line ++ [c]) && (0 <? n)%nat)
      eqn:Ec.
    + destruct (Z.ltb_spec bottom (y0 + lineHeight)).
      * simpl. split_and!.
        -- apply stacked_cons; try reflexivity; [exact Hy | apply stacked_nil].
        -- layout_lia.
        -- layout_lia.
        -- exists chars. simpl. rewrite app_nil_r.
           split; [reflexivity | discriminate].
        -- constructor; [exact Hf | constructor].
        -- left. simpl. layout_lia.
      * destruct (IH (S n) [c] (y0 + lineHeight)) as (H1 & H2 & H3 & H4 & H5 & H6).
        { layout_lia. } { left. simpl. layout_lia. } { discriminate. }
        simpl. split_and!.
        -- apply stacked_cons; try reflexivity; assumption.
        -- rewrite H2. layout_lia.
        -- exact H3.
        -- destruct H4 as (rest & E & Hr). exists rest. split; [| exact Hr].
           simpl in E. rewrite <- app_assoc. simpl. f_equal. exact E.
        -- constructor; [exact Hf | exact H5].
        -- exact H6.
    + destruct (IH (S n) (line ++ [c]) y0) as (H1 & H2 & H3 & H4 & H5 & H6).
      { exact Hy. }
      { apply andb_false_iff in Ec as [Ec | Ec]; [right; exact Ec |].
        apply Nat.ltb_ge in Ec. assert (n = 0%nat) as En by layout_lia.
        rewrite (Hn En). left. simpl. layout_lia. }
      { discriminate. }
      split_and!; try assumption.
      destruct H4 as (rest & E & Hr). exists rest. split; [| exact Hr].
      rewrite E, <- app_assoc. reflexivity.
Qed.

Lemma layoutParagraphs_spec paragraphs :
  ∀ y0,
    y0 ≤ bottom →
    stacked y0 (layoutParagraphs paragraphs y0)
    ∧ (∃ rest, concat (text <$> layoutParagraphs paragraphs y0) ++ rest
               = concat paragraphs)
    ∧ (y0 + lineHeight * Z.of_nat (length (layoutParagraphs paragraphs y0))
       ≤ bottom →
       paragraphLines paragraphs (layoutParagraphs paragraphs y0))
    ∧ Forall (λ d, fits (text d)) (layoutParagraphs paragraphs y0).
Proof.
  induction paragraphs as [| para more IH]; intros y0 Hy; simpl.
  - split_and!; [apply stacked_nil | exists []; reflexivity | | constructor].
    intros _. exists []. split; [reflexivity | constructor].
  - destruct (wrapChars_spec para 0 [] y0 Hy) as (H1 & H2 & H3 & H4 & H5 & H6).
    { left. simpl. layout_lia. } { reflexivity. }
    cbv zeta in *.
    set (w := wrapChars para 0 [] y0) in *.
    destruct H4 as (rest & E & Hr). simpl in E.
    destruct (broke codeUnit w) eqn:Eb.
    + split_and!.
      * exact H1.
      * exists (held codeUnit w ++ rest ++ concat more).
        rewrite <- E. rewrite <- !app_assoc. reflexivity.
      * intros Hfit. layout_lia.
      * exact H5.
    + specialize (Hr eq_refl). subst rest. rewrite app_nil_r in E.
      destruct (Z.leb_spec (reached codeUnit w) bottom) as [_ | Habs]; [| layout_lia].
      assert (stacked y0 (drawn codeUnit w
                          ++ [bodyLine codeUnit (held codeUnit w) (reached codeUnit w)]))
        as Hst.
      { apply stacked_app; [exact H1 |].
        apply stacked_cons; try reflexivity;
          [simpl; layout_lia | layout_lia | apply stacked_nil]. }
      destruct (Z.ltb_spec bottom (reached codeUnit w + lineHeight)).
      * split_and!.
        -- exact Hst.
        -- exists (concat more). rewrite fmap_app, concat_app. simpl.
           rewrite app_nil_r, E. reflexivity.
        -- intros Hfit. rewrite length_app in Hfit. simpl in Hfit. layout_lia.
        -- apply Forall_app. split; [exact H5 |]. constructor; [exact H6 | constructor].
      * destruct (IH (reached codeUnit w + lineHeight)) as (I1 & I2 & I3 & I4); [layout_lia |].
        set (ds := layoutParagraphs more (reached codeUnit w + lineHeight)) in *.
        split_and!.
        -- rewrite app_assoc. apply stacked_app; [exact Hst |].
           rewrite length_app. simpl.
           replace (y0 + lineHeight * Z.of_nat (length (drawn codeUnit w) + 1))
             with (reached codeUnit w + lineHeight) by layout_lia.
           exact I1.
        -- destruct I2 as (rest & E'). exists rest.
           rewrite !fmap_app, !concat_app. simpl. rewrite app_nil_r.
           rewrite <- !app_assoc. rewrite <- E', <- E.
           rewrite <- !app_assoc. reflexivity.
        -- intros Hfit. rewrite !length_app in Hfit. simpl in Hfit.
           destruct I3 as (groups & Eg & Hg); [layout_lia |].
           exists ((drawn codeUnit w
                    ++ [bodyLine codeUnit (held codeUnit w) (reached codeUnit w)])
                   :: groups).
           split.
           ++ simpl. rewrite <- Eg, <- app_assoc. reflexivity.
           ++ constructor; [| exact Hg]. split.
              ** intros Habs. apply app_eq_nil in Habs as [_ Habs]. discriminate Habs.
              ** rewrite fmap_app, concat_app. simpl. rewrite app_nil_r. exact E.
        -- apply Forall_app. split; [exact H5 |].
           constructor; [exact H6 | exact I4].
Qed.

(** X17. Whatever the body text and the font metrics, the caption draws at
    most seven body lines; the [k]-th is drawn centered (x = 1024) at
    y = 264 + 60 k, so none is drawn below y = 640. *)
Theorem body_lines_are_stacked paragraphs :
  (length (layoutParagraphs paragraphs bodyTop) ≤ 7)%nat
  ∧ ∀ k d, layoutParagraphs paragraphs bodyTop !! k = Some d →
           y d = 264 + 60 * Z.of_nat k ∧ y d ≤ 640 ∧ x d = 1024.
Proof.
  destruct (layoutParagraphs_spec paragraphs bodyTop) as (H1 & _); [vm_compute; discriminate |].
  split.
  - destruct (layoutParagraphs paragraphs bodyTop) as [| d ds] eqn:E using rev_ind;
      [simpl; layout_lia |].
    clear IHds.
    destruct (H1 (length ds) d) as (Ey & By & _).
    { rewrite lookup_app_r by layout_lia. rewrite Nat.sub_diag. reflexivity. }
    rewrite length_app. simpl.
    layout_lia.
  - intros k d H. destruct (H1 k d H) as (Ey & By & Ex).
    split_and!; [layout_lia | layout_lia | exact Ex].
Qed.

Lemma paragraphLines_whole paragraphs ds :
  paragraphLines paragraphs ds →
  concat (text <$> ds) = concat paragraphs
  ∧ (length paragraphs ≤ length ds)%nat.
Proof.
  intros (groups & -> & Hg).
  induction Hg as [| para g paras gs [Hne Hp] Hg IH]; [split; reflexivity |].
  destruct IH as [IH1 IH2]. simpl.
  rewrite fmap_app, concat_app, length_app, Hp, IH1.
  split; [reflexivity |].
  destruct g; [contradiction | simpl; lia].
Qed.

(** X18. The wrapping neither reorders nor invents text: the body lines
    drawn, put end to end, are a prefix of the paragraphs put end to end.
    When fewer than seven lines are drawn nothing is cut off and no line
    straddles two paragraphs: the lines fall into consecutive groups, one
    per paragraph and none empty, and the lines of a group put end to end
    are that paragraph (an empty paragraph is a single empty line). *)
Theorem body_text_is_a_prefix paragraphs :
  concat (text <$> layoutParagraphs paragraphs bodyTop)
    `prefix_of` concat paragraphs
  ∧ ((length (layoutParagraphs paragraphs bodyTop) < 7)%nat →
     paragraphLines paragraphs (layoutParagraphs paragraphs bodyTop)
     ∧ concat (text <$> layoutParagraphs paragraphs bodyTop) = concat paragraphs
     ∧ (length paragraphs ≤ length (layoutParagraphs paragraphs bodyTop))%nat).
Proof.
  destruct (layoutParagraphs_spec paragraphs bodyTop) as (_ & H2 & H3 & _);
    [vm_compute; discriminate |].
  split.
  - destruct H2 as (rest & E). exists rest. symmetry. exact E.
  - intros Hl.
    assert (paragraphLines paragraphs (layoutParagraphs paragraphs bodyTop)) as Hg
      by (apply H3; layout_lia).
    split; [exact Hg | apply paragraphLines_whole, Hg].
Qed.

(** X19. Every body line of two code units or more that the caption draws
    measures at most 1800 pixels (900 scaled by 2) in the body font; only a
    line that is a single code unit can be wider. *)
Theorem body_lines_fit paragraphs d :
  d ∈ layoutParagraphs paragraphs bodyTop →
  (2 ≤ length (text d))%nat →
  (JS.num 1800 <? measureText (text d))%float = false.
Proof.
  intros Hin Hlen.
  destruct (layoutParagraphs_spec paragraphs bodyTop) as (_ & _ & _ & H4);
    [vm_compute; discriminate |].
  rewrite Forall_forall in H4. destruct (H4 d Hin) as [Hs | Hw]; [layout_lia |].
  exact Hw.
Qed.

End WithCanvas.
End CaptionProps.

(** ** The properties on sample inputs *)

Module Instances.

Import Work Scene Gallery Slide Spec Samples Carousel RegistryLog Slots Examples.

(** X1 with seven items: forward from the last page. *)
Lemma nextOffset_pageStart_witness :
  7 ≤ 2 ^ 52
  ∧ pageStart 7 6
  ∧ ∃ q, JS.integer (nextOffset64 (JS.num 6) (JS.num 7) Forward) = Some q
         ∧ pageStart 7 q.
Proof.
  assert (7 ≤ 2 ^ 52) as H7 by lia.
  assert (pageStart 7 6) as H by (split; [lia | exists 2; reflexivity]).
  split; [exact H7 |]. split; [exact H |].
  exact (CarouselProps.nextOffset_pageStart 7 6 Forward H7 H).
Defined.

(** X2 with seven items: backward from the first page and forward again. *)
Lemma nextOffset_round_trip_witness :
  7 ≤ 2 ^ 52
  ∧ pageStart 7 0
  ∧ JS.integer (nextOffset64 (JS.num 0) (JS.num 7) Backward) = Some 6
  ∧ nextOffset64 (nextOffset64 (JS.num 0) (JS.num 7) Backward) (JS.num 7)
      (opposite Backward)
    = JS.num 0.
Proof.
  assert (7 ≤ 2 ^ 52) as H7 by lia.
  assert (pageStart 7 0) as H by (split; [lia | exists 0; reflexivity]).
  split; [exact H7 |]. split; [exact H |].
  split; [vm_compute; reflexivity |].
  exact (proj1 (CarouselProps.nextOffset_round_trip 7 0 Backward H7 H)).
Defined.

(** X3 with seven items, that is three pages: four transitions forward end
    on the second page. *)
Lemma forward_walk_cycles_witness :
  0 < 7
  ∧ forwardClicks 4 7 0 = 3 * (Z.of_nat 4 mod pagesOf 7)
  ∧ 3 * (Z.of_nat 4 mod pagesOf 7) = 3.
Proof.
  assert (0 < 7) as H by lia.
  split; [exact H |].
  split; [exact (CarouselProps.forward_walk_cycles 7 4 H) | reflexivity].
Defined.

Lemma threeKeys_runs :
  is_Some (registryRun threeKeys Registry.empty).
Proof. vm_compute. eauto. Qed.

(** X4 on a session of three distinct keys, one of them registered twice. *)
Lemma totalAssets_counts_keys_witness :
  ∃ r, registryRun threeKeys Registry.empty = Some r
       ∧ Registry.totalAssets r = size (Registry.registeredAssetKeys r)
       ∧ Registry.totalAssets r = 3%nat.
Proof.
  destruct threeKeys_runs as [r Hr]. exists r.
  split; [exact Hr |].
  split; [exact (RegistryLogProps.totalAssets_counts_keys threeKeys r Hr) |].
  revert Hr. vm_compute. intros Hr. injection Hr as <-. reflexivity.
Defined.

(** X5 on the registry as it is when the page loads. *)
Lemma registerAsset_new_session_witness :
  "images/a.jpg" ≠ ""
  ∧ Registry.loadingOverlay Registry.empty = None
  ∧ Registry.totalAssets
      (Registry.registerAsset (Some "images/a.jpg") "x" 0 Registry.empty).2 = 1%nat
  ∧ Registry.loadingOverlay
      (Registry.registerAsset (Some "images/a.jpg") "x" 0 Registry.empty).2
    = Some (Registry.mkOverlay "あと 100%" "0%").
Proof.
  assert ("images/a.jpg" ≠ "") as Hne by discriminate.
  split; [exact Hne |]. split; [reflexivity |].
  destruct (RegistryLogProps.registerAsset_new_session "images/a.jpg" "x" 0
              Registry.empty Hne eq_refl) as (_ & Ht & _ & _ & Ho & _).
  split; [exact Ht | exact Ho].
Defined.

Lemma dismissedOnce_runs :
  ∃ r, registryRun dismissedOnce Registry.empty = Some r
       ∧ Registry.loadingOverlay r = None
       ∧ Registry.hideTimers r !! 0%nat = Some 620.
Proof. vm_compute. eexists. split_and!; reflexivity. Qed.

(** X6 after a first session whose overlay was dismissed at 520 while a
    second dismissal, scheduled for 620, was pending: a new session starts
    at 600 and loses its overlay at 620. *)
Lemma stale_timeout_dismisses_new_session_witness :
  ∃ r, registryRun dismissedOnce Registry.empty = Some r
       ∧ Registry.loadingOverlay r = None
       ∧ Registry.hideTimers r !! 0%nat = Some 620
       ∧ ∃ r', Registry.fireTimer 0 620
                 (Registry.registerAsset (Some "images/b.jpg") "y" 600 r).2 = Some r'
               ∧ Registry.loadingOverlay r' = None
               ∧ Registry.totalAssets r' = 1%nat
               ∧ Registry.loadedAssets r' = 0%nat.
Proof.
  destruct dismissedOnce_runs as (r & Hr & Ho & Ht). exists r.
  split; [exact Hr |]. split; [exact Ho |]. split; [exact Ht |].
  assert ("images/b.jpg" ≠ "") as Hne by discriminate.
  assert (620 ≤ 620) as Hle by lia.
  exact (RegistryLogProps.stale_timeout_dismisses_new_session "images/b.jpg" "y"
           600 620 0 620 r Hne Ho Ht Hle).
Defined.

(** X8 with the key unset. *)
Lemma handler_fails_closed_witness :
  Proxy.statusCode (Proxy.handler None (Some "limit=3&offset=0") echo) = 500
  ∧ Proxy.handler None None (λ _ _, Proxy.Failure "offline")
    = Proxy.handler None (Some "limit=3&offset=0") echo.
Proof.
  destruct (ProxyProps.handler_fails_closed None (Some "limit=3&offset=0") echo
              (or_introl eq_refl)) as (Hs & _ & Hi).
  split; [exact Hs | apply Hi].
Defined.

(** X9 for the page at offset 3. *)
Lemma proxy_reaches_direct_endpoint_witness :
  "secret" ≠ ""
  ∧ Proxy.handler (Some "secret") (Proxy.rawQueryOf (endpoint false 3)) echo
    = Proxy.mkResponse 200 Proxy.corsHeaders
        (Proxy.Verbatim
           "https://liangworks.microcms.io/api/v1/taiwanphoto?limit=3&offset=3").
Proof.
  assert ("secret" ≠ "") as Hne by discriminate.
  split; [exact Hne |].
  exact (ProxyProps.proxy_reaches_direct_endpoint "secret" 3 echo Hne).
Defined.

Lemma bound_not_disposed : sceneDisposed bound = false.
Proof. vm_compute. reflexivity. Qed.

(** X10 on the bound gallery: the last page, with one item, is bound. *)
Lemma page_binds_and_hides_witness :
  sceneDisposed bound = false
  ∧ contents lastPage = Some [Some widthless]
  ∧ pageOffset (loadPhotos_bind random plainDate 6 Registry.Noop lastPage 10 bound) = 6
  ∧ JS.array_get
      (photoEntries
         (loadPhotos_bind random plainDate 6 Registry.Noop lastPage 10 bound)) 1
    = hidden <$> JS.array_get (photoEntries bound) 1.
Proof.
  split; [exact bound_not_disposed |]. split; [reflexivity |].
  destruct (BindingProps.page_binds_and_hides random plainDate 6 Registry.Noop
              lastPage [Some widthless] 10 bound bound_not_disposed eq_refl)
    as (Hp & _ & Hs & _).
  { intros [| [| [| j]]] work Hj H; vm_compute in H; try discriminate H.
    injection H as <-. eexists. reflexivity. }
  split; [exact Hp |]. exact (Hs 1%nat ltac:(lia)).
Defined.

(** X11 on the bound gallery: the second item of the page has no photo. *)
Lemma photoless_item_stops_binding_witness :
  sceneDisposed bound = false
  ∧ photo photoless = None
  ∧ pageOffset (loadPhotos_bind random plainDate 3 Registry.Noop gappedPage 10 bound) = 3
  ∧ JS.array_get
      (photoEntries
         (loadPhotos_bind random plainDate 3 Registry.Noop gappedPage 10 bound)) 1
    = None
  ∧ JS.array_get
      (photoEntries
         (loadPhotos_bind random plainDate 3 Registry.Noop gappedPage 10 bound)) 2
    = JS.array_get (photoEntries bound) 2.
Proof.
  split; [exact bound_not_disposed |]. split; [reflexivity |].
  destruct (BindingProps.photoless_item_stops_binding random plainDate 3
              Registry.Noop gappedPage
              [Some landscape; Some photoless; Some portrait] 10 bound 1 photoless
              bound_not_disposed eq_refl ltac:(lia) eq_refl eq_refl)
    as (Hp & _ & _ & H1 & H2).
  { intros [| j] w Hj H; [| lia]. vm_compute in H. injection H as <-.
    eexists. reflexivity. }
  split; [exact Hp |]. split; [exact H1 |]. exact (H2 2%nat ltac:(lia)).
Defined.

(** X12 on the sample run. *)
Lemma always_three_slots_witness :
  run random plainDate apiKey false midFetch mounted = Some (reached midFetch)
  ∧ length (photoEntries (app (reached midFetch))) = 3%nat.
Proof.
  split; [exact Witnesses.midFetch_runs |].
  exact (MachineProps.always_three_slots random plainDate apiKey false
           Registry.empty 0 midFetch (reached midFetch) Witnesses.midFetch_runs).
Defined.

(** X13 on the sample run: forward, then backward. *)
Lemma every_click_is_queued_witness :
  run random plainDate apiKey false midFetch mounted = Some (reached midFetch)
  ∧ direction_of <$> calls (reached midFetch) = clicks midFetch
  ∧ clicks midFetch = [Forward; Backward].
Proof.
  split; [exact Witnesses.midFetch_runs |].
  split; [| vm_compute; reflexivity].
  exact (MachineProps.every_click_is_queued random plainDate apiKey false
           Registry.empty 0 midFetch (reached midFetch) Witnesses.midFetch_runs).
Defined.

Lemma keyless_runs :
  ∃ s, run random plainDate None false
         [PointerDown Backward; Job; PointerDown Forward; Job]
         (boot random None false Registry.empty 0) = Some s
       ∧ requested s = [0; -3; 0]
       ∧ phase_of <$> calls s = [Resolved; Resolved].
Proof. vm_compute. eexists. split_and!; reflexivity. Qed.

(** X20 with the key unset: the backward arrow, then the forward arrow. *)
Lemma without_key_nothing_loads_witness :
  ∃ s, run random plainDate None false
         [PointerDown Backward; Job; PointerDown Forward; Job]
         (boot random None false Registry.empty 0) = Some s
       ∧ requested s = [0; -3; 0]
       ∧ phase_of <$> calls s = [Resolved; Resolved]
       ∧ photoEntries (app s) = [None; None; None]
       ∧ Registry.totalAssets (registry (app s)) = 0%nat.
Proof.
  destruct keyless_runs as (s & Hr & Hq & Hc). exists s.
  split; [exact Hr |]. split; [exact Hq |]. split; [exact Hc |].
  destruct (IdleProps.without_key_nothing_loads random plainDate None false
              (or_introl eq_refl) Registry.empty 0 _ s Hr)
    as (He & _ & _ & _ & _ & _ & Ht & _).
  split; [exact He | exact Ht].
Defined.

(** X14 on the bound gallery, whose three entries are enabled: twelve
    animations out. *)
Lemma animation_pass_settles_witness :
  sceneDisposed bound = false
  ∧ length (animations outDepths bound) = (4 * enabledCount (photoEntries bound))%nat
  ∧ enabledCount (photoEntries bound) = 3%nat.
Proof.
  split; [exact bound_not_disposed |].
  destruct (AnimationProps.animation_pass_settles outDepths bound bound_not_disposed)
    as [_ Hl].
  split; [exact Hl | vm_compute; reflexivity].
Defined.

Lemma bound_third_slot :
  ∃ e, photoEntries bound !! 2%nat = Some (Some e)
       ∧ enabled (photoPlane e) = true.
Proof. vm_compute. eexists. split; reflexivity. Qed.

(** X15 on the third slot of the bound gallery. *)
Lemma out_then_in_returns_witness :
  sceneDisposed bound = false
  ∧ ∃ e e1 e2,
      photoEntries bound !! 2%nat = Some (Some e)
      ∧ enabled (photoPlane e) = true
      ∧ photoEntries (movedOut bound) !! 2%nat = Some (Some e1)
      ∧ z (position (photoPlane e1)) = 1.5%float
      ∧ photoEntries (movedIn (movedOut bound)) !! 2%nat = Some (Some e2)
      ∧ z (position (photoPlane e2)) = originalZ e.
Proof.
  split; [exact bound_not_disposed |].
  destruct bound_third_slot as (e & Hi & He).
  destruct (AnimationProps.out_then_in_returns bound 2 e bound_not_disposed Hi He)
    as (e1 & e2 & H1 & H2 & H3 & H4 & _).
  exists e, e1, e2. split_and!; assumption.
Defined.

(** X16 on the first slot of the bound gallery, for the animations in. *)
Lemma hidden_slot_stays_hidden_witness :
  sceneDisposed bound = false
  ∧ hideEntry 0 (hideEntry 0 bound) = hideEntry 0 bound
  ∧ JS.array_get (photoEntries (movedIn (hideEntry 0 bound))) 0
    = hidden <$> JS.array_get (photoEntries bound) 0.
Proof.
  split; [exact bound_not_disposed |].
  exact (AnimationProps.hidden_slot_stays_hidden inDepths 0 bound bound_not_disposed).
Defined.

(** X19 on a paragraph of a hundred code units of 20 pixels each: the first
    line takes ninety of them. *)
Lemma body_lines_fit_witness :
  CaptionText.bodyLine N (replicate 90 26085%N) 264
    ∈ CaptionText.layoutParagraphs N monospace [longParagraph] CaptionText.bodyTop
  ∧ (2 ≤ length (replicate 90 26085%N))%nat
  ∧ (JS.num 1800 <? monospace (replicate 90 26085%N))%float = false.
Proof.
  assert (CaptionText.bodyLine N (replicate 90 26085%N) 264
            ∈ CaptionText.layoutParagraphs N monospace [longParagraph]
                CaptionText.bodyTop) as Hin.
  { vm_compute. left. }
  assert (2 ≤ length (replicate 90 26085%N))%nat as Hlen by (vm_compute; lia).
  split; [exact Hin |]. split; [exact Hlen |].
  exact (CaptionProps.body_lines_fit N monospace [longParagraph] _ Hin Hlen).
Defined.

End Instances.
